(** * ESPResSo: propagation modes and the molecular-dynamics integrator

    A shallow embedding of [src/core/PropagationModes.hpp] and of the
    integrator of [integrate.cpp] (stored in [src/core/virtual_sites.hpp]
    after the virtual-sites header), with the properties of the
    specification proved or refuted on it.

    Conventions.
    - C++ [int] values are integers of [Z]; every flag and counter handled
      here stays far inside the 32-bit range, and the one subtraction that
      could leave it ([propagation - 1]) has its wrap-around written out.
    - C++ [double] values are binary64 floats ([PrimFloat.float]), with the
      IEEE operations of the kernel.
    - The file-scope variables of [integrate.cpp] are the fields of [State],
      threaded explicitly; a function that can [throw] returns a [result].
    - Calls into collaborators that are outside these sources (force kernel,
      ghost exchange, lattice fluid, ...) are logged in [calls], in program
      order, and what they answer is read from an [Env].
    - [assert(fluid_step == ek_step)], the assertion on variables that the
      integrator itself writes, is part of the model ([assert] below). The
      two assertions on what a caller hands in ([n_steps >= 0], and the
      protocol pointer of the box geometry, which [State] does not hold) are
      left to the callers. *)

From Stdlib Require Import ZArith List Bool String Floats Lia.
Import ListNotations.

Set Warnings "-inexact-float".

Local Open Scope Z_scope.
Local Open Scope bool_scope.

(** ** PropagationModes.hpp *)

(** [int] arithmetic: the value of a 32-bit two's complement integer. *)
Definition wrap_int (z : Z) : Z := (z + 2 ^ 31) mod 2 ^ 32 - 2 ^ 31.

Definition INT_MIN : Z := - 2 ^ 31.
Definition INT_MAX : Z := 2 ^ 31 - 1.

Module PropagationMode.
Definition NONE : Z := 0.
Definition TRANS_SYSTEM_DEFAULT : Z := Z.shiftl 1 0.
Definition TRANS_LANGEVIN : Z := Z.shiftl 1 1.
Definition TRANS_VS_RELATIVE : Z := Z.shiftl 1 2.
Definition TRANS_LB_MOMENTUM_EXCHANGE : Z := Z.shiftl 1 3.
Definition TRANS_LB_TRACER : Z := Z.shiftl 1 4.
Definition TRANS_BROWNIAN : Z := Z.shiftl 1 5.
Definition TRANS_STOKESIAN : Z := Z.shiftl 1 6.
Definition ROT_LANGEVIN : Z := Z.shiftl 1 7.
Definition ROT_VS_RELATIVE : Z := Z.shiftl 1 8.
Definition ROT_BROWNIAN : Z := Z.shiftl 1 9.
End PropagationMode.
Import PropagationMode.

(** A C++ integer used as a condition. *)
Definition nonzero (z : Z) : bool := negb (z =? 0).

Definition is_valid_propagation_combination (propagation : Z) : bool :=
  if propagation =? 0 then true (* make sure if true or false *)
  else if negb (nonzero (Z.land propagation (wrap_int (propagation - 1))))
  then true (* only one trans or rot *)
  else if (propagation =? TRANS_LANGEVIN + ROT_LANGEVIN)
          || (propagation =? TRANS_VS_RELATIVE + ROT_VS_RELATIVE)
          || (propagation =? TRANS_BROWNIAN + ROT_BROWNIAN)
  then true (* same mode for translation and rotation *)
  else if (propagation =? TRANS_VS_RELATIVE + ROT_LANGEVIN)
          || (propagation =? TRANS_LANGEVIN + ROT_VS_RELATIVE)
  then true
  else if propagation =? TRANS_LB_MOMENTUM_EXCHANGE + TRANS_VS_RELATIVE
  then true
  else if (propagation
           =? TRANS_LB_MOMENTUM_EXCHANGE + TRANS_VS_RELATIVE + ROT_LANGEVIN)
          || (propagation
              =? TRANS_LB_MOMENTUM_EXCHANGE + TRANS_VS_RELATIVE + ROT_VS_RELATIVE)
  then true
  else false.

(** The combinations that the predicate lists by name, in source order. *)
Definition listed_combinations : list Z :=
  [ TRANS_LANGEVIN + ROT_LANGEVIN;
    TRANS_VS_RELATIVE + ROT_VS_RELATIVE;
    TRANS_BROWNIAN + ROT_BROWNIAN;
    TRANS_VS_RELATIVE + ROT_LANGEVIN;
    TRANS_LANGEVIN + ROT_VS_RELATIVE;
    TRANS_LB_MOMENTUM_EXCHANGE + TRANS_VS_RELATIVE;
    TRANS_LB_MOMENTUM_EXCHANGE + TRANS_VS_RELATIVE + ROT_LANGEVIN;
    TRANS_LB_MOMENTUM_EXCHANGE + TRANS_VS_RELATIVE + ROT_VS_RELATIVE ].

(** A mask with exactly one of its 32 bits set, read as an [int]
    (bit 31 alone is [INT_MIN]). *)
Definition single_bit (m : Z) : Prop :=
  exists k, 0 <= k < 32 /\ m = wrap_int (2 ^ k).

(** ** Build configuration and integer codes

    The preprocessor symbols that guard parts of the integrator. *)
Class Features := {
  ROTATION : bool;
  NPT : bool;
  STOKESIAN_DYNAMICS : bool;
  VIRTUAL_SITES : bool;
  BOND_CONSTRAINT : bool;
  WALBERLA : bool;
  COLLISION_DETECTION : bool;
  (* <cassert>: assertions are compiled out *)
  NDEBUG : bool
}.

(** The headers that give these macros and the flag [TRANS_LANGEVIN_NPT]
    their values ([integrate.hpp], [thermostat.hpp]; the enumeration of
    [PropagationModes.hpp] does not declare the flag) are not among the
    sources: the values are parameters of the development. *)
Class Codes := {
  INTEG_METHOD_NPT_ISO : Z;
  INTEG_METHOD_NVT : Z;
  INTEG_METHOD_STEEPEST_DESCENT : Z;
  INTEG_METHOD_BD : Z;
  INTEG_METHOD_SD : Z;
  INTEG_ERROR_RUNTIME : Z;
  INTEG_ERROR_SIGINT : Z;
  INTEG_REUSE_FORCES_NEVER : Z;
  INTEG_REUSE_FORCES_CONDITIONALLY : Z;
  INTEG_REUSE_FORCES_ALWAYS : Z;
  THERMO_OFF : Z;
  THERMO_NPT_ISO : Z;
  THERMO_BROWNIAN : Z;
  THERMO_SD : Z;
  TRANS_LANGEVIN_NPT : Z
}.

(** ** State of the integrator *)

Inductive BoxType := CUBOID | LEES_EDWARDS.

(** Per-particle propagation kernels, and kernels that run over a filtered
    particle range. *)
Inductive Kernel :=
| velocity_verlet_propagate_vel_pos_par
| propagate_omega_quat_particle
| brownian_dynamics_propagator
| brownian_dynamics_rotator
| velocity_verlet_propagate_vel_final_par
| convert_torque_propagate_omega.

Inductive RangeKernel :=
| velocity_verlet_npt_step_1
| velocity_verlet_npt_step_2
| stokesian_dynamics_step_1.

(** A call from the integrator into a collaborator. Particles are named by
    their position in the local particle range. *)
Inductive Call :=
| Extern (function : string)
| Propagate (k : Kernel) (particle : nat)
| PropagateRange (k : RangeKernel) (range : list nat)
| AutoUpdate (steps : Z).

Record State := mkState {
  (* file-scope variables of integrate.cpp *)
  integ_switch : Z;
  default_propagation : Z;
  used_propagations : Z;
  time_step : float;
  sim_time : float;
  skin : float;
  skin_set : bool;
  recalc_forces : bool;
  verlet_reuse : float;
  fluid_step : Z;
  ek_step : Z;
  ctrl_C : Z;
  (* state of collaborators that the integrator reads *)
  box_geo_type : BoxType;
  thermo_switch : Z;
  runtime_errors : list string;   (* the runtime-error collector *)
  particles : list Z;             (* p.propagation() of the local particles *)
  (* calls into collaborators so far, oldest first *)
  calls : list Call
}.

Definition set_integ_switch_var v s :=
  mkState v (default_propagation s) (used_propagations s) (time_step s)
    (sim_time s) (skin s) (skin_set s) (recalc_forces s) (verlet_reuse s)
    (fluid_step s) (ek_step s) (ctrl_C s) (box_geo_type s) (thermo_switch s)
    (runtime_errors s) (particles s) (calls s).
Definition set_default_propagation v s :=
  mkState (integ_switch s) v (used_propagations s) (time_step s)
    (sim_time s) (skin s) (skin_set s) (recalc_forces s) (verlet_reuse s)
    (fluid_step s) (ek_step s) (ctrl_C s) (box_geo_type s) (thermo_switch s)
    (runtime_errors s) (particles s) (calls s).
Definition set_used_propagations v s :=
  mkState (integ_switch s) (default_propagation s) v (time_step s)
    (sim_time s) (skin s) (skin_set s) (recalc_forces s) (verlet_reuse s)
    (fluid_step s) (ek_step s) (ctrl_C s) (box_geo_type s) (thermo_switch s)
    (runtime_errors s) (particles s) (calls s).
Definition set_time_step_var v s :=
  mkState (integ_switch s) (default_propagation s) (used_propagations s) v
    (sim_time s) (skin s) (skin_set s) (recalc_forces s) (verlet_reuse s)
    (fluid_step s) (ek_step s) (ctrl_C s) (box_geo_type s) (thermo_switch s)
    (runtime_errors s) (particles s) (calls s).
Definition set_sim_time v s :=
  mkState (integ_switch s) (default_propagation s) (used_propagations s)
    (time_step s) v (skin s) (skin_set s) (recalc_forces s) (verlet_reuse s)
    (fluid_step s) (ek_step s) (ctrl_C s) (box_geo_type s) (thermo_switch s)
    (runtime_errors s) (particles s) (calls s).
Definition set_skin_var v s :=
  mkState (integ_switch s) (default_propagation s) (used_propagations s)
    (time_step s) (sim_time s) v (skin_set s) (recalc_forces s)
    (verlet_reuse s) (fluid_step s) (ek_step s) (ctrl_C s) (box_geo_type s)
    (thermo_switch s) (runtime_errors s) (particles s) (calls s).
Definition set_skin_set v s :=
  mkState (integ_switch s) (default_propagation s) (used_propagations s)
    (time_step s) (sim_time s) (skin s) v (recalc_forces s) (verlet_reuse s)
    (fluid_step s) (ek_step s) (ctrl_C s) (box_geo_type s) (thermo_switch s)
    (runtime_errors s) (particles s) (calls s).
Definition set_recalc_forces v s :=
  mkState (integ_switch s) (default_propagation s) (used_propagations s)
    (time_step s) (sim_time s) (skin s) (skin_set s) v (verlet_reuse s)
    (fluid_step s) (ek_step s) (ctrl_C s) (box_geo_type s) (thermo_switch s)
    (runtime_errors s) (particles s) (calls s).
Definition set_verlet_reuse v s :=
  mkState (integ_switch s) (default_propagation s) (used_propagations s)
    (time_step s) (sim_time s) (skin s) (skin_set s) (recalc_forces s) v
    (fluid_step s) (ek_step s) (ctrl_C s) (box_geo_type s) (thermo_switch s)
    (runtime_errors s) (particles s) (calls s).
Definition set_fluid_step v s :=
  mkState (integ_switch s) (default_propagation s) (used_propagations s)
    (time_step s) (sim_time s) (skin s) (skin_set s) (recalc_forces s)
    (verlet_reuse s) v (ek_step s) (ctrl_C s) (box_geo_type s)
    (thermo_switch s) (runtime_errors s) (particles s) (calls s).
Definition set_ek_step v s :=
  mkState (integ_switch s) (default_propagation s) (used_propagations s)
    (time_step s) (sim_time s) (skin s) (skin_set s) (recalc_forces s)
    (verlet_reuse s) (fluid_step s) v (ctrl_C s) (box_geo_type s)
    (thermo_switch s) (runtime_errors s) (particles s) (calls s).
Definition set_ctrl_C v s :=
  mkState (integ_switch s) (default_propagation s) (used_propagations s)
    (time_step s) (sim_time s) (skin s) (skin_set s) (recalc_forces s)
    (verlet_reuse s) (fluid_step s) (ek_step s) v (box_geo_type s)
    (thermo_switch s) (runtime_errors s) (particles s) (calls s).
Definition set_box_geo_type v s :=
  mkState (integ_switch s) (default_propagation s) (used_propagations s)
    (time_step s) (sim_time s) (skin s) (skin_set s) (recalc_forces s)
    (verlet_reuse s) (fluid_step s) (ek_step s) (ctrl_C s) v
    (thermo_switch s) (runtime_errors s) (particles s) (calls s).
Definition set_runtime_errors v s :=
  mkState (integ_switch s) (default_propagation s) (used_propagations s)
    (time_step s) (sim_time s) (skin s) (skin_set s) (recalc_forces s)
    (verlet_reuse s) (fluid_step s) (ek_step s) (ctrl_C s) (box_geo_type s)
    (thermo_switch s) v (particles s) (calls s).
Definition set_calls v s :=
  mkState (integ_switch s) (default_propagation s) (used_propagations s)
    (time_step s) (sim_time s) (skin s) (skin_set s) (recalc_forces s)
    (verlet_reuse s) (fluid_step s) (ek_step s) (ctrl_C s) (box_geo_type s)
    (thermo_switch s) (runtime_errors s) (particles s) v.

(** Logging calls, and [runtimeErrorMsg() << msg]. *)
Definition log (cs : list Call) (s : State) : State :=
  set_calls (calls s ++ cs) s.
Definition call (function : string) (s : State) : State :=
  log [Extern function] s.
Definition runtimeErrorMsg (msg : string) (s : State) : State :=
  set_runtime_errors (runtime_errors s ++ [msg]) s.

(** [if (b) f();] as a step on the state. *)
Definition when (b : bool) (f : State -> State) (s : State) : State :=
  if b then f s else s.

(** [check_runtime_errors(comm_cart)]: whether the collector holds an error. *)
Definition check_runtime_errors (s : State) : bool :=
  match runtime_errors s with [] => false | _ :: _ => true end.

(** C++ exceptions, and the outcome of a function that can throw: the state
    is the one reached when the function returns or throws. *)
Inductive exception :=
| domain_error (what : string)
| runtime_error (what : string).

Inductive result (A : Type) :=
| Return (a : A) (s : State)
| Throw (e : exception) (s : State).
Arguments Return {A} a s.
Arguments Throw {A} e s.

Definition state_of {A} (r : result A) : State :=
  match r with Return _ s => s | Throw _ s => s end.

(** ** Answers of the collaborators

    What the code outside these sources answers during one call of an entry
    point of the integrator. Iterations of the integration loop are
    numbered from 0 within the call. *)
Record Env := {
  comm_cart_size : Z;
  (* LB::get_lattice_switch() != ActiveLB::NONE *)
  LB_active : bool;
  LB_get_tau : float;
  (* what LB::check_tau_time_step_consistency(tau, time_step) throws *)
  LB_check_tau_time_step_consistency : float -> float -> option exception;
  LB_get_steps_per_md_step : float -> Z;
  EK_container_empty : bool;
  EK_get_steps_per_md_step : float -> Z;
  n_rigidbonds : Z;
  (* errors that the checks of the other algorithms report at the start *)
  start_errors : list string;
  (* errors reported during the initial force calculation *)
  initial_force_errors : list string;
  (* errors that collaborators report during an iteration *)
  step_errors : nat -> list string;
  (* the SIGINT handler runs during an iteration *)
  sigint_during : nat -> bool;
  (* what steepest_descent_step returns in an iteration *)
  steepest_descent_step : nat -> bool;
  (* cell_structure.check_resort_required(particles, skin, offset) *)
  check_resort_required : nat -> bool;
  (* cell_structure.get_resort_particles() >= Cells::RESORT_LOCAL *)
  resort_particles : nat -> bool
}.

(** What the rest of the process answers to [integrate_with_signal_handler]:
    chunk [j] is the [j]-th call of [integrate] that it makes. *)
Record World := {
  comm_cart_rank : Z;
  maximal_cutoff : float;
  (* *boost::min_element(cell_structure.max_cutoff()) *)
  min_max_cutoff : float;
  auto_update_next_update : nat -> Z;
  chunk_env : nat -> Env
}.

(** One call of [integrate] made by [integrate_with_signal_handler]. *)
Record Chunk := {
  chunk_steps : Z;
  chunk_reuse_forces : Z;
  chunk_retval : Z
}.

(** ** integrate.cpp *)

Section Integrator.
Context {features : Features} {codes : Codes}.

(** *** Lees-Edwards coordinator

    The protocol object itself belongs to the box geometry; of the
    coordinator the integrator state keeps the box type. [set_protocol] and
    [unset_protocol] keep a protocol set exactly while the box type is
    [LEES_EDWARDS], as long as a caller hands [set_protocol] one: that is
    what [assert(protocol != nullptr)] of [update_box_params] tests. *)

Definition LeesEdwards_update_box_params (s : State) : State :=
  match box_geo_type s with
  | LEES_EDWARDS => call "box_geo.lees_edwards_update" s
  | CUBOID => s
  end.

Definition LeesEdwards_set_protocol (s : State) : State :=
  let s := set_box_geo_type LEES_EDWARDS s in
  let s := LeesEdwards_update_box_params s in
  let s := set_recalc_forces true s in
  call "cell_structure.set_resort_particles" s.

Definition LeesEdwards_unset_protocol (s : State) : State :=
  let s := set_box_geo_type CUBOID s in
  let s := set_recalc_forces true s in
  call "cell_structure.set_resort_particles" s.

(** [run_kernel<Kernel>()] applies the kernel to every local particle. *)
Definition LeesEdwards_run_kernel (kernel : string) (s : State) : State :=
  match box_geo_type s with
  | LEES_EDWARDS => call kernel s
  | CUBOID => s
  end.

(** *** Propagations in use, sanity checks *)

Definition get_used_propagations (s : State) : State :=
  let s := set_used_propagations 0 s in
  let s :=
    fold_left (fun s p => set_used_propagations (Z.lor (used_propagations s) p) s)
      (particles s) s in
  if nonzero (Z.land (used_propagations s) TRANS_SYSTEM_DEFAULT)
  then set_used_propagations
         (Z.lor (used_propagations s) (default_propagation s)) s
  else s.

Definition propagation_sanity_checks (s : State) : State :=
  if nonzero (Z.land (used_propagations s) TRANS_LANGEVIN_NPT) then
    if nonzero (Z.land (used_propagations s)
                  (TRANS_BROWNIAN + TRANS_LANGEVIN + TRANS_STOKESIAN))
    then runtimeErrorMsg
           " Langevin NPT translation is incompatible with other translation modes"
           s
    else s
  else s.

Definition integrator_sanity_checks (s : State) : State :=
  let s := if (time_step s <? 0)%float
           then runtimeErrorMsg "time_step not set" s else s in
  if integ_switch s =? INTEG_METHOD_STEEPEST_DESCENT then
    if negb (thermo_switch s =? THERMO_OFF)
    then runtimeErrorMsg
           "The steepest descent integrator is incompatible with thermostats" s
    else s
  else if integ_switch s =? INTEG_METHOD_NVT then
    if nonzero (Z.land (thermo_switch s)
                  (Z.lor (Z.lor THERMO_NPT_ISO THERMO_BROWNIAN) THERMO_SD))
    then runtimeErrorMsg
           "The VV integrator is incompatible with the currently active combination of thermostats"
           s
    else s
  else if NPT && (integ_switch s =? INTEG_METHOD_NPT_ISO) then
    let s := if negb (thermo_switch s =? THERMO_OFF)
                && negb (thermo_switch s =? THERMO_NPT_ISO)
             then runtimeErrorMsg
                    "The NpT integrator requires the NpT thermostat" s
             else s in
    match box_geo_type s with
    | LEES_EDWARDS =>
        runtimeErrorMsg "The NpT integrator cannot use Lees-Edwards" s
    | CUBOID => s
    end
  else if integ_switch s =? INTEG_METHOD_BD then
    if negb (thermo_switch s =? THERMO_BROWNIAN)
    then runtimeErrorMsg "The BD integrator requires the BD thermostat" s
    else s
  else if STOKESIAN_DYNAMICS && (integ_switch s =? INTEG_METHOD_SD) then
    if negb (thermo_switch s =? THERMO_OFF)
       && negb (thermo_switch s =? THERMO_SD)
    then runtimeErrorMsg "The SD integrator requires the SD thermostat" s
    else s
  else runtimeErrorMsg "Unknown value for integ_switch" s.

(** Modelled from the spec: [on_integration_start] is defined outside
    these sources ([integrate] calls it first, to "run sanity checks of
    all active algorithms"). The specification has the integrator's
    sanity checks run once per integration call and report, not throw;
    the checks of the other algorithms report [start_errors]. *)
Definition on_integration_start (env : Env) (s : State) : State :=
  let s := call "on_integration_start" s in
  let s := integrator_sanity_checks s in
  set_runtime_errors (runtime_errors s ++ start_errors env) s.

Definition resort_particles_if_needed (env : Env) (step : nat) (s : State)
  : State :=
  when (check_resort_required env step)
    (call "cell_structure.set_resort_particles") s.

(** *** Dispatch of the propagators *)

Definition should_propagate_with (default_propagation propagation mode : Z)
  : bool :=
  nonzero (Z.land propagation mode)
  || (nonzero (Z.land default_propagation mode)
      && nonzero (Z.land propagation TRANS_SYSTEM_DEFAULT)).

Definition increment_sim_time (amount : float) (s : State) : State :=
  set_sim_time (sim_time s + amount)%float s.

(** The local particles with their positions in the range. *)
Definition local_particles (s : State) : list (nat * Z) :=
  combine (seq 0 (List.length (particles s))) (particles s).

(** [particles.filter<criterion>()] *)
Definition filter_range (criterion : Z) (s : State) : list nat :=
  map fst
    (filter (fun p => nonzero (Z.land (snd p) criterion)) (local_particles s)).

(** Body of the loop over the particles in [integrator_step_1]. *)
Definition step_1_particle (default_propagation per_particle_integration : Z)
  (p : nat * Z) : list Call :=
  let '(id, propagation) := p in
  if nonzero (Z.land propagation per_particle_integration) then
    (if should_propagate_with default_propagation propagation TRANS_LANGEVIN
     then [Propagate velocity_verlet_propagate_vel_pos_par id] else [])
    ++ (if should_propagate_with default_propagation propagation ROT_LANGEVIN
        then [Propagate propagate_omega_quat_particle id] else [])
    ++ (if should_propagate_with default_propagation propagation TRANS_BROWNIAN
        then [Propagate brownian_dynamics_propagator id] else [])
    ++ (if should_propagate_with default_propagation propagation ROT_BROWNIAN
        then [Propagate brownian_dynamics_rotator id] else [])
  else [].

(** Calls the hook for propagation kernels before the force calculation;
    returns whether or not to stop the integration loop early. *)
Definition integrator_step_1 (env : Env) (step : nat) (s : State)
  : bool * State :=
  (* steepest decent *)
  if integ_switch s =? INTEG_METHOD_STEEPEST_DESCENT then
    (steepest_descent_step env step, call "steepest_descent_step" s)
  else
    let per_particle_integration :=
      TRANS_LANGEVIN + ROT_LANGEVIN + TRANS_BROWNIAN + ROT_BROWNIAN in
    let does_default_contain_splittable :=
      nonzero (Z.land per_particle_integration (default_propagation s)) in
    let per_particle_integration :=
      if does_default_contain_splittable
      then per_particle_integration + TRANS_SYSTEM_DEFAULT
      else per_particle_integration in
    let s :=
      log (flat_map
             (step_1_particle (default_propagation s) per_particle_integration)
             (local_particles s)) s in
    let s :=
      when (NPT && nonzero (Z.land (default_propagation s) TRANS_LANGEVIN_NPT))
        (log [PropagateRange velocity_verlet_npt_step_1
                (filter_range (TRANS_SYSTEM_DEFAULT + TRANS_LANGEVIN_NPT) s)])
        s in
    let s :=
      when (STOKESIAN_DYNAMICS
            && nonzero (Z.land (default_propagation s) TRANS_STOKESIAN))
        (log [PropagateRange stokesian_dynamics_step_1
                (filter_range (TRANS_STOKESIAN + TRANS_SYSTEM_DEFAULT) s)])
        s in
    let s := increment_sim_time (time_step s) s in
    (false, s).

(** Body of the loop over the particles in [integrator_step_2]. *)
Definition step_2_particle (default_propagation per_particle_integration : Z)
  (p : nat * Z) : list Call :=
  let '(id, propagation) := p in
  if nonzero (Z.land propagation per_particle_integration) then
    (if should_propagate_with default_propagation propagation TRANS_LANGEVIN
     then [Propagate velocity_verlet_propagate_vel_final_par id] else [])
    ++ (if should_propagate_with default_propagation propagation ROT_LANGEVIN
        then [Propagate convert_torque_propagate_omega id] else [])
  else [].

Definition integrator_step_2 (s : State) : State :=
  if integ_switch s =? INTEG_METHOD_STEEPEST_DESCENT then s
  else
    let per_particle_integration := TRANS_LANGEVIN + ROT_LANGEVIN in
    let does_default_contain_splittable :=
      nonzero (Z.land per_particle_integration (default_propagation s)) in
    let per_particle_integration :=
      if does_default_contain_splittable
      then per_particle_integration + TRANS_SYSTEM_DEFAULT
      else per_particle_integration in
    let s :=
      log (flat_map
             (step_2_particle (default_propagation s) per_particle_integration)
             (local_particles s)) s in
    when (NPT && nonzero (Z.land (default_propagation s) TRANS_LANGEVIN_NPT))
      (log [PropagateRange velocity_verlet_npt_step_2
              (filter_range (TRANS_SYSTEM_DEFAULT + TRANS_LANGEVIN_NPT) s)])
      s.

(** *** The integration loop *)

(** [force_calc]: the errors that the force kernels report go to the
    collector. *)
Definition force_calc (errors : list string) (s : State) : State :=
  let s := call "force_calc" s in
  set_runtime_errors (runtime_errors s ++ errors) s.

(** The block "Additional preparations for the first integration step". *)
Definition initial_force_calculation (env : Env) (s : State) : State :=
  let s := call "lb_lbcoupling_deactivate" s in
  let s := when VIRTUAL_SITES (call "virtual_sites()->update") s in
  (* Communication step: distribute ghost positions *)
  let s := call "cells_update_ghosts" s in
  let s := force_calc (initial_force_errors env) s in
  when (negb (integ_switch s =? INTEG_METHOD_STEEPEST_DESCENT) && ROTATION)
    (call "convert_initial_torques") s.

(** [assert(expr)] of [<cassert>]. With [NDEBUG] it expands to nothing.
    Without it a false [expr] calls [__assert_fail], which ends the process:
    the call is logged, and what the model computes after it is the
    continuation of a build with [NDEBUG], which a build with assertions
    does not reach. A run of a build with assertions is the run of the model
    up to the first such call. *)
Definition assert (expr : bool) (s : State) : State :=
  when (negb NDEBUG && negb expr) (call "__assert_fail") s.

(** The block "propagate one-step functionalities" of the loop body. *)
Definition propagate_one_step_functionalities (env : Env) (s : State)
  : State :=
  let lb_active := LB_active env in
  let ek_active := WALBERLA && negb (EK_container_empty env) in
  let s :=
    if lb_active && ek_active then
      (* assume that they are coupled, which is not necessarily true *)
      let lb_steps_per_md_step := LB_get_steps_per_md_step env (time_step s) in
      let ek_steps_per_md_step := EK_get_steps_per_md_step env (time_step s) in
      let s :=
        when (negb (lb_steps_per_md_step =? ek_steps_per_md_step))
          (runtimeErrorMsg
             "LB and EK are active but with different time steps.") s in
      (* only use fluid_step in this case *)
      let s := assert (fluid_step s =? ek_step s) s in
      let s := set_fluid_step (fluid_step s + 1) s in
      let s :=
        when (fluid_step s >=? lb_steps_per_md_step)
          (fun s =>
             call "EK::propagate" (call "LB::propagate" (set_fluid_step 0 s)))
          s in
      call "lb_lbcoupling_propagate" s
    else if lb_active then
      let lb_steps_per_md_step := LB_get_steps_per_md_step env (time_step s) in
      let s := set_fluid_step (fluid_step s + 1) s in
      let s :=
        when (fluid_step s >=? lb_steps_per_md_step)
          (fun s => call "LB::propagate" (set_fluid_step 0 s)) s in
      call "lb_lbcoupling_propagate" s
    else if ek_active then
      let ek_steps_per_md_step := EK_get_steps_per_md_step env (time_step s) in
      let s := set_ek_step (ek_step s + 1) s in
      when (ek_step s >=? ek_steps_per_md_step)
        (fun s => call "EK::propagate" (set_ek_step 0 s)) s
    else s in
  let s := when VIRTUAL_SITES (call "virtual_sites()->after_lb_propagation") s in
  let s := when COLLISION_DETECTION (call "handle_collisions") s in
  call "BondBreakage::process_queue" s.

(** The local variables of [integrate] that the loop updates. *)
Record LoopVars := {
  n_verlet_updates : Z;
  integrated_steps : Z;
  caught_sigint : bool;
  caught_error : bool
}.

Inductive LoopExit := Continue | Break.

(** One iteration of the integration loop. The signal handler can run at
    any point of the iteration; [ctrl_C] is read at its end only, so the
    handler is run first. *)
Definition integration_loop_body (env : Env) (step : nat) (l : LoopVars)
  (s : State) : LoopExit * LoopVars * State :=
  let s := when (sigint_during env step) (set_ctrl_C 1) s in
  let rigid := BOND_CONSTRAINT && nonzero (n_rigidbonds env) in
  let s := when rigid (call "save_old_position") s in
  let s := LeesEdwards_update_box_params s in
  let '(early_exit, s) := integrator_step_1 env step s in
  if early_exit then (Break, l, s)
  else
    let s := LeesEdwards_run_kernel "LeesEdwards::Push" s in
    let s := when (negb (NPT && (integ_switch s =? INTEG_METHOD_NPT_ISO)))
               (resort_particles_if_needed env step) s in
    (* Propagate philox RNG counters *)
    let s := call "philox_counter_increment" s in
    (* Correct particle positions that participate in a rigid/constrained
       bond *)
    let s := when rigid (call "correct_position_shake") s in
    let s := when VIRTUAL_SITES (call "virtual_sites()->update") s in
    let l := if resort_particles env step
             then Build_LoopVars (n_verlet_updates l + 1) (integrated_steps l)
                    (caught_sigint l) (caught_error l)
             else l in
    (* Communication step: distribute ghost positions *)
    let s := call "cells_update_ghosts" s in
    let s := force_calc (step_errors env step) s in
    let s := when VIRTUAL_SITES (call "virtual_sites()->after_force_calc") s in
    let s := integrator_step_2 s in
    let s := LeesEdwards_run_kernel "LeesEdwards::UpdateOffset" s in
    (* SHAKE velocity updates *)
    let s := when rigid (call "correct_velocity_shake") s in
    (* propagate one-step functionalities *)
    let s := when (negb (integ_switch s =? INTEG_METHOD_STEEPEST_DESCENT))
               (propagate_one_step_functionalities env) s in
    let l := Build_LoopVars (n_verlet_updates l) (integrated_steps l + 1)
               (caught_sigint l) (caught_error l) in
    if check_runtime_errors s then
      (Break,
       Build_LoopVars (n_verlet_updates l) (integrated_steps l)
         (caught_sigint l) true,
       s)
    else
      (* Check if SIGINT has been caught. *)
      let singleton_mode := comm_cart_size env =? 1 in
      if singleton_mode && (ctrl_C s =? 1) then
        (Break,
         Build_LoopVars (n_verlet_updates l) (integrated_steps l)
           true (caught_error l),
         s)
      else (Continue, l, s).

(** [for (int step = 0; step < n_steps; step++)], by the number of
    iterations that remain. *)
Fixpoint integration_loop (env : Env) (remaining step : nat) (l : LoopVars)
  (s : State) : LoopVars * State :=
  match remaining with
  | O => (l, s)
  | S remaining' =>
      match integration_loop_body env step l s with
      | (Break, l, s) => (l, s)
      | (Continue, l, s) => integration_loop env remaining' (S step) l s
      end
  end.

(** [static_cast<double>] of an [int]. *)
Definition double_of_int (z : Z) : float :=
  if z <? 0 then (- PrimFloat.of_uint63 (Uint63.of_Z (- z)))%float
  else PrimFloat.of_uint63 (Uint63.of_Z z).

Definition integrate (env : Env) (n_steps reuse_forces : Z) (s : State)
  : Z * State :=
  (* Prepare particle structure and run sanity checks of all active
     algorithms *)
  let s := on_integration_start env s in
  let s := get_used_propagations s in
  let s := propagation_sanity_checks s in
  (* If any method vetoes (e.g. P3M not initialized), immediately bail out *)
  if check_runtime_errors s then (INTEG_ERROR_RUNTIME, s)
  else
    (* Additional preparations for the first integration step *)
    let s :=
      when ((reuse_forces =? INTEG_REUSE_FORCES_NEVER)
            || (recalc_forces s
                && negb (reuse_forces =? INTEG_REUSE_FORCES_ALWAYS)))
        (initial_force_calculation env) s in
    let s := call "lb_lbcoupling_activate" s in
    if check_runtime_errors s then (INTEG_ERROR_RUNTIME, s)
    else
      (* Integration loop *)
      let '(l, s) :=
        integration_loop env (Z.to_nat n_steps) 0
          (Build_LoopVars 0 0 false false) s in
      let s := LeesEdwards_update_box_params s in
      let s := when VIRTUAL_SITES (call "virtual_sites()->update") s in
      (* Verlet list statistics *)
      let s :=
        set_verlet_reuse
          (if n_verlet_updates l >? 0
           then (double_of_int n_steps / double_of_int (n_verlet_updates l))%float
           else 0%float) s in
      let s := when (NPT && (integ_switch s =? INTEG_METHOD_NPT_ISO))
                 (call "synchronize_npt_state") s in
      if caught_sigint l then (INTEG_ERROR_SIGINT, set_ctrl_C 0 s)
      else if caught_error l then (INTEG_ERROR_RUNTIME, s)
      else (integrated_steps l, s).

(** *** Setters *)

Definition set_skin (value : float) (s : State) : State :=
  let s := set_skin_var value s in
  let s := set_skin_set true s in
  call "on_skin_change" s.

Definition set_time (value : float) (s : State) : State :=
  let s := set_sim_time value s in
  let s := set_recalc_forces true s in
  LeesEdwards_update_box_params s.

Definition set_time_step (env : Env) (value : float) (s : State)
  : result unit :=
  if (value <=? 0)%float
  then Throw (domain_error "time_step must be > 0.") s
  else
    match (if LB_active env
           then LB_check_tau_time_step_consistency env (LB_get_tau env) value
           else None) with
    | Some e => Throw e s
    | None =>
        let s := set_time_step_var value s in
        Return tt (call "on_timestep_change" s)
    end.

(** The statements of [case INTEG_METHOD_NVT:] up to its [break]. *)
Definition default_propagation_case_NVT (s : State) : State :=
  let s := set_default_propagation TRANS_LANGEVIN s in
  if ROTATION
  then set_default_propagation (default_propagation s + ROT_LANGEVIN) s
  else s.

Definition default_propagation_from_integ (s : State) : result unit :=
  if integ_switch s =? INTEG_METHOD_STEEPEST_DESCENT then
    let s := set_default_propagation 0 s in (* should not be used *)
    (* no break: control falls through into the next case *)
    Return tt (default_propagation_case_NVT s)
  else if integ_switch s =? INTEG_METHOD_NVT then
    Return tt (default_propagation_case_NVT s)
  else if NPT && (integ_switch s =? INTEG_METHOD_NPT_ISO) then
    let s := set_default_propagation TRANS_LANGEVIN_NPT s in
    Return tt
      (if ROTATION
       then set_default_propagation (default_propagation s + ROT_LANGEVIN) s
       else s)
  else if integ_switch s =? INTEG_METHOD_BD then
    let s := set_default_propagation TRANS_BROWNIAN s in
    Return tt
      (if ROTATION
       then set_default_propagation (default_propagation s + ROT_BROWNIAN) s
       else s)
  else if STOKESIAN_DYNAMICS && (integ_switch s =? INTEG_METHOD_SD) then
    Return tt (set_default_propagation TRANS_STOKESIAN s)
  else Throw (runtime_error "Unknown value for integ_switch") s.

Definition set_integ_switch (value : Z) (s : State) : result unit :=
  let s := set_integ_switch_var value s in
  let s := set_recalc_forces true s in
  default_propagation_from_integ s.

(** *** Integration between accumulator updates *)

(** [std::min] on [double]. *)
Definition std_min (a b : float) : float := if (b <? a)%float then b else a.

(** The loop [for (int i = 0; i < n_steps;)] of
    [integrate_with_signal_handler]. The number of steps of a chunk comes
    from the accumulators, so the loop is run on fuel; [None] is a run
    that needs more. The chunks are returned beside the result. *)
Fixpoint accumulator_loop (w : World) (fuel chunk : nat)
  (i n_steps reuse_forces : Z) (s : State)
  : option (Z * list Chunk * State) :=
  if i <? n_steps then
    match fuel with
    | O => None
    | S fuel' =>
        (* Integrate to either the next accumulator update, or the end,
           depending on what comes first. *)
        let steps := Z.min (n_steps - i) (auto_update_next_update w chunk) in
        let '(retval, s) := integrate (chunk_env w chunk) steps reuse_forces s in
        let this := Build_Chunk steps reuse_forces retval in
        if retval <? 0 then Some (retval, [this], s) (* propagate error code *)
        else
          let reuse_forces := INTEG_REUSE_FORCES_ALWAYS in
          let s := log [AutoUpdate steps] s in
          match accumulator_loop w fuel' (S chunk) (i + steps) n_steps
                  reuse_forces s with
          | Some (r, chunks, s) => Some (r, this :: chunks, s)
          | None => None
          end
    end
  else Some (0, [], s).

(** The signal handler that the function installs sets [ctrl_C] to 1 when
    SIGINT arrives; when it runs is part of each chunk's [Env].
    [assert(n_steps >= 0)] is the obligation of the caller. *)
Definition integrate_with_signal_handler (w : World) (fuel : nat)
  (n_steps reuse_forces : Z) (update_accumulators : bool) (s : State)
  : option (result (Z * list Chunk)) :=
  if negb update_accumulators || (n_steps =? 0) then
    let '(retval, s) := integrate (chunk_env w 0) n_steps reuse_forces s in
    Some (Return (retval, [Build_Chunk n_steps reuse_forces retval]) s)
  else
    let is_head_node := comm_cart_rank w =? 0 in
    (* if skin wasn't set, do an educated guess now *)
    let skin_guess :=
      if negb (skin_set s) then
        let max_cut := maximal_cutoff w in
        if (max_cut <=? 0)%float then
          if is_head_node
          then inr (Throw
                      (runtime_error
                         "cannot automatically determine skin, please set it manually")
                      s)
          else inr (Return (INTEG_ERROR_RUNTIME, []) s)
        else
          (* maximal skin that can be used without resorting is the maximal
             range of the cell system minus what is needed for
             interactions. *)
          let max_range := min_max_cutoff w in
          let new_skin :=
            std_min (0.4 * max_cut)%float (max_range - max_cut)%float in
          inl (set_skin new_skin s)
      else inl s in
    match skin_guess with
    | inr r => Some r
    | inl s =>
        (* re-acquire MpiCallbacks listener on worker nodes *)
        if negb is_head_node then Some (Return (0, []) s)
        else
          match accumulator_loop w fuel 0 0 n_steps reuse_forces s with
          | Some (r, chunks, s) => Some (Return (r, chunks) s)
          | None => None
          end
    end.

End Integrator.

(** ** The dispatch rule of the specification *)

(** Family [F] applies to a particle with mask [mask]. *)
Definition applies (default_propagation mask F : Z) : Prop :=
  Z.land mask F <> 0
  \/ (Z.land default_propagation F <> 0
      /\ Z.land mask TRANS_SYSTEM_DEFAULT <> 0).

(** The families that the loops over the particles dispatch, with the
    kernel of each, in phase 1 and in phase 2. *)
Definition step_1_kernels : list (Z * Kernel) :=
  [ (TRANS_LANGEVIN, velocity_verlet_propagate_vel_pos_par);
    (ROT_LANGEVIN, propagate_omega_quat_particle);
    (TRANS_BROWNIAN, brownian_dynamics_propagator);
    (ROT_BROWNIAN, brownian_dynamics_rotator) ].

Definition step_2_kernels : list (Z * Kernel) :=
  [ (TRANS_LANGEVIN, velocity_verlet_propagate_vel_final_par);
    (ROT_LANGEVIN, convert_torque_propagate_omega) ].

(** A range kernel runs on a particle. *)
Definition runs_on (k : RangeKernel) (particle : nat) (cs : list Call) : Prop :=
  exists range, In (PropagateRange k range) cs /\ In particle range.

(** The integrator state at process start. *)
Definition initial_state {codes : Codes} : State :=
  mkState INTEG_METHOD_NVT 0 0 (-1)%float 0%float 0%float false true 0%float
    0 0 0 CUBOID THERMO_OFF [] [] [].

(** Number of calls of an external function in a log. *)
Definition count_calls (function : string) (cs : list Call) : nat :=
  List.length
    (filter (fun c => match c with
                      | Extern f => String.eqb f function
                      | _ => false
                      end) cs).

(** ** The variables that a call of [integrate] writes

    A call of [integrate] leaves the configuration (integrator switch,
    default propagation, time step, skin, box type, thermostat, particles)
    as it is; what it writes is collected in a [Dyn]. The functions below
    restate the steps of the loop body on that part of the state; the
    lemmas that follow prove them equal to the code. *)
Record Dyn := mkDyn {
  d_used : Z;
  d_sim_time : float;
  d_verlet : float;
  d_fluid_step : Z;
  d_ek_step : Z;
  d_ctrl_C : Z;
  d_errors : list string;
  d_calls : list Call
}.

Definition with_dyn (d : Dyn) (s : State) : State :=
  mkState (integ_switch s) (default_propagation s) (d_used d) (time_step s)
    (d_sim_time d) (skin s) (skin_set s) (recalc_forces s) (d_verlet d)
    (d_fluid_step d) (d_ek_step d) (d_ctrl_C d) (box_geo_type s)
    (thermo_switch s) (d_errors d) (particles s) (d_calls d).

Definition dyn_of (s : State) : Dyn :=
  mkDyn (used_propagations s) (sim_time s) (verlet_reuse s) (fluid_step s)
    (ek_step s) (ctrl_C s) (runtime_errors s) (calls s).

Definition dyn_log (cs : list Call) (d : Dyn) : Dyn :=
  mkDyn (d_used d) (d_sim_time d) (d_verlet d) (d_fluid_step d) (d_ek_step d)
    (d_ctrl_C d) (d_errors d) (d_calls d ++ cs).
Definition dyn_err (errors : list string) (d : Dyn) : Dyn :=
  mkDyn (d_used d) (d_sim_time d) (d_verlet d) (d_fluid_step d) (d_ek_step d)
    (d_ctrl_C d) (d_errors d ++ errors) (d_calls d).
Definition dyn_time (t : float) (d : Dyn) : Dyn :=
  mkDyn (d_used d) t (d_verlet d) (d_fluid_step d) (d_ek_step d)
    (d_ctrl_C d) (d_errors d) (d_calls d).
Definition dyn_ctrl (c : Z) (d : Dyn) : Dyn :=
  mkDyn (d_used d) (d_sim_time d) (d_verlet d) (d_fluid_step d) (d_ek_step d)
    c (d_errors d) (d_calls d).
Definition dyn_fluid (c : Z) (d : Dyn) : Dyn :=
  mkDyn (d_used d) (d_sim_time d) (d_verlet d) c (d_ek_step d)
    (d_ctrl_C d) (d_errors d) (d_calls d).
Definition dyn_ek (c : Z) (d : Dyn) : Dyn :=
  mkDyn (d_used d) (d_sim_time d) (d_verlet d) (d_fluid_step d) c
    (d_ctrl_C d) (d_errors d) (d_calls d).

(** [[x]] when [b] holds. *)
Definition opt {A} (b : bool) (x : A) : list A := if b then [x] else [].

Section Effects.
Context {features : Features} {codes : Codes}.

(** [per_particle_integration] as the loops over the particles test it. *)
Definition splittable (base default_propagation : Z) : Z :=
  if nonzero (Z.land base default_propagation)
  then base + TRANS_SYSTEM_DEFAULT
  else base.

Definition npt_range (s : State) : list nat :=
  filter_range (TRANS_SYSTEM_DEFAULT + TRANS_LANGEVIN_NPT) s.

(** The kernels that [integrator_step_1] runs outside steepest descent. *)
Definition step_1_calls (s : State) : list Call :=
  flat_map
    (step_1_particle (default_propagation s)
       (splittable
          (TRANS_LANGEVIN + ROT_LANGEVIN + TRANS_BROWNIAN + ROT_BROWNIAN)
          (default_propagation s)))
    (local_particles s)
  ++ opt (NPT && nonzero (Z.land (default_propagation s) TRANS_LANGEVIN_NPT))
       (PropagateRange velocity_verlet_npt_step_1 (npt_range s))
  ++ opt (STOKESIAN_DYNAMICS
          && nonzero (Z.land (default_propagation s) TRANS_STOKESIAN))
       (PropagateRange stokesian_dynamics_step_1
          (filter_range (TRANS_STOKESIAN + TRANS_SYSTEM_DEFAULT) s)).

(** The kernels that [integrator_step_2] runs outside steepest descent. *)
Definition step_2_calls (s : State) : list Call :=
  flat_map
    (step_2_particle (default_propagation s)
       (splittable (TRANS_LANGEVIN + ROT_LANGEVIN) (default_propagation s)))
    (local_particles s)
  ++ opt (NPT && nonzero (Z.land (default_propagation s) TRANS_LANGEVIN_NPT))
       (PropagateRange velocity_verlet_npt_step_2 (npt_range s)).

(** A step counter of a coupled solver: its next value, and whether the
    solver propagates. *)
Definition counter_fires (counter steps_per_md_step : Z) : bool :=
  counter + 1 >=? steps_per_md_step.
Definition counter_next (counter steps_per_md_step : Z) : Z :=
  if counter_fires counter steps_per_md_step then 0 else counter + 1.

Definition one_step_dyn (env : Env) (s : State) (d : Dyn) : Dyn :=
  let lb_active := LB_active env in
  let ek_active := WALBERLA && negb (EK_container_empty env) in
  let lb_steps := LB_get_steps_per_md_step env (time_step s) in
  let ek_steps := EK_get_steps_per_md_step env (time_step s) in
  let d :=
    if lb_active && ek_active then
      dyn_log
        (opt (negb NDEBUG && negb (d_fluid_step d =? d_ek_step d))
           (Extern "__assert_fail")
         ++ opt (counter_fires (d_fluid_step d) lb_steps) (Extern "LB::propagate")
         ++ opt (counter_fires (d_fluid_step d) lb_steps) (Extern "EK::propagate")
         ++ [Extern "lb_lbcoupling_propagate"])
        (dyn_fluid (counter_next (d_fluid_step d) lb_steps)
           (dyn_err
              (opt (negb (lb_steps =? ek_steps))
                 "LB and EK are active but with different time steps."%string)
              d))
    else if lb_active then
      dyn_log
        (opt (counter_fires (d_fluid_step d) lb_steps) (Extern "LB::propagate")
         ++ [Extern "lb_lbcoupling_propagate"])
        (dyn_fluid (counter_next (d_fluid_step d) lb_steps) d)
    else if ek_active then
      dyn_log
        (opt (counter_fires (d_ek_step d) ek_steps) (Extern "EK::propagate"))
        (dyn_ek (counter_next (d_ek_step d) ek_steps) d)
    else d in
  dyn_log
    (opt VIRTUAL_SITES (Extern "virtual_sites()->after_lb_propagation")
     ++ opt COLLISION_DETECTION (Extern "handle_collisions")
     ++ [Extern "BondBreakage::process_queue"]) d.

Definition steepest_descent (s : State) : bool :=
  integ_switch s =? INTEG_METHOD_STEEPEST_DESCENT.

(** One iteration of the loop up to the end of [integrator_step_1]. *)
Definition body_dyn_1 (env : Env) (step : nat) (s : State) (d : Dyn) : Dyn :=
  let rigid := BOND_CONSTRAINT && nonzero (n_rigidbonds env) in
  let d := dyn_ctrl (if sigint_during env step then 1 else d_ctrl_C d) d in
  let d := dyn_log (opt rigid (Extern "save_old_position")) d in
  let d := dyn_log
             match box_geo_type s with
             | LEES_EDWARDS => [Extern "box_geo.lees_edwards_update"]
             | CUBOID => []
             end d in
  if steepest_descent s
  then dyn_log [Extern "steepest_descent_step"] d
  else dyn_time (d_sim_time d + time_step s)%float
         (dyn_log (step_1_calls s) d).

(** Whether the iteration leaves the loop after [integrator_step_1]. *)
Definition early_exit (env : Env) (step : nat) (s : State) : bool :=
  steepest_descent s && steepest_descent_step env step.

(** One iteration of the loop that does not exit early, up to the checks
    that end it. *)
Definition body_dyn (env : Env) (step : nat) (s : State) (d : Dyn) : Dyn :=
  let rigid := BOND_CONSTRAINT && nonzero (n_rigidbonds env) in
  let d := body_dyn_1 env step s d in
  let d := dyn_log
             match box_geo_type s with
             | LEES_EDWARDS => [Extern "LeesEdwards::Push"]
             | CUBOID => []
             end d in
  let d := dyn_log
             (opt (negb (NPT && (integ_switch s =? INTEG_METHOD_NPT_ISO))
                   && check_resort_required env step)
                (Extern "cell_structure.set_resort_particles")) d in
  let d := dyn_log [Extern "philox_counter_increment"] d in
  let d := dyn_log (opt rigid (Extern "correct_position_shake")) d in
  let d := dyn_log (opt VIRTUAL_SITES (Extern "virtual_sites()->update")) d in
  let d := dyn_log [Extern "cells_update_ghosts"] d in
  let d := dyn_err (step_errors env step) (dyn_log [Extern "force_calc"] d) in
  let d := dyn_log
             (opt VIRTUAL_SITES (Extern "virtual_sites()->after_force_calc")) d in
  let d := dyn_log (if steepest_descent s then [] else step_2_calls s) d in
  let d := dyn_log
             match box_geo_type s with
             | LEES_EDWARDS => [Extern "LeesEdwards::UpdateOffset"]
             | CUBOID => []
             end d in
  let d := dyn_log (opt rigid (Extern "correct_velocity_shake")) d in
  if steepest_descent s then d else one_step_dyn env s d.

(** The loop variables after an iteration that completed its step. *)
Definition step_done (env : Env) (step : nat) (l : LoopVars) : LoopVars :=
  Build_LoopVars
    (if resort_particles env step
     then n_verlet_updates l + 1 else n_verlet_updates l)
    (integrated_steps l + 1) (caught_sigint l) (caught_error l).

(** [r] iterations from iteration [step] on, none of which leaves the
    loop. *)
Fixpoint run_dyn (env : Env) (s : State) (step r : nat) (d : Dyn) : Dyn :=
  match r with
  | O => d
  | S r' => run_dyn env s (S step) r' (body_dyn env step s d)
  end.

Fixpoint steps_done (env : Env) (step r : nat) (l : LoopVars) : LoopVars :=
  match r with
  | O => l
  | S r' => steps_done env (S step) r' (step_done env step l)
  end.

(** The error that the loop body reports when the lattice fluid and the
    electrokinetics solver are both active with different time steps. *)
Definition coupling_errors (env : Env) (s : State) : list string :=
  opt (negb (steepest_descent s)
       && LB_active env && (WALBERLA && negb (EK_container_empty env))
       && negb (LB_get_steps_per_md_step env (time_step s)
                =? EK_get_steps_per_md_step env (time_step s)))
    "LB and EK are active but with different time steps."%string.

(** [used_propagations] as [get_used_propagations] computes it. *)
Definition used_by (s : State) : Z :=
  let used := fold_left Z.lor (particles s) 0 in
  if nonzero (Z.land used TRANS_SYSTEM_DEFAULT)
  then Z.lor used (default_propagation s)
  else used.

(** [integrate] up to its first poll of the runtime errors. *)
Definition start_dyn (env : Env) (s : State) (d : Dyn) : Dyn :=
  mkDyn (used_by s) (d_sim_time d) (d_verlet d) (d_fluid_step d)
    (d_ek_step d) (d_ctrl_C d)
    (runtime_errors
       (propagation_sanity_checks
          (get_used_propagations (on_integration_start env (with_dyn d s)))))
    (d_calls d ++ [Extern "on_integration_start"]).

(** Whether [integrate] computes the forces before the first step. *)
Definition initial_force_calculation_due (reuse_forces : Z) (s : State)
  : bool :=
  (reuse_forces =? INTEG_REUSE_FORCES_NEVER)
  || (recalc_forces s && negb (reuse_forces =? INTEG_REUSE_FORCES_ALWAYS)).

Definition initial_force_calls (s : State) : list Call :=
  [Extern "lb_lbcoupling_deactivate"]
  ++ opt VIRTUAL_SITES (Extern "virtual_sites()->update")
  ++ [Extern "cells_update_ghosts"; Extern "force_calc"]
  ++ opt (negb (steepest_descent s) && ROTATION)
       (Extern "convert_initial_torques").

(** [integrate] from its first poll of the runtime errors to its second. *)
Definition pre_loop_dyn (env : Env) (reuse_forces : Z) (s : State) (d : Dyn)
  : Dyn :=
  let d :=
    if initial_force_calculation_due reuse_forces s
    then dyn_err (initial_force_errors env)
           (dyn_log (initial_force_calls s) d)
    else d in
  dyn_log [Extern "lb_lbcoupling_activate"] d.

(** [integrate] after its loop. *)
Definition finish (n_steps : Z) (l : LoopVars) (s : State) : Z * State :=
  let s := LeesEdwards_update_box_params s in
  let s := when VIRTUAL_SITES (call "virtual_sites()->update") s in
  let s :=
    set_verlet_reuse
      (if n_verlet_updates l >? 0
       then (double_of_int n_steps / double_of_int (n_verlet_updates l))%float
       else 0%float) s in
  let s := when (NPT && (integ_switch s =? INTEG_METHOD_NPT_ISO))
             (call "synchronize_npt_state") s in
  if caught_sigint l then (INTEG_ERROR_SIGINT, set_ctrl_C 0 s)
  else if caught_error l then (INTEG_ERROR_RUNTIME, s)
  else (integrated_steps l, s).

Definition finish_dyn (n_steps : Z) (l : LoopVars) (s : State) (d : Dyn)
  : Dyn :=
  let d := dyn_log
             (match box_geo_type s with
              | LEES_EDWARDS => [Extern "box_geo.lees_edwards_update"]
              | CUBOID => []
              end
              ++ opt VIRTUAL_SITES (Extern "virtual_sites()->update")) d in
  let d :=
    mkDyn (d_used d) (d_sim_time d)
      (if n_verlet_updates l >? 0
       then (double_of_int n_steps / double_of_int (n_verlet_updates l))%float
       else 0%float)
      (d_fluid_step d) (d_ek_step d) (d_ctrl_C d) (d_errors d) (d_calls d) in
  let d := dyn_log
             (opt (NPT && (integ_switch s =? INTEG_METHOD_NPT_ISO))
                (Extern "synchronize_npt_state")) d in
  if caught_sigint l then dyn_ctrl 0 d else d.

(** *** The chunks of [integrate_with_signal_handler] *)


End Effects.

(** ** A concrete configuration

    A build with assertions and with every feature but the electrokinetics
    solver, the integer codes of a released [integrate.hpp] (any values with
    distinct case labels and negative error codes behave the same), and
    collaborators that report nothing. The theorems below hold for every
    configuration; this one instantiates them. *)
Definition example_features : Features :=
  {| ROTATION := true; NPT := true; STOKESIAN_DYNAMICS := true;
     VIRTUAL_SITES := true; BOND_CONSTRAINT := true; WALBERLA := false;
     COLLISION_DETECTION := true; NDEBUG := false |}.

Definition example_codes : Codes :=
  {| INTEG_METHOD_NPT_ISO := 0; INTEG_METHOD_NVT := 1;
     INTEG_METHOD_STEEPEST_DESCENT := 2; INTEG_METHOD_BD := 3;
     INTEG_METHOD_SD := 7;
     INTEG_ERROR_RUNTIME := -1; INTEG_ERROR_SIGINT := -2;
     INTEG_REUSE_FORCES_NEVER := -1; INTEG_REUSE_FORCES_CONDITIONALLY := 0;
     INTEG_REUSE_FORCES_ALWAYS := 1;
     THERMO_OFF := 0; THERMO_NPT_ISO := 4; THERMO_BROWNIAN := 16;
     THERMO_SD := 32;
     TRANS_LANGEVIN_NPT := Z.shiftl 1 10 |}.

Definition quiet_env : Env :=
  {| comm_cart_size := 1;
     LB_active := false;
     LB_get_tau := 1%float;
     LB_check_tau_time_step_consistency := fun _ _ => None;
     LB_get_steps_per_md_step := fun _ => 1;
     EK_container_empty := true;
     EK_get_steps_per_md_step := fun _ => 1;
     n_rigidbonds := 0;
     start_errors := [];
     initial_force_errors := [];
     step_errors := fun _ => [];
     sigint_during := fun _ => false;
     steepest_descent_step := fun _ => false;
     check_resort_required := fun _ => false;
     resort_particles := fun _ => false |}.

(** [quiet_env] with a lattice fluid that takes one step every
    [steps_per_md_step] MD steps. *)
Definition fluid_env (steps_per_md_step : Z) : Env :=
  {| comm_cart_size := 1;
     LB_active := true;
     LB_get_tau := 1%float;
     LB_check_tau_time_step_consistency := fun _ _ => None;
     LB_get_steps_per_md_step := fun _ => steps_per_md_step;
     EK_container_empty := true;
     EK_get_steps_per_md_step := fun _ => 1;
     n_rigidbonds := 0;
     start_errors := [];
     initial_force_errors := [];
     step_errors := fun _ => [];
     sigint_during := fun _ => false;
     steepest_descent_step := fun _ => false;
     check_resort_required := fun _ => false;
     resort_particles := fun _ => false |}.



(** The state reached from process start by setting the time step and
    selecting an integrator, with local particles of the given masks. *)
Definition example_state (integrator : Z) (dt : float) (masks : list Z)
  : State :=
  let s := @initial_state example_codes in
  let s :=
    mkState (integ_switch s) (default_propagation s) (used_propagations s)
      (time_step s) (sim_time s) (skin s) (skin_set s) (recalc_forces s)
      (verlet_reuse s) (fluid_step s) (ek_step s) (ctrl_C s) (box_geo_type s)
      (thermo_switch s) (runtime_errors s) masks (calls s) in
  let s := state_of (@set_time_step quiet_env dt s) in
  state_of (@set_integ_switch example_features example_codes integrator s).

(** A step that writes nothing but the runtime errors. *)
Definition errors_only (f : State -> State) : Prop :=
  forall s, exists e, f s = set_runtime_errors e s.

(** The scenario of the specification: NVT, [time_step = 0.01], one particle
    tagged default-only. *)
Definition nvt_state : State :=
  example_state (@INTEG_METHOD_NVT example_codes) 0.01 [TRANS_SYSTEM_DEFAULT].

(** A particle tagged for Stokesian dynamics only, in a system whose default
    is Langevin dynamics. *)
Definition stokesian_particle_state : State :=
  example_state (@INTEG_METHOD_NVT example_codes) 0.01 [TRANS_STOKESIAN].

(** NPT selected, then a Lees-Edwards protocol installed. *)
Definition npt_lees_edwards_state : State :=
  LeesEdwards_set_protocol
    (example_state (@INTEG_METHOD_NPT_ISO example_codes) 0.01
       [TRANS_SYSTEM_DEFAULT]).

(** ** Further functions of the sources

    Functions of the sources that the integrator does not call: the setup
    of a virtual site, the filter of the particle ranges and the getters,
    followed by the vocabulary that the further properties are stated in. *)

(** *** virtual_sites.hpp *)

Module VirtualSites.

(** [Utils::Quaternion<double>] *)
Record Quaternion := {
  q_w : float;
  q_x : float;
  q_y : float;
  q_z : float
}.

(** The fields of [Particle] that [vs_relate_to] reads or writes. *)
Record VirtualSitesRelativeParameters := {
  to_particle_id : Z;
  distance : float;
  rel_orientation : Quaternion
}.

Record Particle := {
  id : Z;
  propagation : Z;
  vs_relative : VirtualSitesRelativeParameters
}.

(** Setup a virtual site to track a real particle (compiled with
    [VIRTUAL_SITES] and [VIRTUAL_SITES_RELATIVE]).
    [calculate_vs_relate_to_params] is defined outside these sources; it is
    handed the virtual site as it is after the two assignments before the
    call. *)
Definition vs_relate_to
  (calculate_vs_relate_to_params : Particle -> Particle -> Quaternion * float)
  (p_vs p_relate_to : Particle) : Particle :=
  (* Set the particle id of the particle we want to relate to, the distance
     and the relative orientation *)
  let p_vs :=
    {| id := id p_vs;
       propagation := Z.lor (propagation p_vs) TRANS_VS_RELATIVE;
       vs_relative := vs_relative p_vs |} in
  let p_vs :=
    {| id := id p_vs;
       propagation := propagation p_vs;
       vs_relative :=
         {| to_particle_id := id p_relate_to;
            distance := distance (vs_relative p_vs);
            rel_orientation := rel_orientation (vs_relative p_vs) |} |} in
  let '(orientation, dist) := calculate_vs_relate_to_params p_vs p_relate_to in
  {| id := id p_vs;
     propagation := propagation p_vs;
     vs_relative :=
       {| to_particle_id := to_particle_id (vs_relative p_vs);
          distance := dist;
          rel_orientation := orientation |} |}.

End VirtualSites.

(** *** propagation.hpp *)

(** [PropagationPredicate<criterion>::operator()] on the mask of a
    particle. *)
Definition PropagationPredicate (criterion propagation : Z) : bool :=
  nonzero (Z.land propagation criterion).

(** *** Getters *)


Definition get_time_step (s : State) : float := time_step s.

Definition get_sim_time (s : State) : float := sim_time s.

(** *** Vocabulary of the further properties *)

(** The local particles replaced. *)
Definition set_particles v s :=
  mkState (integ_switch s) (default_propagation s) (used_propagations s)
    (time_step s) (sim_time s) (skin s) (skin_set s) (recalc_forces s)
    (verlet_reuse s) (fluid_step s) (ek_step s) (ctrl_C s) (box_geo_type s)
    (thermo_switch s) (runtime_errors s) v (calls s).

(** The flags of the enumeration that name a rotation mode, and those that
    name a translation mode. *)
Definition rotation_modes : Z := ROT_LANGEVIN + ROT_VS_RELATIVE + ROT_BROWNIAN.
Definition translation_modes : Z :=
  TRANS_SYSTEM_DEFAULT + TRANS_LANGEVIN + TRANS_VS_RELATIVE
  + TRANS_LB_MOMENTUM_EXCHANGE + TRANS_LB_TRACER + TRANS_BROWNIAN
  + TRANS_STOKESIAN.

(** A propagation mode of [mode] is in use: a local particle carries it, or
    a local particle carries [TRANS_SYSTEM_DEFAULT] and the default
    propagation carries it. *)
Definition in_use (s : State) (mode : Z) : Prop :=
  (exists p, In p (particles s) /\ Z.land p mode <> 0)
  \/ ((exists p, In p (particles s) /\ Z.land p TRANS_SYSTEM_DEFAULT <> 0)
      /\ Z.land (default_propagation s) mode <> 0).




(** *** Further configurations *)

(** [example_features] with the electrokinetics solver compiled in. *)
Definition walberla_features : Features :=
  {| ROTATION := true; NPT := true; STOKESIAN_DYNAMICS := true;
     VIRTUAL_SITES := true; BOND_CONSTRAINT := true; WALBERLA := true;
     COLLISION_DETECTION := true; NDEBUG := false |}.

(** [quiet_env] with the given answers of the lattice solvers, of the
    minimizer and of the cell system, on [ranks] ranks, with the given
    errors reported in an iteration and SIGINT arriving in the iterations
    that [sigint] holds for. *)
Definition solver_env (ranks : Z) (lb : option Z) (ek : option Z)
  (errors : nat -> list string) (sigint converged resort : nat -> bool) : Env :=
  {| comm_cart_size := ranks;
     LB_active := match lb with Some _ => true | None => false end;
     LB_get_tau := 1%float;
     LB_check_tau_time_step_consistency := fun _ _ => None;
     LB_get_steps_per_md_step :=
       fun _ => match lb with Some n => n | None => 1 end;
     EK_container_empty := match ek with Some _ => false | None => true end;
     EK_get_steps_per_md_step :=
       fun _ => match ek with Some n => n | None => 1 end;
     n_rigidbonds := 0;
     start_errors := [];
     initial_force_errors := [];
     step_errors := errors;
     sigint_during := sigint;
     steepest_descent_step := converged;
     check_resort_required := fun _ => false;
     resort_particles := resort |}.

Definition never (i : nat) : bool := false.

Definition no_errors (i : nat) : list string := [].

(** [quiet_world] without any interaction, so without a maximal cutoff. *)
Definition no_cutoff_world : World :=
  {| comm_cart_rank := 0;
     maximal_cutoff := 0%float;
     min_max_cutoff := 3%float;
     auto_update_next_update := fun _ => 4;
     chunk_env := fun _ => quiet_env |}.

(** Steepest descent selected, one particle tagged default-only. *)
Definition steepest_descent_state : State :=
  example_state (@INTEG_METHOD_STEEPEST_DESCENT example_codes) 0.01
    [TRANS_SYSTEM_DEFAULT].

(** A particle with the given id and propagation mask, related to no
    particle yet. *)
Definition example_particle (id propagation : Z) : VirtualSites.Particle :=
  {| VirtualSites.id := id;
     VirtualSites.propagation := propagation;
     VirtualSites.vs_relative :=
       {| VirtualSites.to_particle_id := -1;
          VirtualSites.distance := 0%float;
          VirtualSites.rel_orientation :=
            {| VirtualSites.q_w := 1%float; VirtualSites.q_x := 0%float;
               VirtualSites.q_y := 0%float; VirtualSites.q_z := 0%float |} |} |}.

Definition example_vs_relate_to_params (p_vs p_relate_to : VirtualSites.Particle)
  : VirtualSites.Quaternion * float :=
  ({| VirtualSites.q_w := 1%float; VirtualSites.q_x := 0%float;
      VirtualSites.q_y := 0%float; VirtualSites.q_z := 0%float |}, 1%float).

(** * Properties *)

(** ** Validity of propagation masks *)

Lemma land_double_odd (a b : Z) : Z.land (2 * a) (2 * b + 1) = 2 * Z.land a b.
Proof.
  apply Z.bits_inj'. intros n Hn.
  rewrite Z.land_spec.
  destruct (Z.eq_dec n 0) as [->|Hz].
  - rewrite !Z.testbit_even_0. reflexivity.
  - replace n with (Z.succ (n - 1)) by lia.
    rewrite !Z.testbit_even_succ, Z.testbit_odd_succ, Z.land_spec by lia.
    reflexivity.
Qed.

Lemma land_pred_pos (p : positive) :
  Z.land (Z.pos p) (Z.pos p - 1) = 0 <-> exists k, 0 <= k /\ Z.pos p = 2 ^ k.
Proof.
  induction p as [q IH | q IH | ].
  - split.
    + intros H. exfalso.
      replace (Z.pos q~1 - 1) with (Z.pos q~0) in H by lia.
      assert (Hb : Z.testbit (Z.land (Z.pos q~1) (Z.pos q~0)) (Z.succ (Z.log2 (Z.pos q))) = true).
      { rewrite Z.land_spec.
        change (Z.pos q~1) with (2 * Z.pos q + 1). change (Z.pos q~0) with (2 * Z.pos q).
        rewrite Z.testbit_odd_succ, Z.testbit_even_succ by apply Z.log2_nonneg.
        rewrite Z.bit_log2 by lia. reflexivity. }
      rewrite H, Z.bits_0 in Hb. discriminate.
    + intros (k & Hk & E). exfalso.
      destruct (Z.eq_dec k 0) as [->|Hz]; [simpl in E; lia|].
      replace k with (Z.succ (k - 1)) in E by lia.
      rewrite Z.pow_succ_r in E by lia. lia.
  - replace (Z.pos q~0 - 1) with (2 * (Z.pos q - 1) + 1) by lia.
    change (Z.pos q~0) with (2 * Z.pos q).
    rewrite land_double_odd. split.
    + intros H. assert (H' : Z.land (Z.pos q) (Z.pos q - 1) = 0) by lia.
      apply IH in H'. destruct H' as (k & Hk & E).
      exists (Z.succ k). split; [lia|]. rewrite Z.pow_succ_r by lia. lia.
    + intros (k & Hk & E).
      destruct (Z.eq_dec k 0) as [->|Hz]; [simpl in E; lia|].
      replace k with (Z.succ (k - 1)) in E by lia.
      rewrite Z.pow_succ_r in E by lia.
      assert (H' : Z.land (Z.pos q) (Z.pos q - 1) = 0).
      { apply IH. exists (k - 1). split; lia. }
      lia.
  - split; [intros _; exists 0; split; [lia|reflexivity] | reflexivity].
Qed.

Lemma wrap_int_small (z : Z) : INT_MIN <= z <= INT_MAX -> wrap_int z = z.
Proof.
  unfold wrap_int, INT_MIN, INT_MAX. intros H.
  rewrite Z.mod_small; lia.
Qed.

Lemma single_bit_cases (m : Z) :
  single_bit m <-> m = INT_MIN \/ exists k, 0 <= k < 31 /\ m = 2 ^ k.
Proof.
  unfold single_bit. split.
  - intros (k & Hk & ->).
    destruct (Z.eq_dec k 31) as [->|Hne]; [left; reflexivity|].
    right. exists k. split; [lia|].
    apply wrap_int_small. unfold INT_MIN, INT_MAX.
    assert (2 ^ k < 2 ^ 31) by (apply Z.pow_lt_mono_r; lia).
    assert (0 < 2 ^ k) by (apply Z.pow_pos_nonneg; lia). lia.
  - intros [->|(k & Hk & ->)].
    + exists 31. split; [lia|reflexivity].
    + exists k. split; [lia|]. symmetry.
      apply wrap_int_small. unfold INT_MIN, INT_MAX.
      assert (2 ^ k < 2 ^ 31) by (apply Z.pow_lt_mono_r; lia).
      assert (0 < 2 ^ k) by (apply Z.pow_pos_nonneg; lia). lia.
Qed.

Lemma single_bit_test (m : Z) :
  INT_MIN <= m <= INT_MAX -> m <> 0 ->
  Z.land m (wrap_int (m - 1)) = 0 <-> single_bit m.
Proof.
  intros Hr Hz. rewrite single_bit_cases.
  destruct (Z.eq_dec m INT_MIN) as [->|Hmin].
  - split; [intros _; left; reflexivity | intros _; reflexivity].
  - rewrite wrap_int_small by (unfold INT_MIN, INT_MAX in *; lia).
    destruct m as [|p|p]; [congruence| |].
    + rewrite land_pred_pos. split.
      * intros (k & Hk & E). right. exists k. split; [|exact E].
        split; [lia|]. apply (Z.pow_lt_mono_r_iff 2); [lia|lia|].
        unfold INT_MAX in Hr. lia.
      * intros [E|(k & Hk & E)]; [unfold INT_MIN in E; lia|].
        exists k. split; [lia|exact E].
    + split.
      * intros H. exfalso.
        assert (Hn : Z.land (Z.neg p) (Z.neg p - 1) < 0)
          by (apply Z.land_neg; lia).
        lia.
      * intros [E|(k & Hk & E)]; [congruence|].
        assert (0 < 2 ^ k) by (apply Z.pow_pos_nonneg; lia). lia.
Qed.

Lemma listed_combinations_test (m : Z) :
  ((m =? TRANS_LANGEVIN + ROT_LANGEVIN)
   || (m =? TRANS_VS_RELATIVE + ROT_VS_RELATIVE)
   || (m =? TRANS_BROWNIAN + ROT_BROWNIAN)
   || ((m =? TRANS_VS_RELATIVE + ROT_LANGEVIN)
       || (m =? TRANS_LANGEVIN + ROT_VS_RELATIVE))
   || (m =? TRANS_LB_MOMENTUM_EXCHANGE + TRANS_VS_RELATIVE)
   || ((m =? TRANS_LB_MOMENTUM_EXCHANGE + TRANS_VS_RELATIVE + ROT_LANGEVIN)
       || (m =? TRANS_LB_MOMENTUM_EXCHANGE + TRANS_VS_RELATIVE + ROT_VS_RELATIVE)))%bool
  = true <-> In m listed_combinations.
Proof.
  unfold listed_combinations. cbn [In].
  rewrite !orb_true_iff, !Z.eqb_eq. intuition congruence.
Qed.

(** C4. For every [int] mask, [is_valid_propagation_combination] holds
    exactly for the empty mask, the masks of a single bit and the eight
    listed combinations; every other mask, such as Langevin translation
    with Brownian rotation, is refused. *)
Theorem is_valid_propagation_combination_spec (m : Z) :
  INT_MIN <= m <= INT_MAX ->
  is_valid_propagation_combination m = true
  <-> m = 0 \/ single_bit m \/ In m listed_combinations.
Proof.
  intros Hr. unfold is_valid_propagation_combination.
  destruct (Z.eqb_spec m 0) as [->|Hz]; [intuition|].
  pose proof (single_bit_test m Hr Hz) as Hs.
  unfold nonzero.
  destruct (Z.eqb_spec (Z.land m (wrap_int (m - 1))) 0) as [E|E]; cbn [negb].
  - split; [intros _; right; left; apply Hs; exact E | reflexivity].
  - rewrite <- listed_combinations_test.
    assert (Hns : ~ single_bit m) by (intros H; apply E, Hs, H).
    repeat match goal with
           | |- context [?a =? ?b] => destruct (Z.eqb_spec a b)
           end; cbn; intuition congruence.
Qed.

(** ** Valid combinations, and virtual sites *)

(** The predicate as one boolean expression. *)
Lemma is_valid_propagation_combination_eq (m : Z) :
  is_valid_propagation_combination m
  = (m =? 0) || (Z.land m (wrap_int (m - 1)) =? 0)
    || existsb (Z.eqb m) listed_combinations.
Proof.
  unfold is_valid_propagation_combination, nonzero, listed_combinations.
  cbn [existsb].
  destruct (m =? 0); [reflexivity|].
  destruct (Z.land m (wrap_int (m - 1)) =? 0); [reflexivity|].
  cbn [negb orb].
  destruct (m =? TRANS_LANGEVIN + ROT_LANGEVIN); [reflexivity|].
  destruct (m =? TRANS_VS_RELATIVE + ROT_VS_RELATIVE); [reflexivity|].
  destruct (m =? TRANS_BROWNIAN + ROT_BROWNIAN); [reflexivity|].
  destruct (m =? TRANS_VS_RELATIVE + ROT_LANGEVIN); [reflexivity|].
  destruct (m =? TRANS_LANGEVIN + ROT_VS_RELATIVE); [reflexivity|].
  destruct (m =? TRANS_LB_MOMENTUM_EXCHANGE + TRANS_VS_RELATIVE);
    [reflexivity|].
  destruct (m =? TRANS_LB_MOMENTUM_EXCHANGE + TRANS_VS_RELATIVE + ROT_LANGEVIN);
    [reflexivity|].
  destruct (m =? TRANS_LB_MOMENTUM_EXCHANGE + TRANS_VS_RELATIVE
                 + ROT_VS_RELATIVE); reflexivity.
Qed.

Lemma existsb_eqb_In (m : Z) (l : list Z) :
  existsb (Z.eqb m) l = true <-> In m l.
Proof.
  rewrite existsb_exists. split.
  - intros (x & Hx & E). apply Z.eqb_eq in E. now subst.
  - intros H. exists m. split; [exact H | apply Z.eqb_refl].
Qed.

Lemma is_valid_propagation_combination_cases (m : Z) :
  INT_MIN <= m <= INT_MAX ->
  is_valid_propagation_combination m = true ->
  m = 0 \/ m = INT_MIN \/ (exists k, 0 <= k < 31 /\ m = 2 ^ k)
  \/ In m listed_combinations.
Proof.
  intros Hr. rewrite is_valid_propagation_combination_eq, !orb_true_iff.
  intros [[H|H]|H].
  - left. now apply Z.eqb_eq.
  - destruct (Z.eq_dec m 0) as [->|Hz]; [now left|].
    apply Z.eqb_eq, (single_bit_test m Hr Hz), single_bit_cases in H.
    tauto.
  - right. right. right. now apply existsb_eqb_In.
Qed.

Lemma small_power_cases (k : Z) (P : Z -> Prop) :
  0 <= k < 31 ->
  Forall P (map (fun n => 2 ^ Z.of_nat n) (seq 0 31)) -> P (2 ^ k).
Proof.
  intros Hk H. rewrite Forall_forall in H. apply H.
  apply in_map_iff. exists (Z.to_nat k). split.
  - now rewrite Z2Nat.id by lia.
  - apply in_seq. lia.
Qed.

(** X1. A valid combination names at most one rotation mode, and at most one
    translation mode unless these are lattice-fluid momentum exchange with
    virtual-site-relative translation. *)
Theorem valid_combination_modes (m : Z) :
  INT_MIN <= m <= INT_MAX ->
  is_valid_propagation_combination m = true ->
  In (Z.land m rotation_modes) [0; ROT_LANGEVIN; ROT_VS_RELATIVE; ROT_BROWNIAN]
  /\ In (Z.land m translation_modes)
       [0; TRANS_SYSTEM_DEFAULT; TRANS_LANGEVIN; TRANS_VS_RELATIVE;
        TRANS_LB_MOMENTUM_EXCHANGE; TRANS_LB_TRACER; TRANS_BROWNIAN;
        TRANS_STOKESIAN; TRANS_LB_MOMENTUM_EXCHANGE + TRANS_VS_RELATIVE].
Proof.
  intros Hr Hv.
  destruct (is_valid_propagation_combination_cases m Hr Hv)
    as [->|[->|[(k & Hk & ->)|H]]].
  - vm_compute. tauto.
  - vm_compute. tauto.
  - apply (small_power_cases k
             (fun p => In (Z.land p rotation_modes) _
                       /\ In (Z.land p translation_modes) _) Hk).
    vm_compute.
    repeat (apply Forall_cons;
            [split; repeat first [left; reflexivity | right]|]).
    apply Forall_nil.
  - unfold listed_combinations in H. cbn [In] in H.
    repeat destruct H as [<-|H]; try (vm_compute; tauto).
Qed.

Lemma land_bit_2 (m : Z) : Z.land m 4 = 0 \/ Z.land m 4 = 4.
Proof.
  destruct (Z.testbit m 2) eqn:E; [right | left];
    apply Z.bits_inj'; intros n Hn; rewrite Z.land_spec;
    destruct (Z.eq_dec n 2) as [->|Hne].
  - now rewrite E.
  - change 4 with (2 ^ 2). rewrite Z.pow2_bits_false by lia.
    now rewrite andb_false_r.
  - rewrite E, Z.bits_0. reflexivity.
  - change 4 with (2 ^ 2). rewrite Z.pow2_bits_false by lia.
    now rewrite andb_false_r, Z.bits_0.
Qed.

Lemma lor_bit_2 (m : Z) : Z.lor m 4 = m \/ Z.lor m 4 = m + 4.
Proof.
  pose proof (Z.add_lor_land m 4) as H.
  destruct (land_bit_2 m) as [E|E]; rewrite E in H; [right | left]; lia.
Qed.

Lemma land_lor_bit_2 (m : Z) : Z.land (Z.lor m 4) 4 = 4.
Proof.
  rewrite Z.land_lor_distr_l. change (Z.land 4 4) with 4.
  destruct (land_bit_2 m) as [->| ->]; reflexivity.
Qed.

Lemma lor_bit_2_range (m : Z) :
  INT_MIN <= m <= INT_MAX -> INT_MIN <= Z.lor m 4 <= INT_MAX.
Proof.
  unfold INT_MIN, INT_MAX. intros H.
  pose proof (Z.add_lor_land m 4) as Ha.
  destruct (land_bit_2 m) as [E|E]; rewrite E in Ha; [|lia].
  assert (Hb : Z.testbit m 2 = false).
  { destruct (Z.testbit m 2) eqn:Eb; [|reflexivity].
    assert (Hc : Z.testbit (Z.land m 4) 2 = true)
      by (rewrite Z.land_spec, Eb; reflexivity).
    rewrite E in Hc. discriminate. }
  rewrite Z.testbit_false in Hb by lia.
  change (2 ^ 2) with 4 in Hb. change (2 ^ 31) with 2147483648 in *.
  assert (m < 2147483644); [|lia].
  destruct (Z_lt_le_dec m 2147483644) as [Hlt|Hge]; [exact Hlt|exfalso].
  assert (Hq : m / 4 = 536870911)
    by (symmetry; apply Z.div_unique with (r := m - 2147483644); lia).
  rewrite Hq in Hb. discriminate.
Qed.

(** X2. [vs_relate_to] adds [TRANS_VS_RELATIVE] to the mask of the virtual site
    and clears nothing: the mask that results is a valid combination exactly
    when the mask before was empty, [TRANS_VS_RELATIVE],
    [TRANS_LB_MOMENTUM_EXCHANGE], a rotation by Langevin dynamics or relative
    to a particle, or a sum of these. A site tagged [TRANS_SYSTEM_DEFAULT]
    or [TRANS_LANGEVIN] ends with a combination that the predicate
    refuses. *)
Theorem vs_relate_to_valid_combination
  (calculate_vs_relate_to_params :
     VirtualSites.Particle -> VirtualSites.Particle
     -> VirtualSites.Quaternion * float)
  (p_vs p_relate_to : VirtualSites.Particle) :
  INT_MIN <= VirtualSites.propagation p_vs <= INT_MAX ->
  is_valid_propagation_combination
    (VirtualSites.propagation
       (VirtualSites.vs_relate_to calculate_vs_relate_to_params p_vs
          p_relate_to)) = true
  <-> exists t r,
        In t [0; TRANS_VS_RELATIVE; TRANS_LB_MOMENTUM_EXCHANGE;
              TRANS_LB_MOMENTUM_EXCHANGE + TRANS_VS_RELATIVE]
        /\ In r [0; ROT_LANGEVIN; ROT_VS_RELATIVE]
        /\ VirtualSites.propagation p_vs = t + r.
Proof.
  intros Hr.
  assert (E : VirtualSites.propagation
                (VirtualSites.vs_relate_to calculate_vs_relate_to_params p_vs
                   p_relate_to)
              = Z.lor (VirtualSites.propagation p_vs) 4).
  { unfold VirtualSites.vs_relate_to.
    destruct (calculate_vs_relate_to_params _ _). reflexivity. }
  rewrite E. clear E.
  set (m := VirtualSites.propagation p_vs) in *. clearbody m.
  split.
  - intros Hv.
    pose proof (land_lor_bit_2 m) as Hb.
    pose proof (lor_bit_2 m) as Hl.
    apply is_valid_propagation_combination_cases in Hv;
      [|now apply lor_bit_2_range].
    assert (Hc : In (Z.lor m 4) [4; 260; 132; 12; 140; 268]).
    { destruct Hv as [Hv|[Hv|[(k & Hk & Hv)|Hv]]].
      - rewrite Hv in Hb. discriminate.
      - rewrite Hv in Hb. discriminate.
      - rewrite Hv in Hb. rewrite Hv. revert Hb.
        apply (small_power_cases k
                 (fun p => Z.land p 4 = 4 -> In p _) Hk).
        vm_compute.
        repeat (apply Forall_cons; [intros; try discriminate; tauto|]).
        apply Forall_nil.
      - unfold listed_combinations in Hv. cbn [In] in Hv.
        repeat destruct Hv as [Hv|Hv];
          try (rewrite <- Hv in Hb; discriminate Hb);
          try (rewrite <- Hv; vm_compute; tauto).
        destruct Hv. }
    assert (Hm : In m [0; 4; 256; 260; 128; 132; 8; 12; 136; 140; 264; 268]).
    { cbn [In] in Hc |- *. destruct Hl as [Hl|Hl]; rewrite Hl in Hc; lia. }
    cbn [In] in Hm.
    repeat destruct Hm as [<-|Hm]; [..|destruct Hm].
    + exists 0, 0. vm_compute. tauto.
    + exists TRANS_VS_RELATIVE, 0. vm_compute. tauto.
    + exists 0, ROT_VS_RELATIVE. vm_compute. tauto.
    + exists TRANS_VS_RELATIVE, ROT_VS_RELATIVE. vm_compute. tauto.
    + exists 0, ROT_LANGEVIN. vm_compute. tauto.
    + exists TRANS_VS_RELATIVE, ROT_LANGEVIN. vm_compute. tauto.
    + exists TRANS_LB_MOMENTUM_EXCHANGE, 0. vm_compute. tauto.
    + exists (TRANS_LB_MOMENTUM_EXCHANGE + TRANS_VS_RELATIVE), 0.
      vm_compute. tauto.
    + exists TRANS_LB_MOMENTUM_EXCHANGE, ROT_LANGEVIN. vm_compute. tauto.
    + exists (TRANS_LB_MOMENTUM_EXCHANGE + TRANS_VS_RELATIVE), ROT_LANGEVIN.
      vm_compute. tauto.
    + exists TRANS_LB_MOMENTUM_EXCHANGE, ROT_VS_RELATIVE. vm_compute. tauto.
    + exists (TRANS_LB_MOMENTUM_EXCHANGE + TRANS_VS_RELATIVE), ROT_VS_RELATIVE.
      vm_compute. tauto.
  - intros (t & r & Ht & Hrr & ->). cbn [In] in Ht, Hrr.
    repeat destruct Ht as [<-|Ht]; [..|destruct Ht];
      repeat destruct Hrr as [<-|Hrr]; try destruct Hrr; reflexivity.
Qed.

(** ** The integrator *)

Lemma positive_not_leb_zero (v : float) :
  (0 <? v)%float = true -> (v <=? 0)%float = false.
Proof.
  rewrite ltb_spec, leb_spec.
  change (Prim2SF 0) with (S754_zero false).
  destruct (Prim2SF v) as [sg | sg | | sg m e]; cbn; try discriminate;
    destruct sg; cbn; congruence.
Qed.

Section Properties.
Context {features : Features} {codes : Codes}.

Lemma with_dyn_of (s : State) : with_dyn (dyn_of s) s = s.
Proof. destruct s; reflexivity. Qed.

Lemma dyn_log_nil (d : Dyn) : dyn_log [] d = d.
Proof. destruct d; unfold dyn_log; cbn. now rewrite app_nil_r. Qed.

Lemma call_dyn f d s :
  call f (with_dyn d s) = with_dyn (dyn_log [Extern f] d) s.
Proof. reflexivity. Qed.

Lemma when_call_dyn b f d s :
  when b (call f) (with_dyn d s) = with_dyn (dyn_log (opt b (Extern f)) d) s.
Proof. destruct b; cbn [when opt]; [reflexivity | now rewrite dyn_log_nil]. Qed.

Lemma when_sigint_dyn b d s :
  when b (set_ctrl_C 1) (with_dyn d s)
  = with_dyn (dyn_ctrl (if b then 1 else d_ctrl_C d) d) s.
Proof. destruct b, d; reflexivity. Qed.

Lemma update_box_params_dyn d s :
  LeesEdwards_update_box_params (with_dyn d s)
  = with_dyn
      (dyn_log match box_geo_type s with
               | LEES_EDWARDS => [Extern "box_geo.lees_edwards_update"]
               | CUBOID => []
               end d) s.
Proof.
  unfold LeesEdwards_update_box_params. cbn [box_geo_type with_dyn].
  destruct (box_geo_type s); [now rewrite dyn_log_nil | reflexivity].
Qed.

Lemma run_kernel_dyn k d s :
  LeesEdwards_run_kernel k (with_dyn d s)
  = with_dyn
      (dyn_log match box_geo_type s with
               | LEES_EDWARDS => [Extern k]
               | CUBOID => []
               end d) s.
Proof.
  unfold LeesEdwards_run_kernel. cbn [box_geo_type with_dyn].
  destruct (box_geo_type s); [now rewrite dyn_log_nil | reflexivity].
Qed.

Lemma dyn_log_app a b d : dyn_log b (dyn_log a d) = dyn_log (a ++ b) d.
Proof. unfold dyn_log; cbn. now rewrite app_assoc. Qed.

Lemma log_dyn cs d s : log cs (with_dyn d s) = with_dyn (dyn_log cs d) s.
Proof. reflexivity. Qed.

Lemma when_log_dyn b cs d s :
  when b (log cs) (with_dyn d s)
  = with_dyn (dyn_log (if b then cs else []) d) s.
Proof. destruct b; cbn [when]; [reflexivity | now rewrite dyn_log_nil]. Qed.

Ltac state_simpl :=
  cbn [integ_switch default_propagation used_propagations time_step
       sim_time skin skin_set recalc_forces verlet_reuse fluid_step ek_step
       ctrl_C box_geo_type thermo_switch runtime_errors particles calls
       with_dyn d_used d_sim_time d_verlet d_fluid_step d_ek_step d_ctrl_C
       d_errors d_calls dyn_log dyn_err dyn_time dyn_ctrl dyn_fluid dyn_ek].

Lemma filter_range_dyn c d s : filter_range c (with_dyn d s) = filter_range c s.
Proof. reflexivity. Qed.

Lemma local_particles_dyn d s : local_particles (with_dyn d s) = local_particles s.
Proof. reflexivity. Qed.

Lemma integrator_step_1_dyn env step d s :
  integrator_step_1 env step (with_dyn d s)
  = (early_exit env step s,
     with_dyn
       (if steepest_descent s
        then dyn_log [Extern "steepest_descent_step"] d
        else dyn_time (d_sim_time d + time_step s)%float
               (dyn_log (step_1_calls s) d)) s).
Proof.
  unfold integrator_step_1, early_exit, steepest_descent.
  change (integ_switch (with_dyn d s)) with (integ_switch s).
  destruct (integ_switch s =? INTEG_METHOD_STEEPEST_DESCENT); [reflexivity|].
  cbv zeta. f_equal.
  change (default_propagation (with_dyn d s)) with (default_propagation s).
  rewrite local_particles_dyn, log_dyn.
  change (default_propagation (with_dyn ?d s)) with (default_propagation s).
  rewrite filter_range_dyn, when_log_dyn.
  change (default_propagation (with_dyn ?d s)) with (default_propagation s).
  rewrite filter_range_dyn, when_log_dyn, !dyn_log_app.
  reflexivity.
Qed.

Lemma integrator_step_2_dyn d s :
  integrator_step_2 (with_dyn d s)
  = with_dyn (dyn_log (if steepest_descent s then [] else step_2_calls s) d) s.
Proof.
  unfold integrator_step_2, steepest_descent.
  change (integ_switch (with_dyn d s)) with (integ_switch s).
  destruct (integ_switch s =? INTEG_METHOD_STEEPEST_DESCENT);
    [now rewrite dyn_log_nil|].
  cbv zeta.
  change (default_propagation (with_dyn d s)) with (default_propagation s).
  rewrite local_particles_dyn, log_dyn.
  change (default_propagation (with_dyn ?d s)) with (default_propagation s).
  rewrite filter_range_dyn, when_log_dyn, !dyn_log_app.
  reflexivity.
Qed.

Lemma force_calc_dyn errors d s :
  force_calc errors (with_dyn d s)
  = with_dyn (dyn_err errors (dyn_log [Extern "force_calc"] d)) s.
Proof. reflexivity. Qed.

Lemma when_resort_dyn env step b d s :
  when b (resort_particles_if_needed env step) (with_dyn d s)
  = with_dyn
      (dyn_log (opt (b && check_resort_required env step)
                  (Extern "cell_structure.set_resort_particles")) d) s.
Proof.
  unfold resort_particles_if_needed.
  destruct b; cbn [when andb opt]; [apply when_call_dyn | now rewrite dyn_log_nil].
Qed.

Lemma set_fluid_step_dyn c d s :
  set_fluid_step c (with_dyn d s) = with_dyn (dyn_fluid c d) s.
Proof. reflexivity. Qed.

Lemma set_ek_step_dyn c d s :
  set_ek_step c (with_dyn d s) = with_dyn (dyn_ek c d) s.
Proof. reflexivity. Qed.

Lemma runtimeErrorMsg_dyn msg d s :
  runtimeErrorMsg msg (with_dyn d s) = with_dyn (dyn_err [msg] d) s.
Proof. reflexivity. Qed.

Lemma dyn_err_nil d : dyn_err [] d = d.
Proof. destruct d; unfold dyn_err; cbn. now rewrite app_nil_r. Qed.

Lemma when_runtimeErrorMsg_dyn b msg d s :
  when b (runtimeErrorMsg msg) (with_dyn d s)
  = with_dyn (dyn_err (opt b msg) d) s.
Proof. destruct b; cbn [when opt]; [reflexivity | now rewrite dyn_err_nil]. Qed.

Lemma assert_dyn expr d s :
  assert expr (with_dyn d s)
  = with_dyn
      (dyn_log (opt (negb NDEBUG && negb expr) (Extern "__assert_fail")) d) s.
Proof. unfold assert. apply when_call_dyn. Qed.

Ltac dyn_norm :=
  repeat (rewrite call_dyn || rewrite when_call_dyn || rewrite log_dyn
          || rewrite when_log_dyn || rewrite set_fluid_step_dyn
          || rewrite set_ek_step_dyn || rewrite runtimeErrorMsg_dyn
          || rewrite when_runtimeErrorMsg_dyn).

Ltac dyn_compute :=
  cbv [integ_switch default_propagation used_propagations time_step
       sim_time skin skin_set recalc_forces verlet_reuse fluid_step ek_step
       ctrl_C box_geo_type thermo_switch runtime_errors particles calls
       with_dyn d_used d_sim_time d_verlet d_fluid_step d_ek_step d_ctrl_C
       d_errors d_calls dyn_log dyn_err dyn_time dyn_ctrl dyn_fluid dyn_ek].

Ltac dyn_eq d :=
  dyn_norm; destruct d; dyn_compute; rewrite <- ?app_assoc; reflexivity.

Lemma one_step_functionalities_dyn env d s :
  propagate_one_step_functionalities env (with_dyn d s)
  = with_dyn (one_step_dyn env s d) s.
Proof.
  unfold propagate_one_step_functionalities, one_step_dyn, counter_next,
    counter_fires.
  cbv zeta. change (time_step (with_dyn d s)) with (time_step s).
  destruct (LB_active env); cbn [andb].
  - destruct (WALBERLA && negb (EK_container_empty env)).
    + rewrite when_runtimeErrorMsg_dyn, assert_dyn, set_fluid_step_dyn.
      state_simpl.
      destruct (_ >=? _); cbn [when opt]; dyn_eq d.
    + rewrite set_fluid_step_dyn. state_simpl.
      destruct (_ >=? _); cbn [when opt]; dyn_eq d.
  - destruct (WALBERLA && negb (EK_container_empty env)).
    + rewrite set_ek_step_dyn. state_simpl.
      destruct (_ >=? _); cbn [when opt]; dyn_eq d.
    + dyn_eq d.
Qed.

Lemma when_one_step_dyn env b d s :
  when b (propagate_one_step_functionalities env) (with_dyn d s)
  = with_dyn (if b then one_step_dyn env s d else d) s.
Proof. destruct b; cbn [when]; [apply one_step_functionalities_dyn | reflexivity]. Qed.

(** An iteration of the loop, on the written part of the state. *)
Lemma integration_loop_body_dyn env step l d s :
  integration_loop_body env step l (with_dyn d s)
  = if early_exit env step s
    then (Break, l, with_dyn (body_dyn_1 env step s d) s)
    else
      let d' := body_dyn env step s d in
      let l' := step_done env step l in
      match d_errors d' with
      | _ :: _ =>
          (Break,
           Build_LoopVars (n_verlet_updates l') (integrated_steps l')
             (caught_sigint l') true,
           with_dyn d' s)
      | [] =>
          if (comm_cart_size env =? 1) && (d_ctrl_C d' =? 1)
          then (Break,
                Build_LoopVars (n_verlet_updates l') (integrated_steps l')
                  true (caught_error l'),
                with_dyn d' s)
          else (Continue, l', with_dyn d' s)
      end.
Proof.
  unfold integration_loop_body. cbv zeta.
  rewrite when_sigint_dyn, when_call_dyn, update_box_params_dyn,
    integrator_step_1_dyn.
  cbv iota beta. fold (body_dyn_1 env step s d).
  destruct (early_exit env step s); [reflexivity|].
  rewrite run_kernel_dyn.
  change (integ_switch (with_dyn ?d s)) with (integ_switch s).
  rewrite when_resort_dyn, call_dyn, !when_call_dyn, call_dyn, force_calc_dyn,
    when_call_dyn, integrator_step_2_dyn, run_kernel_dyn, when_call_dyn.
  change (integ_switch (with_dyn ?d s)) with (integ_switch s).
  rewrite when_one_step_dyn.
  fold (steepest_descent s).
  rewrite if_negb.
  unfold check_runtime_errors.
  change (runtime_errors (with_dyn ?d s)) with (d_errors d).
  change (ctrl_C (with_dyn ?d s)) with (d_ctrl_C d).
  fold (body_dyn env step s d).
  cbv zeta. unfold step_done.
  destruct l as [nv ist csi cer].
  destruct (resort_particles env step);
    cbn [n_verlet_updates integrated_steps caught_sigint caught_error];
    destruct (d_errors (body_dyn env step s d)); try reflexivity;
    destruct ((comm_cart_size env =? 1) && _); reflexivity.
Qed.

(** *** The prologue and the epilogue of [integrate] *)

Ltac state_compute :=
  cbv [integ_switch default_propagation used_propagations time_step
       sim_time skin skin_set recalc_forces verlet_reuse fluid_step ek_step
       ctrl_C box_geo_type thermo_switch runtime_errors particles calls
       set_runtime_errors set_used_propagations set_calls runtimeErrorMsg
       set_verlet_reuse set_ctrl_C log call
       with_dyn d_used d_sim_time d_verlet d_fluid_step d_ek_step d_ctrl_C
       d_errors d_calls dyn_log dyn_err dyn_time dyn_ctrl dyn_fluid dyn_ek].

Lemma errors_only_dyn f :
  errors_only f ->
  forall d s,
    f (with_dyn d s)
    = with_dyn
        (mkDyn (d_used d) (d_sim_time d) (d_verlet d) (d_fluid_step d)
           (d_ek_step d) (d_ctrl_C d) (runtime_errors (f (with_dyn d s)))
           (d_calls d)) s.
Proof.
  intros H d s. destruct (H (with_dyn d s)) as [e E]. rewrite E. reflexivity.
Qed.

Lemma errors_only_refl s : exists e, s = set_runtime_errors e s.
Proof. exists (runtime_errors s). destruct s; reflexivity. Qed.

Lemma errors_only_msg msg s s' :
  (exists e, s' = set_runtime_errors e s) ->
  exists e, runtimeErrorMsg msg s' = set_runtime_errors e s.
Proof. intros [e ->]. eexists. reflexivity. Qed.

Ltac errors_only :=
  repeat (match goal with
          | |- context [if ?b then _ else _] => destruct b
          end; cbv iota);
  repeat apply errors_only_msg; apply errors_only_refl.

Lemma integrator_sanity_checks_errors_only :
  errors_only integrator_sanity_checks.
Proof.
  intros s. unfold integrator_sanity_checks. cbv zeta. errors_only.
Qed.

Lemma propagation_sanity_checks_errors_only :
  errors_only propagation_sanity_checks.
Proof.
  intros s. unfold propagation_sanity_checks. errors_only.
Qed.

Lemma fold_used_propagations ps : forall s,
  fold_left (fun s p => set_used_propagations (Z.lor (used_propagations s) p) s)
    ps s
  = set_used_propagations (fold_left Z.lor ps (used_propagations s)) s.
Proof.
  induction ps as [|p ps IH]; intros s; cbn [fold_left].
  - destruct s; reflexivity.
  - rewrite IH. reflexivity.
Qed.

Lemma get_used_propagations_dyn d s :
  get_used_propagations (with_dyn d s)
  = with_dyn
      (mkDyn (used_by s) (d_sim_time d) (d_verlet d) (d_fluid_step d)
         (d_ek_step d) (d_ctrl_C d) (d_errors d) (d_calls d)) s.
Proof.
  unfold get_used_propagations, used_by. cbv zeta.
  rewrite fold_used_propagations.
  change (particles (set_used_propagations 0 (with_dyn d s))) with (particles s).
  change (used_propagations (set_used_propagations 0 (with_dyn d s))) with 0.
  set (u := fold_left Z.lor (particles s) 0).
  change (used_propagations (set_used_propagations u ?x)) with u.
  destruct (nonzero (Z.land u TRANS_SYSTEM_DEFAULT)); reflexivity.
Qed.

Lemma set_runtime_errors_dyn e d s :
  set_runtime_errors e (with_dyn d s)
  = with_dyn
      (mkDyn (d_used d) (d_sim_time d) (d_verlet d) (d_fluid_step d)
         (d_ek_step d) (d_ctrl_C d) e (d_calls d)) s.
Proof. reflexivity. Qed.

Lemma start_dyn_eq env d s :
  propagation_sanity_checks
    (get_used_propagations (on_integration_start env (with_dyn d s)))
  = with_dyn (start_dyn env s d) s.
Proof.
  unfold start_dyn, on_integration_start. cbv zeta. rewrite !call_dyn.
  destruct (integrator_sanity_checks_errors_only
              (with_dyn (dyn_log [Extern "on_integration_start"] d) s))
    as [e1 E1].
  rewrite !E1, !set_runtime_errors_dyn.
  change (runtime_errors (with_dyn ?d s)) with (d_errors d).
  cbn [d_errors d_used d_sim_time d_verlet d_fluid_step d_ek_step d_ctrl_C
         d_calls dyn_log].
  rewrite ?set_runtime_errors_dyn, !get_used_propagations_dyn.
  cbn [d_errors d_used d_sim_time d_verlet d_fluid_step d_ek_step d_ctrl_C
         d_calls dyn_log].
  match goal with
  | |- propagation_sanity_checks ?x = _ =>
      destruct (propagation_sanity_checks_errors_only x) as [e2 E2]
  end.
  rewrite !E2, ?set_runtime_errors_dyn. reflexivity.
Qed.

Lemma initial_force_calculation_dyn env d s :
  initial_force_calculation env (with_dyn d s)
  = with_dyn (dyn_err (initial_force_errors env)
                (dyn_log (initial_force_calls s) d)) s.
Proof.
  unfold initial_force_calculation, initial_force_calls. cbv zeta.
  rewrite call_dyn, when_call_dyn, call_dyn, force_calc_dyn.
  change (integ_switch (with_dyn ?d s)) with (integ_switch s).
  fold (steepest_descent s).
  rewrite when_call_dyn. destruct d. dyn_compute.
  rewrite <- ?app_assoc. reflexivity.
Qed.

Lemma finish_dyn_eq n_steps l d s :
  finish n_steps l (with_dyn d s)
  = (if caught_sigint l then INTEG_ERROR_SIGINT
     else if caught_error l then INTEG_ERROR_RUNTIME
          else integrated_steps l,
     with_dyn (finish_dyn n_steps l s d) s).
Proof.
  unfold finish, finish_dyn. cbv zeta.
  rewrite update_box_params_dyn, when_call_dyn, dyn_log_app.
  change (set_verlet_reuse ?v (with_dyn ?d s))
    with (with_dyn (mkDyn (d_used d) (d_sim_time d) v (d_fluid_step d)
                      (d_ek_step d) (d_ctrl_C d) (d_errors d) (d_calls d)) s).
  change (integ_switch (with_dyn ?d s)) with (integ_switch s).
  rewrite when_call_dyn.
  destruct (caught_sigint l); [reflexivity|].
  destruct (caught_error l); reflexivity.
Qed.

(** [integrate], on the written part of the state. *)
Lemma integrate_dyn env n_steps reuse_forces d s :
  integrate env n_steps reuse_forces (with_dyn d s)
  = let d0 := start_dyn env s d in
    match d_errors d0 with
    | _ :: _ => (INTEG_ERROR_RUNTIME, with_dyn d0 s)
    | [] =>
        let d1 := pre_loop_dyn env reuse_forces s d0 in
        match d_errors d1 with
        | _ :: _ => (INTEG_ERROR_RUNTIME, with_dyn d1 s)
        | [] =>
            let '(l, s') :=
              integration_loop env (Z.to_nat n_steps) 0
                (Build_LoopVars 0 0 false false) (with_dyn d1 s) in
            finish n_steps l s'
        end
    end.
Proof.
  unfold integrate. cbv zeta. rewrite start_dyn_eq.
  unfold check_runtime_errors.
  change (runtime_errors (with_dyn ?d s)) with (d_errors d).
  destruct (d_errors (start_dyn env s d)) eqn:E0; [|reflexivity].
  change (recalc_forces (with_dyn ?d s)) with (recalc_forces s).
  fold (initial_force_calculation_due reuse_forces s).
  replace (when (initial_force_calculation_due reuse_forces s)
             (initial_force_calculation env) (with_dyn (start_dyn env s d) s))
    with (with_dyn
            (if initial_force_calculation_due reuse_forces s
             then dyn_err (initial_force_errors env)
                    (dyn_log (initial_force_calls s) (start_dyn env s d))
             else start_dyn env s d) s)
    by (destruct (initial_force_calculation_due reuse_forces s); cbn [when];
        [now rewrite initial_force_calculation_dyn | reflexivity]).
  rewrite call_dyn. fold (pre_loop_dyn env reuse_forces s (start_dyn env s d)).
  change (runtime_errors (with_dyn ?d s)) with (d_errors d).
  destruct (d_errors (pre_loop_dyn env reuse_forces s (start_dyn env s d)));
    [|reflexivity].
  destruct (integration_loop _ _ _ _ _) as [l s']. reflexivity.
Qed.

Lemma integrate_eq env n_steps reuse_forces s :
  integrate env n_steps reuse_forces s
  = let d0 := start_dyn env s (dyn_of s) in
    match d_errors d0 with
    | _ :: _ => (INTEG_ERROR_RUNTIME, with_dyn d0 s)
    | [] =>
        let d1 := pre_loop_dyn env reuse_forces s d0 in
        match d_errors d1 with
        | _ :: _ => (INTEG_ERROR_RUNTIME, with_dyn d1 s)
        | [] =>
            let '(l, s') :=
              integration_loop env (Z.to_nat n_steps) 0
                (Build_LoopVars 0 0 false false) (with_dyn d1 s) in
            finish n_steps l s'
        end
    end.
Proof. rewrite <- integrate_dyn, with_dyn_of. reflexivity. Qed.

(** *** What an iteration writes *)

Ltac body_cases env s :=
  unfold body_dyn, body_dyn_1, one_step_dyn; cbv zeta;
  destruct (steepest_descent s); try destruct (LB_active env);
  try destruct (WALBERLA && negb (EK_container_empty env));
  cbn [andb negb].

Lemma body_dyn_ctrl_C env step s d :
  d_ctrl_C (body_dyn env step s d)
  = if sigint_during env step then 1 else d_ctrl_C d.
Proof. body_cases env s; reflexivity. Qed.

Lemma body_dyn_1_ctrl_C env step s d :
  d_ctrl_C (body_dyn_1 env step s d)
  = if sigint_during env step then 1 else d_ctrl_C d.
Proof. unfold body_dyn_1; cbv zeta; destruct (steepest_descent s); reflexivity. Qed.

Lemma body_dyn_sim_time env step s d :
  steepest_descent s = false ->
  d_sim_time (body_dyn env step s d) = (d_sim_time d + time_step s)%float.
Proof.
  intros H. unfold body_dyn, body_dyn_1, one_step_dyn. cbv zeta. rewrite H.
  destruct (LB_active env);
    destruct (WALBERLA && negb (EK_container_empty env)); reflexivity.
Qed.

Lemma body_dyn_errors env step s d :
  d_errors (body_dyn env step s d)
  = d_errors d ++ step_errors env step ++ coupling_errors env s.
Proof.
  unfold coupling_errors. body_cases env s; dyn_compute; cbn [opt];
    rewrite ?app_nil_r, <- ?app_assoc; reflexivity.
Qed.

Lemma body_dyn_1_calls env step s d :
  exists cs, d_calls (body_dyn_1 env step s d) = d_calls d ++ cs.
Proof.
  unfold body_dyn_1; cbv zeta; destruct (steepest_descent s); dyn_compute;
    rewrite <- ?app_assoc; eexists; reflexivity.
Qed.

Lemma body_dyn_calls env step s d :
  exists cs, d_calls (body_dyn env step s d) = d_calls d ++ cs.
Proof.
  body_cases env s; dyn_compute; rewrite <- ?app_assoc; eexists; reflexivity.
Qed.

Lemma early_exit_not_steepest_descent env step s :
  steepest_descent s = false -> early_exit env step s = false.
Proof. unfold early_exit. now intros ->. Qed.

(** *** The loop *)

Lemma steps_done_spec env r : forall step l,
  integrated_steps (steps_done env step r l) = integrated_steps l + Z.of_nat r
  /\ caught_sigint (steps_done env step r l) = caught_sigint l
  /\ caught_error (steps_done env step r l) = caught_error l.
Proof.
  induction r as [|r IH]; intros step l; cbn [steps_done].
  - repeat split; lia.
  - destruct (IH (S step) (step_done env step l)) as (H1 & H2 & H3).
    rewrite H1, H2, H3. cbn [step_done integrated_steps caught_sigint caught_error].
    repeat split; lia.
Qed.

(** Iterations that meet no error, no early exit and no interrupt run
    the body on. *)
Lemma integration_loop_clean env s r : forall r' step l d,
  (forall i, (i < step + r)%nat -> early_exit env i s = false) ->
  (forall i, (i < step + r)%nat -> step_errors env i = []) ->
  coupling_errors env s = [] ->
  d_errors d = [] ->
  (comm_cart_size env =? 1) = false
  \/ (d_ctrl_C d <> 1
      /\ forall i, (i < step + r)%nat -> sigint_during env i = false) ->
  integration_loop env (r + r') step l (with_dyn d s)
  = integration_loop env r' (step + r) (steps_done env step r l)
      (with_dyn (run_dyn env s step r d) s).
Proof.
  induction r as [|r IH]; intros r' step l d Hexit Herr Hc Hd Hsig.
  - now rewrite Nat.add_0_r.
  - cbn [Nat.add integration_loop run_dyn steps_done].
    rewrite integration_loop_body_dyn, Hexit by lia. cbv zeta.
    assert (He : d_errors (body_dyn env step s d) = [])
      by (rewrite body_dyn_errors, Hd, Herr, Hc by lia; reflexivity).
    rewrite He.
    assert (Hs : (comm_cart_size env =? 1)
                 && (d_ctrl_C (body_dyn env step s d) =? 1) = false).
    { destruct Hsig as [-> | [Hne Hs]]; [reflexivity|].
      rewrite body_dyn_ctrl_C, Hs by lia.
      apply andb_false_intro2. now apply Z.eqb_neq. }
    rewrite Hs, <- Nat.add_succ_comm.
    apply IH; try assumption.
    + intros i Hi. apply Hexit. lia.
    + intros i Hi. apply Herr. lia.
    + destruct Hsig as [H | [Hne Hs']]; [now left | right].
      split; [rewrite body_dyn_ctrl_C, Hs' by lia; exact Hne|].
      intros i Hi. apply Hs'. lia.
Qed.


Lemma run_dyn_errors env s r : forall step d,
  (forall i, (i < step + r)%nat -> step_errors env i = []) ->
  coupling_errors env s = [] ->
  d_errors d = [] ->
  d_errors (run_dyn env s step r d) = [].
Proof.
  induction r as [|r IH]; intros step d Herr Hc Hd; cbn [run_dyn]; [exact Hd|].
  apply IH; try assumption.
  - intros i Hi. apply Herr. lia.
  - rewrite body_dyn_errors, Hd, Herr, Hc by lia. reflexivity.
Qed.

Lemma run_dyn_ctrl_C env s r : forall step d,
  (forall i, (i < step + r)%nat -> sigint_during env i = false) ->
  d_ctrl_C (run_dyn env s step r d) = d_ctrl_C d.
Proof.
  induction r as [|r IH]; intros step d Hs; cbn [run_dyn]; [reflexivity|].
  rewrite IH by (intros i Hi; apply Hs; lia).
  rewrite body_dyn_ctrl_C, Hs by lia. reflexivity.
Qed.


(** Whatever happens in the loop, it writes only what a [Dyn] holds and
    appends to the calls; without a signal, it catches none. *)
Lemma integration_loop_any env s r : forall step l d,
  exists l' d',
    integration_loop env r step l (with_dyn d s) = (l', with_dyn d' s)
    /\ (exists cs, d_calls d' = d_calls d ++ cs)
    /\ integrated_steps l <= integrated_steps l'
    /\ ((forall i, sigint_during env i = false) ->
        d_ctrl_C d <> 1 -> caught_sigint l' = caught_sigint l).
Proof.
  induction r as [|r IH]; intros step l d; cbn [integration_loop].
  - exists l, d. repeat split; try lia. exists []. now rewrite app_nil_r.
  - rewrite integration_loop_body_dyn.
    destruct (early_exit env step s).
    { exists l, (body_dyn_1 env step s d). repeat split; try lia.
      apply body_dyn_1_calls. }
    cbv zeta.
    destruct (body_dyn_calls env step s d) as [cs Hcs].
    destruct (d_errors (body_dyn env step s d)).
    + destruct ((comm_cart_size env =? 1)
                && (d_ctrl_C (body_dyn env step s d) =? 1)) eqn:Hs.
      * eexists _, _. split; [reflexivity|].
        split; [eauto|].
        cbn [integrated_steps caught_sigint step_done]. split; [lia|].
        intros Hno Hne. exfalso.
        apply andb_prop in Hs. destruct Hs as [_ Hs]. apply Z.eqb_eq in Hs.
        rewrite body_dyn_ctrl_C, Hno in Hs. contradiction.
      * destruct (IH (S step) (step_done env step l) (body_dyn env step s d))
          as (l' & d' & E & [cs' Hcs'] & Hi & Hsig).
        exists l', d'. split; [exact E|].
        split; [exists (cs ++ cs'); rewrite Hcs', Hcs, app_assoc; reflexivity|].
        cbn [integrated_steps step_done] in Hi. split; [lia|].
        intros Hno Hne. rewrite Hsig; [reflexivity | assumption |].
        rewrite body_dyn_ctrl_C, Hno. exact Hne.
    + eexists _, _. split; [reflexivity|].
      split; [eauto|].
      cbn [integrated_steps caught_sigint step_done]. split; [lia|].
      reflexivity.
Qed.

(** C7. [set_time_step] with a value [<= 0] throws the domain error and
    leaves the state as it was (no notification is logged); with a value
    [> 0] that passes the consistency check of an active lattice fluid it
    stores the value and calls [on_timestep_change]. *)
Theorem set_time_step_spec (env : Env) (v : float) (s : State) :
  ((v <=? 0)%float = true ->
   set_time_step env v s = Throw (domain_error "time_step must be > 0.") s)
  /\ ((0 <? v)%float = true ->
      (LB_active env = true ->
       LB_check_tau_time_step_consistency env (LB_get_tau env) v = None) ->
      exists s',
        set_time_step env v s = Return tt s'
        /\ time_step s' = v
        /\ calls s' = calls s ++ [Extern "on_timestep_change"]).
Proof.
  unfold set_time_step. split.
  - intros ->. reflexivity.
  - intros Hpos Hlb. rewrite (positive_not_leb_zero v Hpos).
    destruct (LB_active env); [rewrite Hlb by reflexivity|];
      eexists; repeat split.
Qed.

(** C1, at the failing input. Switching to steepest descent does not leave
    the placeholder 0 in [default_propagation]: the case of
    [INTEG_METHOD_STEEPEST_DESCENT] stores 0 and, having no [break], falls
    through into the case of [INTEG_METHOD_NVT], which stores Langevin
    translation (plus Langevin rotation with [ROTATION]). The other rows of
    the table are [set_integ_switch_table]. *)
Theorem set_integ_switch_steepest_descent (s : State) :
  exists s',
    set_integ_switch INTEG_METHOD_STEEPEST_DESCENT s = Return tt s'
    /\ default_propagation s'
       = (if ROTATION then TRANS_LANGEVIN + ROT_LANGEVIN else TRANS_LANGEVIN)
    /\ default_propagation s' <> 0.
Proof.
  unfold set_integ_switch, default_propagation_from_integ. cbv zeta.
  change (integ_switch (set_recalc_forces true (set_integ_switch_var ?v s)))
    with v.
  rewrite Z.eqb_refl. eexists. split; [reflexivity|].
  unfold default_propagation_case_NVT. cbv zeta.
  destruct ROTATION; cbn; split; (reflexivity || discriminate).
Qed.

(** The other rows of the table of [default_propagation_from_integ]. *)
Lemma set_integ_switch_table (value : Z) (s : State) :
  NoDup [INTEG_METHOD_STEEPEST_DESCENT; INTEG_METHOD_NVT;
         INTEG_METHOD_NPT_ISO; INTEG_METHOD_BD; INTEG_METHOD_SD] ->
  (value = INTEG_METHOD_NVT ->
   exists s',
     set_integ_switch value s = Return tt s'
     /\ default_propagation s'
        = if ROTATION then TRANS_LANGEVIN + ROT_LANGEVIN else TRANS_LANGEVIN)
  /\ (NPT = true -> value = INTEG_METHOD_NPT_ISO ->
      exists s',
        set_integ_switch value s = Return tt s'
        /\ default_propagation s'
           = if ROTATION then TRANS_LANGEVIN_NPT + ROT_LANGEVIN
             else TRANS_LANGEVIN_NPT)
  /\ (value = INTEG_METHOD_BD ->
      exists s',
        set_integ_switch value s = Return tt s'
        /\ default_propagation s'
           = if ROTATION then TRANS_BROWNIAN + ROT_BROWNIAN
             else TRANS_BROWNIAN)
  /\ (STOKESIAN_DYNAMICS = true -> value = INTEG_METHOD_SD ->
      exists s',
        set_integ_switch value s = Return tt s'
        /\ default_propagation s' = TRANS_STOKESIAN)
  /\ (~ In value [INTEG_METHOD_STEEPEST_DESCENT; INTEG_METHOD_NVT;
                  INTEG_METHOD_NPT_ISO; INTEG_METHOD_BD; INTEG_METHOD_SD] ->
      set_integ_switch value s
      = Throw (runtime_error "Unknown value for integ_switch")
          (set_recalc_forces true (set_integ_switch_var value s))).
Proof.
  intros Hnd.
  assert (Hd : INTEG_METHOD_NVT <> INTEG_METHOD_STEEPEST_DESCENT
               /\ INTEG_METHOD_NPT_ISO <> INTEG_METHOD_STEEPEST_DESCENT
               /\ INTEG_METHOD_NPT_ISO <> INTEG_METHOD_NVT
               /\ INTEG_METHOD_BD <> INTEG_METHOD_STEEPEST_DESCENT
               /\ INTEG_METHOD_BD <> INTEG_METHOD_NVT
               /\ INTEG_METHOD_BD <> INTEG_METHOD_NPT_ISO
               /\ INTEG_METHOD_SD <> INTEG_METHOD_STEEPEST_DESCENT
               /\ INTEG_METHOD_SD <> INTEG_METHOD_NVT
               /\ INTEG_METHOD_SD <> INTEG_METHOD_NPT_ISO
               /\ INTEG_METHOD_SD <> INTEG_METHOD_BD).
  { repeat match goal with
           | H : NoDup (_ :: _) |- _ => inversion H; subst; clear H
           end.
    cbn [In] in *. repeat split; intros E; rewrite E in *; intuition. }
  destruct Hd as (H1 & H2 & H3 & H4 & H5 & H6 & H7 & H8 & H9 & H10).
  unfold set_integ_switch, default_propagation_from_integ,
    default_propagation_case_NVT.
  cbv zeta.
  change (integ_switch (set_recalc_forces true (set_integ_switch_var value s)))
    with value.
  repeat split.
  - intros ->. apply Z.eqb_neq in H1. rewrite H1, Z.eqb_refl.
    eexists. split; [reflexivity|]. destruct ROTATION; reflexivity.
  - intros Hnpt ->. apply Z.eqb_neq in H2, H3.
    rewrite H2, H3, Hnpt, Z.eqb_refl. cbn [andb].
    eexists. split; [reflexivity|]. destruct ROTATION; reflexivity.
  - intros ->. apply Z.eqb_neq in H4, H5, H6.
    rewrite H4, H5, H6, andb_false_r, Z.eqb_refl.
    eexists. split; [reflexivity|]. destruct ROTATION; reflexivity.
  - intros Hsd ->. apply Z.eqb_neq in H7, H8, H9, H10.
    rewrite H7, H8, H9, H10, andb_false_r, Hsd, Z.eqb_refl. cbn [andb].
    eexists. split; reflexivity.
  - intros Hin. cbn [In] in Hin.
    assert (Hv : (value =? INTEG_METHOD_STEEPEST_DESCENT) = false
                 /\ (value =? INTEG_METHOD_NVT) = false
                 /\ (value =? INTEG_METHOD_NPT_ISO) = false
                 /\ (value =? INTEG_METHOD_BD) = false
                 /\ (value =? INTEG_METHOD_SD) = false).
    { repeat split; apply Z.eqb_neq; intros E; apply Hin; rewrite E; tauto. }
    destruct Hv as (-> & -> & -> & -> & ->).
    rewrite !andb_false_r. reflexivity.
Qed.

(** *** Errors before the loop *)

Lemma propagation_sanity_checks_appends x :
  exists e,
    runtime_errors (propagation_sanity_checks x) = runtime_errors x ++ e.
Proof.
  unfold propagation_sanity_checks.
  repeat match goal with
         | |- context [if ?b then _ else _] => destruct b
         end;
    first [ exists []; now rewrite app_nil_r | eexists; reflexivity ].
Qed.

Lemma start_dyn_errors env s d :
  exists e,
    d_errors (start_dyn env s d)
    = runtime_errors
        (integrator_sanity_checks
           (with_dyn (dyn_log [Extern "on_integration_start"] d) s))
      ++ start_errors env ++ e.
Proof.
  unfold start_dyn. cbn [d_errors].
  destruct (propagation_sanity_checks_appends
              (get_used_propagations (on_integration_start env (with_dyn d s))))
    as [e E].
  exists e. rewrite E, app_assoc. f_equal.
  unfold on_integration_start. cbv zeta. rewrite call_dyn.
  rewrite (errors_only_dyn _ integrator_sanity_checks_errors_only).
  rewrite set_runtime_errors_dyn, get_used_propagations_dyn. reflexivity.
Qed.

Lemma integrator_sanity_checks_NPT_LeesEdwards s :
  NPT = true ->
  integ_switch s = INTEG_METHOD_NPT_ISO ->
  INTEG_METHOD_NPT_ISO <> INTEG_METHOD_STEEPEST_DESCENT ->
  INTEG_METHOD_NPT_ISO <> INTEG_METHOD_NVT ->
  box_geo_type s = LEES_EDWARDS ->
  exists e,
    runtime_errors (integrator_sanity_checks s)
    = e ++ ["The NpT integrator cannot use Lees-Edwards"%string].
Proof.
  intros Hnpt Hi Hsd Hnvt Hbox. unfold integrator_sanity_checks. cbv zeta.
  set (s1 := if (time_step s <? 0)%float then _ else s).
  assert (H1 : integ_switch s1 = INTEG_METHOD_NPT_ISO
               /\ box_geo_type s1 = LEES_EDWARDS).
  { subst s1. destruct (time_step s <? 0)%float; split; assumption. }
  destruct H1 as [Hi1 Hb1]. rewrite Hi1, Hnpt.
  apply Z.eqb_neq in Hsd, Hnvt. rewrite Hsd, Hnvt, Z.eqb_refl. cbn [andb].
  set (s2 := if negb (thermo_switch s1 =? THERMO_OFF) && _ then _ else s1).
  assert (Hb2 : box_geo_type s2 = LEES_EDWARDS).
  { subst s2. destruct (negb _ && _); assumption. }
  rewrite Hb2. eexists. reflexivity.
Qed.

(** C6. With the NPT integrator selected and a Lees-Edwards box, the
    sanity check reports that the NpT integrator cannot use Lees-Edwards,
    and [integrate] returns [INTEG_ERROR_RUNTIME] at its first poll: its
    only call is [on_integration_start], and the time and the step counters
    of the solvers are as before. *)
Theorem integrate_NPT_LeesEdwards (env : Env) (n_steps reuse_forces : Z)
  (s : State) :
  NPT = true ->
  INTEG_METHOD_NPT_ISO <> INTEG_METHOD_STEEPEST_DESCENT ->
  INTEG_METHOD_NPT_ISO <> INTEG_METHOD_NVT ->
  integ_switch s = INTEG_METHOD_NPT_ISO ->
  box_geo_type s = LEES_EDWARDS ->
  In "The NpT integrator cannot use Lees-Edwards"%string
    (runtime_errors (integrator_sanity_checks s))
  /\ exists s',
      integrate env n_steps reuse_forces s = (INTEG_ERROR_RUNTIME, s')
      /\ In "The NpT integrator cannot use Lees-Edwards"%string
           (runtime_errors s')
      /\ calls s' = calls s ++ [Extern "on_integration_start"]
      /\ sim_time s' = sim_time s
      /\ fluid_step s' = fluid_step s
      /\ ek_step s' = ek_step s.
Proof.
  intros Hnpt Hsd Hnvt Hi Hbox. split.
  - destruct (integrator_sanity_checks_NPT_LeesEdwards s Hnpt Hi Hsd Hnvt Hbox)
      as [e ->].
    apply in_or_app. right. now left.
  - rewrite integrate_eq. cbv zeta.
    destruct (start_dyn_errors env s (dyn_of s)) as [e2 E].
    destruct (integrator_sanity_checks_NPT_LeesEdwards
                (with_dyn (dyn_log [Extern "on_integration_start"] (dyn_of s)) s)
                Hnpt Hi Hsd Hnvt Hbox) as [e1 E1].
    rewrite E1 in E.
    destruct (d_errors (start_dyn env s (dyn_of s))) as [|m ms] eqn:E0.
    { exfalso. symmetry in E. apply app_eq_nil in E. destruct E as [E _].
      apply app_eq_nil in E. destruct E as [_ E]. discriminate. }
    eexists. split; [reflexivity|].
    cbn [runtime_errors with_dyn]. rewrite E0, E.
    split; [|repeat split].
    apply in_or_app. left. apply in_or_app. right. now left.
Qed.

Lemma runtime_errors_dyn d s : runtime_errors (with_dyn d s) = d_errors d.
Proof. reflexivity. Qed.

Lemma start_eq env s :
  propagation_sanity_checks
    (get_used_propagations (on_integration_start env s))
  = with_dyn (start_dyn env s (dyn_of s)) s.
Proof.
  exact (eq_trans
           (f_equal
              (fun x => propagation_sanity_checks
                          (get_used_propagations (on_integration_start env x)))
              (eq_sym (with_dyn_of s)))
           (start_dyn_eq env (dyn_of s) s)).
Qed.

Lemma check_runtime_errors_dyn d s :
  check_runtime_errors (with_dyn d s) = false -> d_errors d = [].
Proof.
  unfold check_runtime_errors. rewrite runtime_errors_dyn.
  destruct (d_errors d); [reflexivity|discriminate].
Qed.

Lemma first_poll env s :
  check_runtime_errors
    (propagation_sanity_checks
       (get_used_propagations (on_integration_start env s))) = false ->
  d_errors (start_dyn env s (dyn_of s)) = [].
Proof.
  intros H. apply (check_runtime_errors_dyn _ s). now rewrite <- start_eq.
Qed.

(** *** Calls of a whole run *)

Lemma finish_dyn_calls n_steps l s d :
  exists cs, d_calls (finish_dyn n_steps l s d) = d_calls d ++ cs.
Proof.
  unfold finish_dyn. cbv zeta. destruct (caught_sigint l); dyn_compute;
    rewrite <- ?app_assoc; eexists; reflexivity.
Qed.

Lemma set_integ_switch_recalc_forces (value : Z) (s : State) :
  recalc_forces (state_of (set_integ_switch value s)) = true.
Proof.
  unfold set_integ_switch, default_propagation_from_integ,
    default_propagation_case_NVT.
  cbv zeta.
  repeat match goal with
         | |- context [if ?b then _ else _] => destruct b
         end; reflexivity.
Qed.

(** A call that finds the forces dirty and may not reuse them computes
    them before the loop. *)
Lemma integrate_initial_force_calculation env n_steps reuse_forces s :
  recalc_forces s = true ->
  reuse_forces <> INTEG_REUSE_FORCES_ALWAYS ->
  check_runtime_errors
    (propagation_sanity_checks
       (get_used_propagations (on_integration_start env s))) = false ->
  exists rest,
    calls (snd (integrate env n_steps reuse_forces s))
    = calls s ++ [Extern "on_integration_start"]
      ++ initial_force_calls s
      ++ [Extern "lb_lbcoupling_activate"] ++ rest.
Proof.
  intros Hr Hreuse Hpoll.
  rewrite integrate_eq. cbv zeta. rewrite (first_poll env s Hpoll).
  assert (Hdue : initial_force_calculation_due reuse_forces s = true).
  { unfold initial_force_calculation_due. rewrite Hr.
    apply Z.eqb_neq in Hreuse. rewrite Hreuse. apply orb_true_r. }
  assert (Hc : d_calls (pre_loop_dyn env reuse_forces s
                          (start_dyn env s (dyn_of s)))
               = calls s ++ [Extern "on_integration_start"]
                 ++ initial_force_calls s
                 ++ [Extern "lb_lbcoupling_activate"]).
  { unfold pre_loop_dyn. cbv zeta. rewrite Hdue. dyn_compute.
    cbn [start_dyn d_calls dyn_of]. rewrite <- !app_assoc. reflexivity. }
  set (d1 := pre_loop_dyn env reuse_forces s (start_dyn env s (dyn_of s)))
    in *.
  destruct (d_errors d1).
  - destruct (integration_loop_any env s (Z.to_nat n_steps) 0
                (Build_LoopVars 0 0 false false) d1)
      as (l' & d' & E & [cs Hcs] & _).
    rewrite E, finish_dyn_eq. cbn [snd calls with_dyn].
    destruct (finish_dyn_calls n_steps l' s d') as [cs' Hcs'].
    exists (cs ++ cs'). rewrite Hcs', Hcs, Hc, <- !app_assoc. reflexivity.
  - exists []. cbn [snd calls with_dyn]. rewrite Hc, app_nil_r. reflexivity.
Qed.

Lemma force_calc_in_initial_force_calls s :
  In (Extern "force_calc") (initial_force_calls s).
Proof.
  unfold initial_force_calls. apply in_or_app. right.
  apply in_or_app. right. apply in_or_app. left. right. now left.
Qed.

(** C9. Every call of [set_integ_switch], also one that throws, leaves
    [recalc_forces] set; then a call of [integrate] with a policy other
    than [INTEG_REUSE_FORCES_ALWAYS] whose first poll passes computes the
    forces before the loop: its calls start with [on_integration_start],
    the initial force calculation and [lb_lbcoupling_activate]. *)
Theorem set_integ_switch_forces_recalculation (value : Z) (s : State)
  (env : Env) (n_steps reuse_forces : Z) :
  let s1 := state_of (set_integ_switch value s) in
  recalc_forces s1 = true
  /\ (reuse_forces <> INTEG_REUSE_FORCES_ALWAYS ->
      check_runtime_errors
        (propagation_sanity_checks
           (get_used_propagations (on_integration_start env s1))) = false ->
      In (Extern "force_calc") (initial_force_calls s1)
      /\ exists rest,
          calls (snd (integrate env n_steps reuse_forces s1))
          = calls s1 ++ [Extern "on_integration_start"]
            ++ initial_force_calls s1
            ++ [Extern "lb_lbcoupling_activate"] ++ rest).
Proof.
  intros s1.
  assert (Hr : recalc_forces s1 = true)
    by apply set_integ_switch_recalc_forces.
  clearbody s1.
  split; [exact Hr|]. intros Hreuse Hpoll.
  split; [apply force_calc_in_initial_force_calls|].
  now apply integrate_initial_force_calculation.
Qed.

(** *** Chunked integration *)




(** *** Runs without errors *)

Lemma pre_loop_dyn_errors env reuse_forces s d :
  d_errors d = [] -> initial_force_errors env = [] ->
  d_errors (pre_loop_dyn env reuse_forces s d) = [].
Proof.
  intros Hd He. unfold pre_loop_dyn. cbv zeta.
  destruct (initial_force_calculation_due reuse_forces s);
    unfold dyn_log, dyn_err; cbn [d_errors]; rewrite ?Hd, ?He; reflexivity.
Qed.

Lemma pre_loop_dyn_frame env reuse_forces s d :
  d_sim_time (pre_loop_dyn env reuse_forces s d) = d_sim_time d
  /\ d_ctrl_C (pre_loop_dyn env reuse_forces s d) = d_ctrl_C d
  /\ d_fluid_step (pre_loop_dyn env reuse_forces s d) = d_fluid_step d.
Proof.
  unfold pre_loop_dyn. cbv zeta.
  destruct (initial_force_calculation_due reuse_forces s); repeat split.
Qed.

Lemma finish_dyn_frame n_steps l s d :
  d_sim_time (finish_dyn n_steps l s d) = d_sim_time d
  /\ d_ctrl_C (finish_dyn n_steps l s d)
     = (if caught_sigint l then 0 else d_ctrl_C d)
  /\ d_fluid_step (finish_dyn n_steps l s d) = d_fluid_step d.
Proof.
  unfold finish_dyn. cbv zeta. destruct (caught_sigint l); repeat split.
Qed.

(** A call whose polls find no error, and whose first [r] iterations
    meet no error, no early exit and no interrupt, reaches the state
    [run_dyn] of these iterations. *)
Lemma integrate_prefix env n_steps reuse_forces s r r' :
  Z.to_nat n_steps = (r + r')%nat ->
  check_runtime_errors
    (propagation_sanity_checks
       (get_used_propagations (on_integration_start env s))) = false ->
  initial_force_errors env = [] ->
  (forall i, (i < r)%nat -> early_exit env i s = false) ->
  (forall i, (i < r)%nat -> step_errors env i = []) ->
  coupling_errors env s = [] ->
  (comm_cart_size env =? 1) = false
  \/ (ctrl_C s <> 1 /\ forall i, (i < r)%nat -> sigint_during env i = false) ->
  let d1 := pre_loop_dyn env reuse_forces s (start_dyn env s (dyn_of s)) in
  integrate env n_steps reuse_forces s
  = (let '(l, s') :=
       integration_loop env r' r
         (steps_done env 0 r (Build_LoopVars 0 0 false false))
         (with_dyn (run_dyn env s 0 r d1) s) in
     finish n_steps l s')
  /\ d_errors (run_dyn env s 0 r d1) = [].
Proof.
  intros Hn Hpoll Hforce Hexit Herr Hc Hsig d1.
  assert (H0 : d_errors (start_dyn env s (dyn_of s)) = [])
    by now apply first_poll.
  assert (H1 : d_errors d1 = []) by now apply pre_loop_dyn_errors.
  destruct (pre_loop_dyn_frame env reuse_forces s (start_dyn env s (dyn_of s)))
    as (_ & Hctrl & _).
  split; [|now apply run_dyn_errors].
  rewrite integrate_eq. cbv zeta. rewrite H0. fold d1. rewrite H1, Hn.
  rewrite (integration_loop_clean env s r r' 0); try assumption.
  - reflexivity.
  - destruct Hsig as [H | [Hne Hs]]; [now left | right].
    split; [|exact Hs]. fold d1 in Hctrl. rewrite Hctrl. exact Hne.
Qed.



(** *** Counting calls *)

Lemma count_calls_app f a b :
  count_calls f (a ++ b) = (count_calls f a + count_calls f b)%nat.
Proof. unfold count_calls. now rewrite filter_app, length_app. Qed.

Lemma count_calls_opt_other f g b :
  String.eqb g f = false -> count_calls f (opt b (Extern g)) = 0%nat.
Proof. intros H. destruct b; cbn; [now rewrite H | reflexivity]. Qed.

Lemma count_calls_opt_same f b :
  count_calls f (opt b (Extern f)) = if b then 1%nat else 0%nat.
Proof. destruct b; cbn; [now rewrite String.eqb_refl | reflexivity]. Qed.

Lemma count_calls_no_extern f cs :
  Forall (fun c => match c with Extern _ => False | _ => True end) cs ->
  count_calls f cs = 0%nat.
Proof.
  induction 1 as [|c cs Hc _ IH]; [reflexivity|].
  unfold count_calls in *. cbn [filter]. destruct c; try contradiction;
    exact IH.
Qed.

Lemma Forall_flat_map {A B} (P : B -> Prop) (f : A -> list B) l :
  (forall a, Forall P (f a)) -> Forall P (flat_map f l).
Proof.
  intros H. induction l as [|a l IH]; cbn [flat_map]; [constructor|].
  apply Forall_app. split; [apply H | exact IH].
Qed.

Lemma step_1_particle_no_extern dp ppi p :
  Forall (fun c => match c with Extern _ => False | _ => True end)
    (step_1_particle dp ppi p).
Proof.
  unfold step_1_particle. destruct p as [id m].
  destruct (nonzero (Z.land m ppi)); [|constructor].
  repeat (apply Forall_app; split);
    match goal with |- context [if ?b then _ else _] => destruct b end;
    repeat constructor.
Qed.

Lemma step_2_particle_no_extern dp ppi p :
  Forall (fun c => match c with Extern _ => False | _ => True end)
    (step_2_particle dp ppi p).
Proof.
  unfold step_2_particle. destruct p as [id m].
  destruct (nonzero (Z.land m ppi)); [|constructor].
  repeat (apply Forall_app; split);
    match goal with |- context [if ?b then _ else _] => destruct b end;
    repeat constructor.
Qed.

Lemma count_calls_step_1 f s : count_calls f (step_1_calls s) = 0%nat.
Proof.
  apply count_calls_no_extern. unfold step_1_calls.
  repeat (apply Forall_app; split).
  - apply Forall_flat_map, step_1_particle_no_extern.
  - destruct (NPT && _); repeat constructor.
  - destruct (STOKESIAN_DYNAMICS && _); repeat constructor.
Qed.

Lemma count_calls_step_2 f s : count_calls f (step_2_calls s) = 0%nat.
Proof.
  apply count_calls_no_extern. unfold step_2_calls.
  repeat (apply Forall_app; split).
  - apply Forall_flat_map, step_2_particle_no_extern.
  - destruct (NPT && _); repeat constructor.
Qed.

Ltac count_calls :=
  rewrite ?count_calls_app, ?count_calls_step_1, ?count_calls_step_2,
    ?count_calls_opt_same;
  rewrite ?count_calls_opt_other by reflexivity;
  cbn [count_calls filter String.eqb Ascii.eqb Bool.eqb List.length app];
  dyn_compute; try lia.

Lemma body_dyn_philox env step s d :
  count_calls "philox_counter_increment" (d_calls (body_dyn env step s d))
  = S (count_calls "philox_counter_increment" (d_calls d)).
Proof.
  body_cases env s; destruct (box_geo_type s); dyn_compute; count_calls.
Qed.


(** The prologue and the epilogue of [integrate] neither increment the
    RNG counters nor propagate the fluid. *)
Lemma pre_loop_dyn_count env reuse_forces s f :
  f = "philox_counter_increment"%string \/ f = "LB::propagate"%string ->
  count_calls f
    (d_calls (pre_loop_dyn env reuse_forces s (start_dyn env s (dyn_of s))))
  = count_calls f (calls s).
Proof.
  unfold pre_loop_dyn, initial_force_calls. cbv zeta.
  intros [-> | ->]; destruct (initial_force_calculation_due reuse_forces s);
    unfold dyn_log, dyn_err; cbn [start_dyn d_calls dyn_of]; count_calls.
Qed.

Lemma finish_dyn_count n_steps l s d f :
  f = "philox_counter_increment"%string \/ f = "LB::propagate"%string ->
  count_calls f (d_calls (finish_dyn n_steps l s d)) = count_calls f (d_calls d).
Proof.
  unfold finish_dyn. cbv zeta.
  intros [-> | ->]; destruct (caught_sigint l); destruct (box_geo_type s);
    dyn_compute; count_calls.
Qed.

(** *** The step counter of the lattice fluid *)

Lemma counter_next_mod c n :
  1 <= n -> 0 <= c < n -> counter_next c n = (c + 1) mod n.
Proof.
  intros Hn Hc. unfold counter_next, counter_fires.
  destruct (Z.geb_spec (c + 1) n) as [H|H].
  - replace (c + 1) with n by lia. now rewrite Z.mod_same by lia.
  - now rewrite Z.mod_small by lia.
Qed.

Lemma counter_fires_div c n :
  1 <= n -> 0 <= c < n ->
  (if counter_fires c n then 1 else 0) = (c + 1) / n.
Proof.
  intros Hn Hc. unfold counter_fires.
  destruct (Z.geb_spec (c + 1) n) as [H|H].
  - replace (c + 1) with n by lia. now rewrite Z.div_same by lia.
  - now rewrite Z.div_small by lia.
Qed.

Lemma body_dyn_fluid env step s d :
  steepest_descent s = false ->
  LB_active env = true ->
  WALBERLA && negb (EK_container_empty env) = false ->
  d_fluid_step (body_dyn env step s d)
  = counter_next (d_fluid_step d) (LB_get_steps_per_md_step env (time_step s))
  /\ count_calls "LB::propagate" (d_calls (body_dyn env step s d))
     = (count_calls "LB::propagate" (d_calls d)
        + if counter_fires (d_fluid_step d)
               (LB_get_steps_per_md_step env (time_step s))
          then 1 else 0)%nat.
Proof.
  intros Hsd Hlb Hek. unfold body_dyn, body_dyn_1, one_step_dyn. cbv zeta.
  rewrite Hsd, Hlb, Hek. cbn [andb]. split; [reflexivity|].
  destruct (box_geo_type s); dyn_compute; count_calls.
Qed.

Lemma run_dyn_fluid env s n r : forall step d,
  steepest_descent s = false ->
  LB_active env = true ->
  WALBERLA && negb (EK_container_empty env) = false ->
  LB_get_steps_per_md_step env (time_step s) = n ->
  1 <= n -> 0 <= d_fluid_step d < n ->
  d_fluid_step (run_dyn env s step r d) = (d_fluid_step d + Z.of_nat r) mod n
  /\ count_calls "LB::propagate" (d_calls (run_dyn env s step r d))
     = (count_calls "LB::propagate" (d_calls d)
        + Z.to_nat ((d_fluid_step d + Z.of_nat r) / n))%nat.
Proof.
  induction r as [|r IH]; intros step d Hsd Hlb Hek HN Hn Hc; cbn [run_dyn].
  - rewrite Z.add_0_r, Z.mod_small, Z.div_small by lia. split; [reflexivity|].
    cbn. lia.
  - destruct (body_dyn_fluid env step s d Hsd Hlb Hek) as [Hf Hcount].
    rewrite HN in Hf, Hcount.
    assert (Hc' : 0 <= d_fluid_step (body_dyn env step s d) < n).
    { rewrite Hf, counter_next_mod by lia. apply Z.mod_pos_bound. lia. }
    destruct (IH (S step) (body_dyn env step s d) Hsd Hlb Hek HN Hn Hc')
      as [IH1 IH2].
    rewrite IH1, IH2, Hcount, Hf, counter_next_mod by lia.
    set (c := d_fluid_step d) in *.
    assert (Hdiv : (c + Z.of_nat (S r)) / n
                   = (c + 1) / n + ((c + 1) mod n + Z.of_nat r) / n).
    { pose proof (Z.div_mod (c + 1) n) as E.
      replace (c + Z.of_nat (S r))
        with ((c + 1) / n * n + ((c + 1) mod n + Z.of_nat r)) by lia.
      apply Z.div_add_l. lia. }
    split.
    + rewrite Z.add_mod_idemp_l by lia. f_equal. lia.
    + rewrite Hdiv, <- (counter_fires_div c n) by lia.
      assert (0 <= ((c + 1) mod n + Z.of_nat r) / n).
      { apply Z.div_pos; [|lia].
        pose proof (Z.mod_pos_bound (c + 1) n). lia. }
      destruct (counter_fires c n); lia.
Qed.

(** C8. With only the lattice fluid active and [n] steps per MD step, the
    block of the loop body increments [fluid_step] and, when it reaches
    [n], resets it to 0 and calls [LB::propagate]; over a full run of
    [n_steps] MD steps outside steepest descent, started with
    [0 <= fluid_step < n], [LB::propagate] is called
    [(fluid_step + n_steps) / n] times and [fluid_step] ends at
    [(fluid_step + n_steps) mod n]: once every [n] steps. *)
Theorem lattice_fluid_propagation (env : Env) (n_steps reuse_forces : Z)
  (s : State) (n : Z) :
  integ_switch s <> INTEG_METHOD_STEEPEST_DESCENT ->
  LB_active env = true ->
  WALBERLA && negb (EK_container_empty env) = false ->
  LB_get_steps_per_md_step env (time_step s) = n ->
  1 <= n ->
  0 <= fluid_step s < n ->
  0 <= n_steps ->
  check_runtime_errors
    (propagation_sanity_checks
       (get_used_propagations (on_integration_start env s))) = false ->
  initial_force_errors env = [] ->
  (forall i, step_errors env i = []) ->
  comm_cart_size env <> 1
  \/ (ctrl_C s <> 1 /\ forall i, sigint_during env i = false) ->
  (forall s0,
      time_step s0 = time_step s ->
      let s1 := propagate_one_step_functionalities env s0 in
      fluid_step s1
      = (if fluid_step s0 + 1 >=? n then 0 else fluid_step s0 + 1)
      /\ count_calls "LB::propagate" (calls s1)
         = (count_calls "LB::propagate" (calls s0)
            + if fluid_step s0 + 1 >=? n then 1 else 0)%nat)
  /\ exists s',
      integrate env n_steps reuse_forces s = (n_steps, s')
      /\ fluid_step s' = (fluid_step s + n_steps) mod n
      /\ count_calls "LB::propagate" (calls s')
         = (count_calls "LB::propagate" (calls s)
            + Z.to_nat ((fluid_step s + n_steps) / n))%nat.
Proof.
  intros Hsd Hlb Hek HN Hn Hc Hsteps Hpoll Hforce Herr Hsig. split.
  { intros s0 Ht s1. subst s1.
    pose proof (one_step_functionalities_dyn env (dyn_of s0) s0) as E.
    rewrite with_dyn_of in E. rewrite E. unfold one_step_dyn. cbv zeta.
    rewrite Hlb, Hek, Ht, HN. cbn [andb]. unfold counter_next, counter_fires.
    cbn [fluid_step calls with_dyn]. split; [reflexivity|].
    dyn_compute. cbn [dyn_of d_calls d_fluid_step]. count_calls. }
  apply Z.eqb_neq in Hsd. fold (steepest_descent s) in Hsd.
  assert (Hcoupling : coupling_errors env s = []).
  { unfold coupling_errors. rewrite Hek, andb_false_r. reflexivity. }
  destruct (integrate_prefix env n_steps reuse_forces s (Z.to_nat n_steps) 0)
    as [E _]; try assumption; auto using early_exit_not_steepest_descent.
  { destruct Hsig as [H | [H1 H2]]; [left; now apply Z.eqb_neq | right; auto]. }
  rewrite E. cbn [integration_loop]. rewrite finish_dyn_eq.
  destruct (steps_done_spec env (Z.to_nat n_steps) 0%nat
              (Build_LoopVars 0 0 false false)) as (Hi & Hs & He).
  rewrite Hs, He, Hi. cbn [caught_sigint caught_error integrated_steps].
  rewrite Z2Nat.id by assumption. eexists. split; [reflexivity|].
  cbn [fluid_step calls with_dyn].
  set (d1 := pre_loop_dyn env reuse_forces s (start_dyn env s (dyn_of s))).
  destruct (finish_dyn_frame n_steps
              (steps_done env 0 (Z.to_nat n_steps)
                 (Build_LoopVars 0 0 false false)) s
              (run_dyn env s 0 (Z.to_nat n_steps) d1)) as (_ & _ & ->).
  rewrite finish_dyn_count by now right.
  destruct (pre_loop_dyn_frame env reuse_forces s (start_dyn env s (dyn_of s)))
    as (_ & _ & Hf).
  fold d1 in Hf. cbn [start_dyn d_fluid_step dyn_of] in Hf.
  destruct (run_dyn_fluid env s n (Z.to_nat n_steps) 0%nat d1)
    as [H1 H2]; try assumption; [rewrite Hf; exact Hc|].
  rewrite H1, H2, Hf, Z2Nat.id by assumption.
  unfold d1. rewrite pre_loop_dyn_count by now right. split; reflexivity.
Qed.

(** *** Dispatch *)

Lemma nonzero_true z : nonzero z = true <-> z <> 0.
Proof. unfold nonzero. destruct (Z.eqb_spec z 0); cbn; intuition congruence. Qed.

Lemma land_subset m ppi F :
  Z.land ppi F = F -> Z.land m F <> 0 -> Z.land m ppi <> 0.
Proof.
  intros Hsub Hm H0. apply Hm.
  rewrite <- Hsub, Z.land_assoc, H0. apply Z.land_0_l.
Qed.

Lemma in_combine_seq {A} (l : list A) : forall a i x,
  In (i, x) (combine (seq a (List.length l)) l)
  <-> (a <= i)%nat /\ nth_error l (i - a) = Some x.
Proof.
  induction l as [|y l IH]; intros a i x; cbn [List.length seq combine In].
  - split; [contradiction|]. intros [_ H]. destruct (i - a)%nat; discriminate.
  - rewrite IH. split.
    + intros [[= <- <-] | [Hle Hn]].
      * split; [lia|]. now rewrite Nat.sub_diag.
      * split; [lia|]. replace (i - a)%nat with (S (i - S a)) by lia. exact Hn.
    + intros [Hle Hn]. destruct (Nat.eq_dec a i) as [<-|Hne].
      * left. rewrite Nat.sub_diag in Hn. cbn in Hn. congruence.
      * right. split; [lia|].
        replace (i - a)%nat with (S (i - S a)) in Hn by lia. exact Hn.
Qed.

Lemma in_local_particles s i m :
  In (i, m) (local_particles s) <-> nth_error (particles s) i = Some m.
Proof.
  unfold local_particles. rewrite in_combine_seq, Nat.sub_0_r.
  intuition lia.
Qed.

Lemma in_filter_range c s i mask :
  nth_error (particles s) i = Some mask ->
  In i (filter_range c s) <-> Z.land mask c <> 0.
Proof.
  intros Hn. unfold filter_range. rewrite in_map_iff. split.
  - intros ([j m] & <- & Hin). apply filter_In in Hin. destruct Hin as [Hin Hc].
    apply in_local_particles in Hin. cbn [fst snd] in *.
    rewrite Hn in Hin. injection Hin as <-. now apply nonzero_true.
  - intros Hc. exists (i, mask). split; [reflexivity|].
    apply filter_In. split; [now apply in_local_particles|].
    now apply nonzero_true.
Qed.

Lemma should_propagate_with_applies dp mask F :
  should_propagate_with dp mask F = true <-> applies dp mask F.
Proof.
  unfold should_propagate_with, applies.
  rewrite orb_true_iff, andb_true_iff, !nonzero_true. reflexivity.
Qed.

(** A family of the loop passes the test that guards the loop body. *)
Lemma applies_guard base dp mask F :
  Z.land base F = F ->
  Z.land (base + TRANS_SYSTEM_DEFAULT) F = F ->
  Z.land (base + TRANS_SYSTEM_DEFAULT) TRANS_SYSTEM_DEFAULT
  = TRANS_SYSTEM_DEFAULT ->
  applies dp mask F ->
  nonzero (Z.land mask (splittable base dp)) = true.
Proof.
  intros Hb Hb' Hd Happ. apply nonzero_true. unfold splittable.
  destruct (nonzero (Z.land base dp)) eqn:Hs.
  - destruct Happ as [H | [_ H]].
    + exact (land_subset mask _ F Hb' H).
    + exact (land_subset mask _ TRANS_SYSTEM_DEFAULT Hd H).
  - destruct Happ as [H | [H _]]; [exact (land_subset mask _ F Hb H)|].
    exfalso. apply (land_subset dp base F Hb) in H.
    rewrite Z.land_comm in H. apply nonzero_true in H. congruence.
Qed.

Lemma in_step_1_particle dp mask i j F K :
  In (F, K) step_1_kernels ->
  In (Propagate K i)
    (step_1_particle dp
       (splittable
          (TRANS_LANGEVIN + ROT_LANGEVIN + TRANS_BROWNIAN + ROT_BROWNIAN) dp)
       (j, mask))
  <-> i = j /\ applies dp mask F.
Proof.
  intros HK. unfold step_1_particle.
  destruct (nonzero (Z.land mask (splittable _ dp))) eqn:Hg.
  - rewrite <- should_propagate_with_applies.
    cbn [step_1_kernels In] in HK.
    repeat destruct HK as [[= <- <-] | HK]; try contradiction;
      destruct (should_propagate_with dp mask TRANS_LANGEVIN);
      destruct (should_propagate_with dp mask ROT_LANGEVIN);
      destruct (should_propagate_with dp mask TRANS_BROWNIAN);
      destruct (should_propagate_with dp mask ROT_BROWNIAN);
      cbn [app In]; intuition congruence.
  - split; [contradiction|]. intros [_ Happ]. exfalso.
    assert (H : nonzero
                  (Z.land mask
                     (splittable
                        (TRANS_LANGEVIN + ROT_LANGEVIN + TRANS_BROWNIAN
                         + ROT_BROWNIAN) dp)) = true).
    { cbn [step_1_kernels In] in HK.
      repeat destruct HK as [[= <- <-] | HK]; try contradiction;
        (eapply applies_guard; [| | | exact Happ]; reflexivity). }
    congruence.
Qed.

Lemma in_step_2_particle dp mask i j F K :
  In (F, K) step_2_kernels ->
  In (Propagate K i)
    (step_2_particle dp (splittable (TRANS_LANGEVIN + ROT_LANGEVIN) dp)
       (j, mask))
  <-> i = j /\ applies dp mask F.
Proof.
  intros HK. unfold step_2_particle.
  destruct (nonzero (Z.land mask (splittable _ dp))) eqn:Hg.
  - rewrite <- should_propagate_with_applies.
    cbn [step_2_kernels In] in HK.
    repeat destruct HK as [[= <- <-] | HK]; try contradiction;
      destruct (should_propagate_with dp mask TRANS_LANGEVIN);
      destruct (should_propagate_with dp mask ROT_LANGEVIN);
      cbn [app In]; intuition congruence.
  - split; [contradiction|]. intros [_ Happ]. exfalso.
    assert (H : nonzero
                  (Z.land mask
                     (splittable (TRANS_LANGEVIN + ROT_LANGEVIN) dp)) = true).
    { cbn [step_2_kernels In] in HK.
      repeat destruct HK as [[= <- <-] | HK]; try contradiction;
        (eapply applies_guard; [| | | exact Happ]; reflexivity). }
    congruence.
Qed.

Lemma in_opt {A} (b : bool) (x y : A) : In y (opt b x) <-> b = true /\ x = y.
Proof. destruct b; cbn; intuition congruence. Qed.

Lemma in_step_1_calls s i mask F K :
  nth_error (particles s) i = Some mask ->
  In (F, K) step_1_kernels ->
  In (Propagate K i) (step_1_calls s) <-> applies (default_propagation s) mask F.
Proof.
  intros Hn HK. unfold step_1_calls. rewrite !in_app_iff, !in_opt, in_flat_map.
  split.
  - intros [([j m] & Hin & Hp) | [[_ [=]] | [_ [=]]]].
    apply (in_step_1_particle _ _ _ _ _ _ HK) in Hp. destruct Hp as [<- Happ].
    apply in_local_particles in Hin. rewrite Hn in Hin.
    injection Hin as <-. exact Happ.
  - intros Happ. left. exists (i, mask).
    split; [now apply in_local_particles|].
    apply (in_step_1_particle _ _ _ _ _ _ HK). now split.
Qed.

Lemma in_step_2_calls s i mask F K :
  nth_error (particles s) i = Some mask ->
  In (F, K) step_2_kernels ->
  In (Propagate K i) (step_2_calls s) <-> applies (default_propagation s) mask F.
Proof.
  intros Hn HK. unfold step_2_calls. rewrite !in_app_iff, !in_opt, in_flat_map.
  split.
  - intros [([j m] & Hin & Hp) | [_ [=]]].
    apply (in_step_2_particle _ _ _ _ _ _ HK) in Hp. destruct Hp as [<- Happ].
    apply in_local_particles in Hin. rewrite Hn in Hin.
    injection Hin as <-. exact Happ.
  - intros Happ. left. exists (i, mask).
    split; [now apply in_local_particles|].
    apply (in_step_2_particle _ _ _ _ _ _ HK). now split.
Qed.

Lemma flat_map_no_range {A} (f : A -> list Call) l k range :
  (forall a, ~ In (PropagateRange k range) (f a)) ->
  ~ In (PropagateRange k range) (flat_map f l).
Proof.
  intros H Hin. apply in_flat_map in Hin. destruct Hin as (a & _ & Ha).
  exact (H a Ha).
Qed.

Lemma step_1_particle_no_range dp ppi p k range :
  ~ In (PropagateRange k range) (step_1_particle dp ppi p).
Proof.
  intros Hin. unfold step_1_particle in Hin. destruct p as [id m].
  destruct (nonzero (Z.land m ppi)); [|contradiction].
  repeat (apply in_app_or in Hin; destruct Hin as [Hin|Hin]);
    match type of Hin with
    | context [if ?b then _ else _] => destruct b
    end; cbn in Hin; intuition discriminate.
Qed.

Lemma stokesian_runs_on s i mask :
  nth_error (particles s) i = Some mask ->
  runs_on stokesian_dynamics_step_1 i (step_1_calls s)
  <-> STOKESIAN_DYNAMICS = true
      /\ Z.land (default_propagation s) TRANS_STOKESIAN <> 0
      /\ Z.land mask (TRANS_STOKESIAN + TRANS_SYSTEM_DEFAULT) <> 0.
Proof.
  intros Hn. unfold runs_on, step_1_calls. split.
  - intros (range & Hin & Hi).
    rewrite !in_app_iff, !in_opt in Hin.
    destruct Hin as [Hin | [[_ [=]] | [Hb [= <-]]]].
    + exfalso. revert Hin. apply flat_map_no_range.
      intros a. apply step_1_particle_no_range.
    + apply andb_prop in Hb. destruct Hb as [Hb1 Hb2].
      apply nonzero_true in Hb2.
      apply (in_filter_range _ _ _ _ Hn) in Hi. auto.
  - intros (Hb1 & Hb2 & Hm). eexists. split.
    + rewrite !in_app_iff, !in_opt. right. right. split; [|reflexivity].
      apply andb_true_intro. split; [exact Hb1 | now apply nonzero_true].
    + now apply (in_filter_range _ _ _ _ Hn).
Qed.

Lemma npt_runs_on s i mask :
  nth_error (particles s) i = Some mask ->
  runs_on velocity_verlet_npt_step_1 i (step_1_calls s)
  <-> NPT = true
      /\ Z.land (default_propagation s) TRANS_LANGEVIN_NPT <> 0
      /\ Z.land mask (TRANS_SYSTEM_DEFAULT + TRANS_LANGEVIN_NPT) <> 0.
Proof.
  intros Hn. unfold runs_on, step_1_calls, npt_range. split.
  - intros (range & Hin & Hi).
    rewrite !in_app_iff, !in_opt in Hin.
    destruct Hin as [Hin | [[Hb [= <-]] | [_ [=]]]].
    + exfalso. revert Hin. apply flat_map_no_range.
      intros a. apply step_1_particle_no_range.
    + apply andb_prop in Hb. destruct Hb as [Hb1 Hb2].
      apply nonzero_true in Hb2.
      apply (in_filter_range _ _ _ _ Hn) in Hi. auto.
  - intros (Hb1 & Hb2 & Hm). eexists. split.
    + rewrite !in_app_iff, !in_opt. right. left. split; [|reflexivity].
      apply andb_true_intro. split; [exact Hb1 | now apply nonzero_true].
    + now apply (in_filter_range _ _ _ _ Hn).
Qed.

Lemma calls_integrator_step_1 env step s :
  integ_switch s <> INTEG_METHOD_STEEPEST_DESCENT ->
  calls (snd (integrator_step_1 env step s)) = calls s ++ step_1_calls s.
Proof.
  intros H. apply Z.eqb_neq in H.
  pose proof (integrator_step_1_dyn env step (dyn_of s) s) as E.
  rewrite with_dyn_of in E. rewrite E. unfold steepest_descent. rewrite H.
  reflexivity.
Qed.

Lemma calls_integrator_step_2 s :
  integ_switch s <> INTEG_METHOD_STEEPEST_DESCENT ->
  calls (integrator_step_2 s) = calls s ++ step_2_calls s.
Proof.
  intros H. apply Z.eqb_neq in H.
  pose proof (integrator_step_2_dyn (dyn_of s) s) as E.
  rewrite with_dyn_of in E. rewrite E. unfold steepest_descent. rewrite H.
  reflexivity.
Qed.

(** C5, amended. Outside steepest descent, phase 1 logs the kernels
    [step_1_calls] and phase 2 the kernels [step_2_calls]. For a particle
    [i] of mask [mask], the kernel of each family dispatched per particle
    (Langevin and Brownian translation and rotation in phase 1, Langevin
    translation and rotation in phase 2) runs exactly when the rule
    [applies] holds, which is what [should_propagate_with] tests. The
    Stokesian and the NPT kernel run on the particle exactly when the
    family is compiled in and part of [default_propagation], and the mask
    carries the flag of the family or [TRANS_SYSTEM_DEFAULT]. For a particle
    tagged [TRANS_SYSTEM_DEFAULT] only, a per-particle kernel runs exactly
    when its family is in [default_propagation]. *)
Theorem propagation_dispatch (env : Env) (step : nat) (s : State) (i : nat)
  (mask : Z) :
  integ_switch s <> INTEG_METHOD_STEEPEST_DESCENT ->
  nth_error (particles s) i = Some mask ->
  let phase_1 := step_1_calls s in
  let phase_2 := step_2_calls s in
  calls (snd (integrator_step_1 env step s)) = calls s ++ phase_1
  /\ calls (integrator_step_2 s) = calls s ++ phase_2
  /\ (forall F,
         should_propagate_with (default_propagation s) mask F = true
         <-> applies (default_propagation s) mask F)
  /\ (forall F K,
         In (F, K) step_1_kernels ->
         In (Propagate K i) phase_1 <-> applies (default_propagation s) mask F)
  /\ (forall F K,
         In (F, K) step_2_kernels ->
         In (Propagate K i) phase_2 <-> applies (default_propagation s) mask F)
  /\ (runs_on stokesian_dynamics_step_1 i phase_1
      <-> STOKESIAN_DYNAMICS = true
          /\ Z.land (default_propagation s) TRANS_STOKESIAN <> 0
          /\ Z.land mask (TRANS_STOKESIAN + TRANS_SYSTEM_DEFAULT) <> 0)
  /\ (runs_on velocity_verlet_npt_step_1 i phase_1
      <-> NPT = true
          /\ Z.land (default_propagation s) TRANS_LANGEVIN_NPT <> 0
          /\ Z.land mask (TRANS_SYSTEM_DEFAULT + TRANS_LANGEVIN_NPT) <> 0)
  /\ (mask = TRANS_SYSTEM_DEFAULT ->
      forall F K,
        In (F, K) step_1_kernels ->
        In (Propagate K i) phase_1 <-> Z.land (default_propagation s) F <> 0).
Proof.
  intros Hsd Hn phase_1 phase_2. subst phase_1 phase_2.
  split; [now apply calls_integrator_step_1|].
  split; [now apply calls_integrator_step_2|].
  split; [intros F; apply should_propagate_with_applies|].
  split; [intros F K HK; now apply in_step_1_calls|].
  split; [intros F K HK; now apply in_step_2_calls|].
  split; [now apply stokesian_runs_on|].
  split; [now apply npt_runs_on|].
  intros -> F K HK. rewrite (in_step_1_calls s i _ F K Hn HK).
  unfold applies. cbn [step_1_kernels In] in HK.
  repeat destruct HK as [[= <- <-] | HK]; try contradiction;
    cbn; intuition congruence.
Qed.

(** *** Interrupts *)



(** ** Further properties of the integrator *)

(** *** Propagations in use *)

Lemma land_fold_lor (m : Z) (ps : list Z) : forall a,
  Z.land (fold_left Z.lor ps a) m <> 0
  <-> Z.land a m <> 0 \/ exists p, In p ps /\ Z.land p m <> 0.
Proof.
  induction ps as [|p ps IH]; intros a; cbn [fold_left In].
  - split; [tauto | intros [H|(p & [] & _)]; exact H].
  - rewrite IH, Z.land_lor_distr_l, Z.lor_eq_0_iff. split.
    + intros [H|(q & Hq & H)].
      * destruct (Z.eq_dec (Z.land a m) 0) as [E|E]; [|now left].
        right. exists p. split; [now left|]. tauto.
      * right. exists q. split; [now right | exact H].
    + intros [H|(q & [<-|Hq] & H)].
      * left. tauto.
      * left. tauto.
      * right. exists q. tauto.
Qed.

Lemma used_by_in_use (s : State) (m : Z) :
  Z.land (used_by s) m <> 0 <-> in_use s m.
Proof.
  unfold used_by, in_use. cbv zeta.
  pose proof (land_fold_lor TRANS_SYSTEM_DEFAULT (particles s) 0) as Hd.
  pose proof (land_fold_lor m (particles s) 0) as Hm.
  rewrite Z.land_0_l in Hd, Hm.
  destruct (nonzero (Z.land (fold_left Z.lor (particles s) 0)
                       TRANS_SYSTEM_DEFAULT)) eqn:E.
  - apply nonzero_true in E.
    rewrite Z.land_lor_distr_l, Z.lor_eq_0_iff. split.
    + intros H.
      destruct (Z.eq_dec (Z.land (fold_left Z.lor (particles s) 0) m) 0)
        as [E0|E0].
      * right. split; [tauto|]. tauto.
      * left. tauto.
    + intros [H|[_ H]]; tauto.
  - assert (Hn : ~ exists p, In p (particles s)
                             /\ Z.land p TRANS_SYSTEM_DEFAULT <> 0).
    { intros H. assert (Hz : nonzero (Z.land (fold_left Z.lor (particles s) 0)
                                        TRANS_SYSTEM_DEFAULT) = true)
        by (apply nonzero_true; tauto).
      congruence. }
    tauto.
Qed.

Lemma used_propagations_get_used_propagations (s : State) :
  get_used_propagations s = set_used_propagations (used_by s) s.
Proof.
  pose proof (get_used_propagations_dyn (dyn_of s) s) as E.
  rewrite with_dyn_of in E. rewrite E. destruct s; reflexivity.
Qed.

(** X3. [get_used_propagations] writes [used_propagations] and nothing else;
    whatever it held before, a mode is in it afterwards exactly when a
    local particle carries the mode, or a local particle is tagged
    [TRANS_SYSTEM_DEFAULT] and the default propagation carries the mode. *)
Theorem get_used_propagations_spec (s : State) (mode : Z) :
  get_used_propagations s
  = set_used_propagations (used_propagations (get_used_propagations s)) s
  /\ (Z.land (used_propagations (get_used_propagations s)) mode <> 0
      <-> in_use s mode).
Proof.
  rewrite used_propagations_get_used_propagations.
  split; [reflexivity|].
  change (used_propagations (set_used_propagations (used_by s) s))
    with (used_by s).
  apply used_by_in_use.
Qed.

(** X4. After [get_used_propagations], [propagation_sanity_checks] reports
    its error exactly when Langevin NPT translation is in use together
    with Brownian, Langevin or Stokesian translation; it reports it once,
    after the errors already collected. *)
Theorem propagation_sanity_checks_spec (s : State) :
  let s' := propagation_sanity_checks (get_used_propagations s) in
  let conflict :=
    in_use s TRANS_LANGEVIN_NPT
    /\ in_use s (TRANS_BROWNIAN + TRANS_LANGEVIN + TRANS_STOKESIAN) in
  (conflict ->
   runtime_errors s'
   = runtime_errors s
     ++ [" Langevin NPT translation is incompatible with other translation modes"%string])
  /\ (~ conflict -> runtime_errors s' = runtime_errors s).
Proof.
  cbv zeta. rewrite used_propagations_get_used_propagations.
  unfold propagation_sanity_checks.
  change (used_propagations (set_used_propagations (used_by s) s))
    with (used_by s).
  pose proof (used_by_in_use s TRANS_LANGEVIN_NPT) as H1.
  pose proof (used_by_in_use s
                (TRANS_BROWNIAN + TRANS_LANGEVIN + TRANS_STOKESIAN)) as H2.
  unfold nonzero.
  destruct (Z.eqb_spec (Z.land (used_by s) TRANS_LANGEVIN_NPT) 0) as [E1|E1];
    [|destruct (Z.eqb_spec
                  (Z.land (used_by s)
                     (TRANS_BROWNIAN + TRANS_LANGEVIN + TRANS_STOKESIAN)) 0)
        as [E2|E2]];
    cbn [negb]; (split; [intros [Ha Hb] | intros Hn]);
    try reflexivity; tauto.
Qed.

(** *** Sanity checks *)

Lemma appends_nil (s : State) :
  s = set_runtime_errors (runtime_errors s ++ []) s.
Proof. destruct s. cbn. now rewrite app_nil_r. Qed.

Lemma appends_msg (msg : string) (s s' : State) (e : list string) :
  s' = set_runtime_errors (runtime_errors s ++ e) s ->
  runtimeErrorMsg msg s' = set_runtime_errors (runtime_errors s ++ e ++ [msg]) s.
Proof. intros ->. destruct s. cbn. now rewrite app_assoc. Qed.

Ltac appends :=
  repeat (match goal with
          | |- context [if ?b then _ else _] => destruct b
          end; cbv iota);
  (eexists; split;
   [repeat apply appends_msg; apply appends_nil | cbn [List.length app]; lia]).

Lemma integrator_sanity_checks_appends (s : State) :
  exists e,
    integrator_sanity_checks s = set_runtime_errors (runtime_errors s ++ e) s
    /\ (List.length e <= 3)%nat.
Proof. unfold integrator_sanity_checks. cbv zeta. appends. Qed.

(** X5. The sanity checks only report. [integrator_sanity_checks] adds at
    most three messages to the runtime-error collector and
    [propagation_sanity_checks] at most one; both keep the messages already
    collected, in order, and change nothing else. *)
Theorem sanity_checks_only_report (s : State) :
  (exists e,
      integrator_sanity_checks s
      = set_runtime_errors (runtime_errors s ++ e) s
      /\ (List.length e <= 3)%nat)
  /\ (exists e,
         propagation_sanity_checks s
         = set_runtime_errors (runtime_errors s ++ e) s
         /\ (List.length e <= 1)%nat).
Proof.
  split; [apply integrator_sanity_checks_appends|].
  unfold propagation_sanity_checks. appends.
Qed.

(** *** Refusals at the first poll *)

Lemma integrate_first_poll (env : Env) (n_steps reuse_forces : Z) (s : State) :
  d_errors (start_dyn env s (dyn_of s)) <> [] ->
  integrate env n_steps reuse_forces s
  = (INTEG_ERROR_RUNTIME, with_dyn (start_dyn env s (dyn_of s)) s).
Proof.
  intros H. rewrite integrate_eq. cbv zeta.
  destruct (d_errors (start_dyn env s (dyn_of s))); [congruence | reflexivity].
Qed.

Lemma on_integration_start_dyn (env : Env) (d : Dyn) (s : State) :
  exists d', on_integration_start env (with_dyn d s) = with_dyn d' s.
Proof.
  unfold on_integration_start. cbv zeta. rewrite call_dyn.
  rewrite (errors_only_dyn _ integrator_sanity_checks_errors_only).
  rewrite set_runtime_errors_dyn. eexists. reflexivity.
Qed.

Lemma propagation_sanity_checks_used (s : State) :
  runtime_errors (propagation_sanity_checks (get_used_propagations s))
  = runtime_errors s
    ++ opt (nonzero (Z.land (used_by s) TRANS_LANGEVIN_NPT)
            && nonzero (Z.land (used_by s)
                          (TRANS_BROWNIAN + TRANS_LANGEVIN + TRANS_STOKESIAN)))
         " Langevin NPT translation is incompatible with other translation modes"%string.
Proof.
  rewrite used_propagations_get_used_propagations.
  unfold propagation_sanity_checks.
  change (used_propagations (set_used_propagations (used_by s) s))
    with (used_by s).
  destruct (nonzero (Z.land (used_by s) TRANS_LANGEVIN_NPT));
    [destruct (nonzero (Z.land (used_by s) _))|];
    cbn [andb opt]; try reflexivity; cbn; now rewrite app_nil_r.
Qed.

Lemma start_dyn_errors_entry (env : Env) (s : State) :
  exists e1 e2,
    d_errors (start_dyn env s (dyn_of s))
    = (runtime_errors s ++ e1) ++ start_errors env ++ e2
    /\ runtime_errors
         (integrator_sanity_checks
            (with_dyn (dyn_log [Extern "on_integration_start"] (dyn_of s)) s))
       = runtime_errors s ++ e1.
Proof.
  destruct (start_dyn_errors env s (dyn_of s)) as [e2 E].
  destruct (integrator_sanity_checks_appends
              (with_dyn (dyn_log [Extern "on_integration_start"] (dyn_of s)) s))
    as (e1 & E1 & _).
  exists e1, e2. rewrite E, E1. split; reflexivity.
Qed.

Lemma integrator_sanity_checks_time_step (s : State) :
  (time_step s <? 0)%float = true ->
  exists e,
    runtime_errors (integrator_sanity_checks s)
    = runtime_errors s ++ ["time_step not set"%string] ++ e.
Proof.
  intros H. unfold integrator_sanity_checks. cbv zeta. rewrite H.
  repeat (match goal with
          | |- context [if ?b then _ else _] => destruct b
          end; cbv iota);
    eexists; unfold runtimeErrorMsg;
    cbn [runtime_errors set_runtime_errors]; rewrite <- ?app_assoc;
    reflexivity.
Qed.

(** X6. [integrate] refuses to start, returning [INTEG_ERROR_RUNTIME] at its
    first poll, when the runtime-error collector is not empty on entry,
    when [time_step] is negative (as it is until [set_time_step] is called),
    when another algorithm reports at the start, or when Langevin NPT
    translation is in use with another thermalised translation. Its only
    call is then [on_integration_start]: no force is computed, no step is
    made, and the time, the counters, the Verlet statistics and the
    interrupt latch are as before. *)
Theorem integrate_refuses_to_start (env : Env) (n_steps reuse_forces : Z)
  (s : State) :
  runtime_errors s <> []
  \/ (time_step s <? 0)%float = true
  \/ start_errors env <> []
  \/ (in_use s TRANS_LANGEVIN_NPT
      /\ in_use s (TRANS_BROWNIAN + TRANS_LANGEVIN + TRANS_STOKESIAN)) ->
  exists s',
    integrate env n_steps reuse_forces s = (INTEG_ERROR_RUNTIME, s')
    /\ calls s' = calls s ++ [Extern "on_integration_start"]
    /\ sim_time s' = sim_time s
    /\ fluid_step s' = fluid_step s
    /\ ek_step s' = ek_step s
    /\ verlet_reuse s' = verlet_reuse s
    /\ ctrl_C s' = ctrl_C s
    /\ exists e, runtime_errors s' = runtime_errors s ++ e.
Proof.
  intros H.
  destruct (start_dyn_errors_entry env s) as (e1 & e2 & E & E1).
  assert (Hne : d_errors (start_dyn env s (dyn_of s)) <> []).
  { destruct H as [H|[H|[H|[Ha Hb]]]].
    - rewrite E. destruct (runtime_errors s); [congruence | discriminate].
    - destruct (integrator_sanity_checks_time_step
                  (with_dyn (dyn_log [Extern "on_integration_start"] (dyn_of s))
                     s) H) as [e3 E3].
      rewrite E1 in E3. apply app_inv_head in E3. rewrite E, E3.
      destruct (runtime_errors s); discriminate.
    - rewrite E. destruct (start_errors env); [congruence|].
      destruct (runtime_errors s ++ e1); discriminate.
    - unfold start_dyn. cbn [d_errors].
      destruct (on_integration_start_dyn env (dyn_of s) s) as [d' Ed].
      rewrite Ed, propagation_sanity_checks_used.
      apply (used_by_in_use (with_dyn d' s)) in Ha, Hb.
      apply nonzero_true in Ha, Hb. rewrite Ha, Hb. cbn [andb opt].
      destruct (runtime_errors (with_dyn d' s)); discriminate. }
  rewrite (integrate_first_poll env n_steps reuse_forces s Hne).
  eexists. split; [reflexivity|].
  cbn [calls sim_time fluid_step ek_step verlet_reuse ctrl_C runtime_errors
         with_dyn].
  repeat split.
  exists (e1 ++ start_errors env ++ e2). rewrite E, <- app_assoc. reflexivity.
Qed.

Lemma integrator_sanity_checks_unknown (s : State) :
  integ_switch s <> INTEG_METHOD_STEEPEST_DESCENT ->
  integ_switch s <> INTEG_METHOD_NVT ->
  (NPT = true -> integ_switch s <> INTEG_METHOD_NPT_ISO) ->
  integ_switch s <> INTEG_METHOD_BD ->
  (STOKESIAN_DYNAMICS = true -> integ_switch s <> INTEG_METHOD_SD) ->
  exists e,
    runtime_errors (integrator_sanity_checks s)
    = e ++ ["Unknown value for integ_switch"%string].
Proof.
  intros H1 H2 H3 H4 H5. unfold integrator_sanity_checks. cbv zeta.
  set (s1 := if (time_step s <? 0)%float then _ else s).
  assert (Hi : integ_switch s1 = integ_switch s)
    by (subst s1; destruct (time_step s <? 0)%float; reflexivity).
  rewrite Hi.
  apply Z.eqb_neq in H1, H2, H4. rewrite H1, H2, H4.
  assert (E3 : NPT && (integ_switch s =? INTEG_METHOD_NPT_ISO) = false).
  { destruct NPT; [|reflexivity]. cbn [andb]. apply Z.eqb_neq. now apply H3. }
  assert (E5 : STOKESIAN_DYNAMICS && (integ_switch s =? INTEG_METHOD_SD)
               = false).
  { destruct STOKESIAN_DYNAMICS; [|reflexivity]. cbn [andb].
    apply Z.eqb_neq. now apply H5. }
  rewrite E3, E5. eexists. reflexivity.
Qed.

(** X7. [set_integ_switch] with a value that is no integrator of the build
    throws, but after it has stored the value: [integ_switch] holds it,
    [recalc_forces] is set, and [default_propagation] is the one of the
    integrator selected before. Every later [integrate] then reports
    "Unknown value for integ_switch" and returns [INTEG_ERROR_RUNTIME]. *)
Theorem set_integ_switch_unknown_value (value : Z) (s : State) :
  value <> INTEG_METHOD_STEEPEST_DESCENT ->
  value <> INTEG_METHOD_NVT ->
  (NPT = true -> value <> INTEG_METHOD_NPT_ISO) ->
  value <> INTEG_METHOD_BD ->
  (STOKESIAN_DYNAMICS = true -> value <> INTEG_METHOD_SD) ->
  exists s',
    set_integ_switch value s
    = Throw (runtime_error "Unknown value for integ_switch") s'
    /\ integ_switch s' = value
    /\ recalc_forces s' = true
    /\ default_propagation s' = default_propagation s
    /\ forall env n_steps reuse_forces,
        fst (integrate env n_steps reuse_forces s') = INTEG_ERROR_RUNTIME
        /\ In "Unknown value for integ_switch"%string
             (runtime_errors (snd (integrate env n_steps reuse_forces s'))).
Proof.
  intros H1 H2 H3 H4 H5.
  exists (set_recalc_forces true (set_integ_switch_var value s)).
  split; [|split; [reflexivity|split; [reflexivity|split; [reflexivity|]]]].
  - unfold set_integ_switch, default_propagation_from_integ. cbv zeta.
    change (integ_switch
              (set_recalc_forces true (set_integ_switch_var value s)))
      with value.
    assert (E3 : NPT && (value =? INTEG_METHOD_NPT_ISO) = false).
    { destruct NPT; [|reflexivity]. cbn [andb]. apply Z.eqb_neq. now apply H3. }
    assert (E5 : STOKESIAN_DYNAMICS && (value =? INTEG_METHOD_SD) = false).
    { destruct STOKESIAN_DYNAMICS; [|reflexivity]. cbn [andb].
      apply Z.eqb_neq. now apply H5. }
    apply Z.eqb_neq in H1, H2, H4. rewrite H1, H2, H4, E3, E5. reflexivity.
  - intros env n_steps reuse_forces.
    set (s' := set_recalc_forces true (set_integ_switch_var value s)).
    destruct (start_dyn_errors_entry env s') as (e1 & e2 & E & E1).
    destruct (integrator_sanity_checks_unknown
                (with_dyn (dyn_log [Extern "on_integration_start"] (dyn_of s'))
                   s') H1 H2 H3 H4 H5) as [e3 E3].
    rewrite E1 in E3. rewrite E3 in E.
    assert (Hne : d_errors (start_dyn env s' (dyn_of s')) <> []).
    { rewrite E. destruct e3; discriminate. }
    rewrite (integrate_first_poll env n_steps reuse_forces s' Hne).
    split; [reflexivity|].
    cbn [snd runtime_errors with_dyn]. rewrite E.
    apply in_or_app. left. apply in_or_app. right. now left.
Qed.

(** *** Prologue and epilogue of [integrate] *)

Lemma integrate_loop_entry (env : Env) (n_steps reuse_forces : Z) (s : State) :
  check_runtime_errors
    (propagation_sanity_checks
       (get_used_propagations (on_integration_start env s))) = false ->
  initial_force_errors env = [] ->
  let d1 := pre_loop_dyn env reuse_forces s (start_dyn env s (dyn_of s)) in
  d_errors d1 = []
  /\ integrate env n_steps reuse_forces s
     = (let '(l, s') :=
          integration_loop env (Z.to_nat n_steps) 0
            (Build_LoopVars 0 0 false false) (with_dyn d1 s) in
        finish n_steps l s').
Proof.
  intros Hpoll Hforce d1.
  assert (H0 : d_errors (start_dyn env s (dyn_of s)) = [])
    by now apply first_poll.
  assert (H1 : d_errors d1 = []) by now apply pre_loop_dyn_errors.
  split; [exact H1|].
  rewrite integrate_eq. cbv zeta. rewrite H0. fold d1. rewrite H1. reflexivity.
Qed.

Lemma pre_loop_dyn_calls (env : Env) (reuse_forces : Z) (s : State) :
  d_calls (pre_loop_dyn env reuse_forces s (start_dyn env s (dyn_of s)))
  = calls s
    ++ [Extern "on_integration_start"]
    ++ (if initial_force_calculation_due reuse_forces s
        then initial_force_calls s else [])
    ++ [Extern "lb_lbcoupling_activate"].
Proof.
  unfold pre_loop_dyn. cbv zeta.
  destruct (initial_force_calculation_due reuse_forces s);
    unfold dyn_log, dyn_err; cbn [start_dyn d_calls dyn_of];
    rewrite <- ?app_assoc; reflexivity.
Qed.

Lemma pre_loop_dyn_fields (env : Env) (reuse_forces : Z) (s : State) :
  let d1 := pre_loop_dyn env reuse_forces s (start_dyn env s (dyn_of s)) in
  d_sim_time d1 = sim_time s
  /\ d_ctrl_C d1 = ctrl_C s
  /\ d_fluid_step d1 = fluid_step s
  /\ d_ek_step d1 = ek_step s
  /\ d_verlet d1 = verlet_reuse s.
Proof.
  unfold pre_loop_dyn. cbv zeta.
  destruct (initial_force_calculation_due reuse_forces s); repeat split.
Qed.

Lemma finish_dyn_fields (n_steps : Z) (l : LoopVars) (s : State) (d : Dyn) :
  d_sim_time (finish_dyn n_steps l s d) = d_sim_time d
  /\ d_ctrl_C (finish_dyn n_steps l s d)
     = (if caught_sigint l then 0 else d_ctrl_C d)
  /\ d_fluid_step (finish_dyn n_steps l s d) = d_fluid_step d
  /\ d_ek_step (finish_dyn n_steps l s d) = d_ek_step d
  /\ d_errors (finish_dyn n_steps l s d) = d_errors d
  /\ d_verlet (finish_dyn n_steps l s d)
     = (if n_verlet_updates l >? 0
        then (double_of_int n_steps / double_of_int (n_verlet_updates l))%float
        else 0%float)
  /\ d_calls (finish_dyn n_steps l s d)
     = d_calls d
       ++ match box_geo_type s with
          | LEES_EDWARDS => [Extern "box_geo.lees_edwards_update"]
          | CUBOID => []
          end
       ++ opt VIRTUAL_SITES (Extern "virtual_sites()->update")
       ++ opt (NPT && (integ_switch s =? INTEG_METHOD_NPT_ISO))
            (Extern "synchronize_npt_state").
Proof.
  unfold finish_dyn. cbv zeta.
  destruct (caught_sigint l); dyn_compute; rewrite <- ?app_assoc;
    repeat split.
Qed.

(** *** Bounds on the loop *)

Lemma integration_loop_bound (env : Env) (s : State) (r : nat) :
  forall step l d,
  exists l' d',
    integration_loop env r step l (with_dyn d s) = (l', with_dyn d' s)
    /\ integrated_steps l <= integrated_steps l'
       <= integrated_steps l + Z.of_nat r
    /\ (caught_sigint l' = true ->
        caught_sigint l = true \/ comm_cart_size env = 1).
Proof.
  induction r as [|r IH]; intros step l d; cbn [integration_loop].
  - exists l, d. split; [reflexivity|]. split; [lia | tauto].
  - rewrite integration_loop_body_dyn.
    destruct (early_exit env step s).
    { exists l, (body_dyn_1 env step s d). split; [reflexivity|].
      split; [lia | tauto]. }
    cbv zeta.
    destruct (d_errors (body_dyn env step s d)).
    + destruct ((comm_cart_size env =? 1)
                && (d_ctrl_C (body_dyn env step s d) =? 1)) eqn:Hs.
      * eexists _, _. split; [reflexivity|].
        cbn [integrated_steps caught_sigint step_done]. split; [lia|].
        intros _. right. apply andb_prop in Hs. destruct Hs as [Hs _].
        now apply Z.eqb_eq.
      * destruct (IH (S step) (step_done env step l) (body_dyn env step s d))
          as (l' & d' & E & Hi & Hsig).
        exists l', d'. split; [exact E|].
        cbn [integrated_steps caught_sigint step_done] in Hi, Hsig.
        split; [lia | exact Hsig].
    + eexists _, _. split; [reflexivity|].
      cbn [integrated_steps caught_sigint step_done]. split; [lia | tauto].
Qed.

(** X8. What [integrate] returns is [INTEG_ERROR_RUNTIME], or
    [INTEG_ERROR_SIGINT], or a count of steps between 0 and the number
    requested, never more. It returns [INTEG_ERROR_SIGINT] only in a run on
    one rank, and with the interrupt latch cleared. *)
Theorem integrate_return_value (env : Env) (n_steps reuse_forces : Z)
  (s : State) :
  let r := fst (integrate env n_steps reuse_forces s) in
  let s' := snd (integrate env n_steps reuse_forces s) in
  r = INTEG_ERROR_RUNTIME
  \/ (r = INTEG_ERROR_SIGINT /\ comm_cart_size env = 1 /\ ctrl_C s' = 0)
  \/ 0 <= r <= Z.max 0 n_steps.
Proof.
  cbv zeta. rewrite integrate_eq. cbv zeta.
  destruct (d_errors (start_dyn env s (dyn_of s))); [|now left].
  set (d1 := pre_loop_dyn env reuse_forces s (start_dyn env s (dyn_of s))).
  destruct (d_errors d1); [|now left].
  clearbody d1.
  destruct (integration_loop_bound env s (Z.to_nat n_steps) 0%nat
              (Build_LoopVars 0 0 false false) d1)
    as (l' & d' & E & Hi & Hsig).
  rewrite E, finish_dyn_eq. cbn [fst snd].
  cbn [integrated_steps caught_sigint] in Hi, Hsig.
  destruct (caught_sigint l') eqn:Hc.
  - right. left. split; [reflexivity|].
    split; [destruct Hsig as [Hsig|Hsig]; [reflexivity|discriminate|exact Hsig]|].
    cbn [ctrl_C with_dyn].
    destruct (finish_dyn_fields n_steps l' s d') as (_ & -> & _).
    now rewrite Hc.
  - destruct (caught_error l'); [now left|].
    right. right. lia.
Qed.

(** X9. A call of [integrate] for zero steps, or for a negative number,
    makes no step and returns 0: the time and the interrupt latch are as
    before (the latch is not read), the Verlet statistics are reset to 0,
    and the forces are computed once when the policy and [recalc_forces]
    ask for it, not at all otherwise. *)
Theorem integrate_no_steps (env : Env) (n_steps reuse_forces : Z) (s : State) :
  n_steps <= 0 ->
  check_runtime_errors
    (propagation_sanity_checks
       (get_used_propagations (on_integration_start env s))) = false ->
  initial_force_errors env = [] ->
  exists s',
    integrate env n_steps reuse_forces s = (0, s')
    /\ sim_time s' = sim_time s
    /\ ctrl_C s' = ctrl_C s
    /\ verlet_reuse s' = 0%float
    /\ count_calls "force_calc" (calls s')
       = (count_calls "force_calc" (calls s)
          + if initial_force_calculation_due reuse_forces s then 1 else 0)%nat
    /\ count_calls "philox_counter_increment" (calls s')
       = count_calls "philox_counter_increment" (calls s).
Proof.
  intros Hn Hpoll Hforce.
  destruct (integrate_loop_entry env n_steps reuse_forces s Hpoll Hforce)
    as [_ E].
  rewrite E. replace (Z.to_nat n_steps) with 0%nat by lia.
  cbn [integration_loop]. rewrite finish_dyn_eq.
  cbn [caught_sigint caught_error integrated_steps].
  eexists. split; [reflexivity|].
  cbn [sim_time ctrl_C verlet_reuse calls with_dyn].
  set (l0 := Build_LoopVars 0 0 false false).
  destruct (finish_dyn_fields n_steps l0 s
              (pre_loop_dyn env reuse_forces s (start_dyn env s (dyn_of s))))
    as (-> & -> & _ & _ & _ & -> & ->).
  destruct (pre_loop_dyn_fields env reuse_forces s) as (-> & -> & _).
  rewrite pre_loop_dyn_calls. cbn [caught_sigint n_verlet_updates l0 Z.gtb
                                     Z.compare].
  repeat split.
  - unfold initial_force_calls.
    destruct (initial_force_calculation_due reuse_forces s);
      destruct (box_geo_type s); count_calls.
  - unfold initial_force_calls.
    destruct (initial_force_calculation_due reuse_forces s);
      destruct (box_geo_type s); count_calls.
Qed.

(** *** What an iteration calls *)

Ltac body_count env s :=
  body_cases env s; destruct (box_geo_type s); dyn_compute; count_calls;
  try reflexivity.

Lemma body_dyn_force_calc (env : Env) (step : nat) (s : State) (d : Dyn) :
  count_calls "force_calc" (d_calls (body_dyn env step s d))
  = (count_calls "force_calc" (d_calls d) + 1)%nat.
Proof. body_count env s. Qed.

Lemma body_dyn_steepest_descent_step (env : Env) (step : nat) (s : State)
  (d : Dyn) :
  count_calls "steepest_descent_step" (d_calls (body_dyn env step s d))
  = (count_calls "steepest_descent_step" (d_calls d)
     + if steepest_descent s then 1 else 0)%nat.
Proof. body_count env s. Qed.


Lemma run_dyn_count (env : Env) (s : State) (f : string) (c : nat) :
  (forall step d,
      count_calls f (d_calls (body_dyn env step s d))
      = (count_calls f (d_calls d) + c)%nat) ->
  forall r step d,
    count_calls f (d_calls (run_dyn env s step r d))
    = (count_calls f (d_calls d) + r * c)%nat.
Proof.
  intros H. induction r as [|r IH]; intros step d; cbn [run_dyn]; [lia|].
  rewrite IH, H. lia.
Qed.

Lemma body_dyn_1_steepest_descent (env : Env) (step : nat) (s : State)
  (d : Dyn) :
  steepest_descent s = true ->
  d_sim_time (body_dyn_1 env step s d) = d_sim_time d
  /\ d_fluid_step (body_dyn_1 env step s d) = d_fluid_step d
  /\ d_ek_step (body_dyn_1 env step s d) = d_ek_step d
  /\ d_errors (body_dyn_1 env step s d) = d_errors d
  /\ count_calls "steepest_descent_step" (d_calls (body_dyn_1 env step s d))
     = S (count_calls "steepest_descent_step" (d_calls d))
  /\ count_calls "force_calc" (d_calls (body_dyn_1 env step s d))
     = count_calls "force_calc" (d_calls d).
Proof.
  intros H. unfold body_dyn_1. cbv zeta. rewrite H.
  destruct (box_geo_type s); dyn_compute; repeat split; count_calls.
Qed.

Lemma body_dyn_steepest_descent (env : Env) (step : nat) (s : State) (d : Dyn) :
  steepest_descent s = true ->
  d_sim_time (body_dyn env step s d) = d_sim_time d
  /\ d_fluid_step (body_dyn env step s d) = d_fluid_step d
  /\ d_ek_step (body_dyn env step s d) = d_ek_step d.
Proof.
  intros H. unfold body_dyn, body_dyn_1. cbv zeta. rewrite H. repeat split.
Qed.

Lemma run_dyn_steepest_descent (env : Env) (s : State) (r : nat) :
  steepest_descent s = true ->
  forall step d,
    d_sim_time (run_dyn env s step r d) = d_sim_time d
    /\ d_fluid_step (run_dyn env s step r d) = d_fluid_step d
    /\ d_ek_step (run_dyn env s step r d) = d_ek_step d.
Proof.
  intros H. induction r as [|r IH]; intros step d; cbn [run_dyn];
    [repeat split|].
  destruct (IH (S step) (body_dyn env step s d)) as (-> & -> & ->).
  now apply body_dyn_steepest_descent.
Qed.

Lemma count_initial_force_calls (s : State) :
  count_calls "force_calc" (initial_force_calls s) = 1%nat
  /\ count_calls "steepest_descent_step" (initial_force_calls s) = 0%nat.
Proof. unfold initial_force_calls. split; count_calls. Qed.

(** X10. In steepest-descent mode [integrate] stops as soon as
    [steepest_descent_step] reports convergence: converging in iteration
    [k] (counted from 0), the call returns [k], the converging iteration
    computes no force, and the whole call leaves the time and the step
    counters of the lattice solvers as they were. *)
Theorem integrate_steepest_descent_converges (env : Env)
  (n_steps reuse_forces : Z) (s : State) (k : nat) :
  integ_switch s = INTEG_METHOD_STEEPEST_DESCENT ->
  (k < Z.to_nat n_steps)%nat ->
  check_runtime_errors
    (propagation_sanity_checks
       (get_used_propagations (on_integration_start env s))) = false ->
  initial_force_errors env = [] ->
  (forall i, (i < k)%nat -> steepest_descent_step env i = false) ->
  steepest_descent_step env k = true ->
  (forall i, (i < k)%nat -> step_errors env i = []) ->
  comm_cart_size env <> 1
  \/ (ctrl_C s <> 1 /\ forall i, (i < k)%nat -> sigint_during env i = false) ->
  exists s',
    integrate env n_steps reuse_forces s = (Z.of_nat k, s')
    /\ sim_time s' = sim_time s
    /\ fluid_step s' = fluid_step s
    /\ ek_step s' = ek_step s
    /\ count_calls "steepest_descent_step" (calls s')
       = (count_calls "steepest_descent_step" (calls s) + S k)%nat
    /\ count_calls "force_calc" (calls s')
       = (count_calls "force_calc" (calls s) + k
          + if initial_force_calculation_due reuse_forces s then 1 else 0)%nat.
Proof.
  intros Hsd Hk Hpoll Hforce Hno Hyes Herr Hsig.
  apply Z.eqb_eq in Hsd. fold (steepest_descent s) in Hsd.
  assert (Hc : coupling_errors env s = []).
  { unfold coupling_errors. rewrite Hsd. reflexivity. }
  destruct (integrate_prefix env n_steps reuse_forces s k
              (Z.to_nat n_steps - k)) as [E _]; try assumption.
  { lia. }
  { intros i Hi. unfold early_exit. rewrite Hno by exact Hi.
    apply andb_false_r. }
  { destruct Hsig as [H | H]; [left; now apply Z.eqb_neq | now right]. }
  destruct (pre_loop_dyn_fields env reuse_forces s)
    as (Ht1 & _ & Hf1 & He1 & _).
  pose proof (pre_loop_dyn_calls env reuse_forces s) as Hc1.
  set (d1 := pre_loop_dyn env reuse_forces s (start_dyn env s (dyn_of s)))
    in *.
  clearbody d1.
  destruct (Z.to_nat n_steps - k)%nat as [|r'] eqn:Hr; [lia|].
  cbn [integration_loop] in E. rewrite integration_loop_body_dyn in E.
  assert (Hexit : early_exit env k s = true)
    by (unfold early_exit; now rewrite Hsd, Hyes).
  rewrite Hexit, finish_dyn_eq in E.
  destruct (steps_done_spec env k 0%nat (Build_LoopVars 0 0 false false))
    as (Hi & Hs & He).
  rewrite Hs, He, Hi in E. cbn [caught_sigint caught_error integrated_steps] in E.
  rewrite Z.add_0_l in E.
  eexists. split; [exact E|].
  cbn [sim_time fluid_step ek_step calls with_dyn].
  set (l := steps_done env 0 k (Build_LoopVars 0 0 false false)).
  destruct (finish_dyn_fields n_steps l s
              (body_dyn_1 env k s (run_dyn env s 0 k d1)))
    as (-> & _ & -> & -> & _ & _ & ->).
  destruct (body_dyn_1_steepest_descent env k s (run_dyn env s 0 k d1) Hsd)
    as (-> & -> & -> & _ & Hc2 & Hc3).
  destruct (run_dyn_steepest_descent env s k Hsd 0%nat d1) as (-> & -> & ->).
  split; [exact Ht1|]. split; [exact Hf1|]. split; [exact He1|].
  rewrite !count_calls_app, Hc2, Hc3.
  rewrite (run_dyn_count env s "steepest_descent_step" 1),
    (run_dyn_count env s "force_calc" 1).
  2: { intros. apply body_dyn_force_calc. }
  2: { intros. rewrite body_dyn_steepest_descent_step, Hsd. reflexivity. }
  rewrite Hc1, !count_calls_app.
  destruct (count_initial_force_calls s) as [Hf Hsds].
  split.
  - destruct (initial_force_calculation_due reuse_forces s);
      destruct (box_geo_type s); rewrite ?Hsds; count_calls.
  - destruct (initial_force_calculation_due reuse_forces s);
      destruct (box_geo_type s); rewrite ?Hf; count_calls.
Qed.

(** *** Iterations that leave the loop *)

Lemma integration_loop_error (env : Env) (s : State) (j r' : nat)
  (l : LoopVars) (d : Dyn) :
  early_exit env j s = false ->
  d_errors (body_dyn env j s d) <> [] ->
  integration_loop env (S r') j l (with_dyn d s)
  = (Build_LoopVars (n_verlet_updates (step_done env j l))
       (integrated_steps (step_done env j l))
       (caught_sigint (step_done env j l)) true,
     with_dyn (body_dyn env j s d) s).
Proof.
  intros Hexit Herr. cbn [integration_loop].
  rewrite integration_loop_body_dyn, Hexit. cbv zeta.
  destruct (d_errors (body_dyn env j s d)); [congruence | reflexivity].
Qed.



(** *** The assertion on the step counters *)

(** The prologue and the epilogue of [integrate] hold no assertion. *)
Lemma count_calls_assert_prologue (env : Env) (reuse_forces : Z) (s : State) :
  count_calls "__assert_fail"
    (d_calls (pre_loop_dyn env reuse_forces s (start_dyn env s (dyn_of s))))
  = count_calls "__assert_fail" (calls s).
Proof.
  rewrite pre_loop_dyn_calls. unfold initial_force_calls.
  destruct (initial_force_calculation_due reuse_forces s); count_calls.
Qed.

Lemma count_calls_assert_epilogue (n_steps : Z) (l : LoopVars) (s : State)
  (d : Dyn) :
  count_calls "__assert_fail" (d_calls (finish_dyn n_steps l s d))
  = count_calls "__assert_fail" (d_calls d).
Proof.
  destruct (finish_dyn_fields n_steps l s d) as (_ & _ & _ & _ & _ & _ & ->).
  destruct (box_geo_type s); count_calls.
Qed.

(** An iteration of the coupled solvers that starts with equal counters
    passes the assertion. *)
Lemma body_dyn_coupled_assert (env : Env) (step : nat) (s : State) (d : Dyn) :
  steepest_descent s = false ->
  LB_active env = true ->
  WALBERLA && negb (EK_container_empty env) = true ->
  d_fluid_step d = d_ek_step d ->
  count_calls "__assert_fail" (d_calls (body_dyn env step s d))
  = count_calls "__assert_fail" (d_calls d).
Proof.
  intros Hsd Hlb Hek Heq. unfold body_dyn, body_dyn_1, one_step_dyn. cbv zeta.
  rewrite Hsd, Hlb, Hek. cbn [andb].
  destruct d as [u t v f e c er cs]. cbn [d_fluid_step d_ek_step] in Heq.
  subst e. destruct (box_geo_type s); dyn_compute;
    rewrite Z.eqb_refl, andb_false_r; cbn [opt app]; count_calls.
Qed.

(** X12. With the lattice fluid and the electrokinetics solver both active
    but with different numbers of steps per MD step, and their step counters
    equal, as the branch asserts, [integrate] reports the mismatch only at
    the end of its first iteration: the assertion holds, that step is made
    in full, the fluid counter advances, and the call returns
    [INTEG_ERROR_RUNTIME]. *)
Theorem integrate_LB_EK_mismatch (env : Env) (n_steps reuse_forces : Z)
  (s : State) :
  1 <= n_steps ->
  integ_switch s <> INTEG_METHOD_STEEPEST_DESCENT ->
  LB_active env = true ->
  WALBERLA = true ->
  EK_container_empty env = false ->
  LB_get_steps_per_md_step env (time_step s)
  <> EK_get_steps_per_md_step env (time_step s) ->
  fluid_step s = ek_step s ->
  check_runtime_errors
    (propagation_sanity_checks
       (get_used_propagations (on_integration_start env s))) = false ->
  initial_force_errors env = [] ->
  exists s',
    integrate env n_steps reuse_forces s = (INTEG_ERROR_RUNTIME, s')
    /\ In "LB and EK are active but with different time steps."%string
         (runtime_errors s')
    /\ count_calls "philox_counter_increment" (calls s')
       = S (count_calls "philox_counter_increment" (calls s))
    /\ sim_time s' = (sim_time s + time_step s)%float
    /\ fluid_step s'
       = counter_next (fluid_step s)
           (LB_get_steps_per_md_step env (time_step s))
    /\ count_calls "__assert_fail" (calls s')
       = count_calls "__assert_fail" (calls s).
Proof.
  intros Hn Hsd Hlb Hw Hek Hne Hsync Hpoll Hforce.
  apply Z.eqb_neq in Hsd. fold (steepest_descent s) in Hsd.
  assert (Hek' : WALBERLA && negb (EK_container_empty env) = true)
    by (rewrite Hw, Hek; reflexivity).
  assert (Hc : coupling_errors env s
               = ["LB and EK are active but with different time steps."%string]).
  { unfold coupling_errors. apply Z.eqb_neq in Hne.
    rewrite Hsd, Hlb, Hw, Hek, Hne. reflexivity. }
  destruct (integrate_loop_entry env n_steps reuse_forces s Hpoll Hforce)
    as [H1 E].
  destruct (pre_loop_dyn_fields env reuse_forces s)
    as (Ht1 & _ & Hf1 & He1 & _).
  pose proof (pre_loop_dyn_count env reuse_forces s
                "philox_counter_increment" (or_introl eq_refl)) as Hp1.
  pose proof (count_calls_assert_prologue env reuse_forces s) as Ha1.
  set (d1 := pre_loop_dyn env reuse_forces s (start_dyn env s (dyn_of s)))
    in *.
  clearbody d1.
  destruct (Z.to_nat n_steps) as [|r'] eqn:Hr; [lia|].
  assert (Hb : d_errors (body_dyn env 0 s d1)
               = step_errors env 0%nat
                 ++ ["LB and EK are active but with different time steps."%string]).
  { rewrite body_dyn_errors, H1, Hc. reflexivity. }
  rewrite integration_loop_error in E.
  2: { now apply early_exit_not_steepest_descent. }
  2: { rewrite Hb. destruct (step_errors env 0%nat); discriminate. }
  rewrite finish_dyn_eq in E.
  cbn [caught_sigint caught_error step_done] in E.
  eexists. split; [exact E|].
  cbn [runtime_errors calls sim_time fluid_step with_dyn].
  set (l' := Build_LoopVars _ _ _ true).
  rewrite count_calls_assert_epilogue.
  destruct (finish_dyn_fields n_steps l' s (body_dyn env 0 s d1))
    as (-> & _ & -> & _ & -> & _ & _).
  rewrite finish_dyn_count by now left.
  rewrite Hb, body_dyn_philox, Hp1, body_dyn_sim_time, Ht1 by exact Hsd.
  rewrite body_dyn_coupled_assert, Ha1 by (assumption || congruence).
  split; [apply in_or_app; right; now left|].
  split; [reflexivity|]. split; [reflexivity|].
  split; [|reflexivity].
  unfold body_dyn, body_dyn_1, one_step_dyn. cbv zeta.
  rewrite Hsd, Hlb, Hw, Hek. cbn [andb negb]. dyn_compute.
  cbn [d_fluid_step] in Hf1. destruct d1. cbn in Hf1 |- *. now rewrite Hf1.
Qed.

(** *** The interrupt latch *)




(** *** Lees-Edwards boundary conditions *)



(** *** Verlet list statistics *)



(** *** Marking the forces as out of date *)

(** X17. [set_time], [LeesEdwards::set_protocol] and
    [LeesEdwards::unset_protocol] set [recalc_forces], so that the next
    [integrate] whose policy is not [INTEG_REUSE_FORCES_ALWAYS], and that
    passes its first poll, computes the forces before its first step. *)
Theorem forces_recalculated_after (value : float) (s s1 : State) (env : Env)
  (n_steps reuse_forces : Z) :
  In s1 [set_time value s; LeesEdwards_set_protocol s;
         LeesEdwards_unset_protocol s] ->
  recalc_forces s1 = true
  /\ (reuse_forces <> INTEG_REUSE_FORCES_ALWAYS ->
      check_runtime_errors
        (propagation_sanity_checks
           (get_used_propagations (on_integration_start env s1))) = false ->
      exists rest,
        calls (snd (integrate env n_steps reuse_forces s1))
        = calls s1 ++ [Extern "on_integration_start"]
          ++ initial_force_calls s1
          ++ [Extern "lb_lbcoupling_activate"] ++ rest).
Proof.
  intros Hin.
  assert (Hr : recalc_forces s1 = true).
  { cbn [In] in Hin. destruct Hin as [<-|[<-|[<-|[]]]].
    - unfold set_time, LeesEdwards_update_box_params. cbv zeta.
      destruct (box_geo_type _); reflexivity.
    - reflexivity.
    - reflexivity. }
  split; [exact Hr|]. intros Hreuse Hpoll.
  now apply integrate_initial_force_calculation.
Qed.

(** *** The calls of [integrate] *)












(** *** Chunks *)




(** X20. With [update_accumulators] and a step count other than 0, when the
    skin is not set and no positive maximal cutoff is known,
    [integrate_with_signal_handler] integrates nothing and leaves the state
    as it is: the head node throws "cannot automatically determine skin",
    every other rank returns [INTEG_ERROR_RUNTIME]. *)
Theorem integrate_with_signal_handler_no_skin (w : World) (fuel : nat)
  (n_steps reuse_forces : Z) (s : State) :
  n_steps <> 0 ->
  skin_set s = false ->
  (maximal_cutoff w <=? 0)%float = true ->
  integrate_with_signal_handler w fuel n_steps reuse_forces true s
  = Some
      (if comm_cart_rank w =? 0
       then Throw
              (runtime_error
                 "cannot automatically determine skin, please set it manually")
              s
       else Return (INTEG_ERROR_RUNTIME, []) s).
Proof.
  intros Hn Hset Hcut. unfold integrate_with_signal_handler.
  cbn [negb orb]. apply Z.eqb_neq in Hn. rewrite Hn, Hset, Hcut.
  cbn [negb]. destruct (comm_cart_rank w =? 0); reflexivity.
Qed.

(** *** Filtered particle ranges *)

(** X22. A criterion written as the sum of two sets of flags that share no
    flag, as the integrator writes
    [TRANS_STOKESIAN + TRANS_SYSTEM_DEFAULT], selects the particles that
    either of the two selects. *)
Theorem particle_range_filter_sum (a b : Z) (s : State) (i : nat) :
  Z.land a b = 0 ->
  In i (filter_range (a + b) s)
  <-> In i (filter_range a s) \/ In i (filter_range b s).
Proof.
  intros Hab.
  destruct (nth_error (particles s) i) as [m|] eqn:Hn.
  - rewrite !(in_filter_range _ _ _ _ Hn).
    rewrite Z.add_nocarry_lxor, Z.lxor_lor by exact Hab.
    rewrite Z.land_lor_distr_r, Z.lor_eq_0_iff.
    destruct (Z.eq_dec (Z.land m a) 0); tauto.
  - assert (H : forall c, ~ In i (filter_range c s)).
    { intros c Hin. unfold filter_range in Hin. apply in_map_iff in Hin.
      destruct Hin as ([j m] & <- & Hin). apply filter_In in Hin.
      destruct Hin as [Hin _]. apply in_local_particles in Hin.
      cbn [fst] in Hn. congruence. }
    split; [intros Hin; now apply H in Hin | intros [Hin|Hin]; now apply H in Hin].
Qed.

(** *** Every kernel at most once *)

Lemma NoDup_flat_map_particles (f : nat * Z -> list Call) (l : list Z) :
  (forall p, NoDup (f p)) ->
  (forall j m c, In c (f (j, m)) -> exists K, c = Propagate K j) ->
  forall a, NoDup (flat_map f (combine (seq a (List.length l)) l)).
Proof.
  intros Hnd Htag.
  induction l as [|m l IH]; intros a;
    cbn [List.length seq combine flat_map]; [constructor|].
  apply NoDup_app; [apply Hnd | apply IH|].
  intros c Hc Hin. destruct (Htag _ _ _ Hc) as [K ->].
  apply in_flat_map in Hin. destruct Hin as ([j m'] & Hj & Hin).
  destruct (Htag _ _ _ Hin) as [K' [= _ <-]].
  apply in_combine_l, in_seq in Hj. lia.
Qed.

Lemma step_1_particle_tagged (dp ppi : Z) (j : nat) (m : Z) :
  NoDup (step_1_particle dp ppi (j, m))
  /\ forall c, In c (step_1_particle dp ppi (j, m)) -> exists K, c = Propagate K j.
Proof.
  unfold step_1_particle.
  repeat match goal with
         | |- context [if ?b then _ else _] => destruct b
         end; cbn [app];
    (split;
     [repeat (constructor; [cbn [In]; intuition discriminate|]); constructor
     | intros c Hc; cbn [In] in Hc;
       repeat destruct Hc as [<-|Hc]; try contradiction; eexists; reflexivity]).
Qed.

Lemma step_2_particle_tagged (dp ppi : Z) (j : nat) (m : Z) :
  NoDup (step_2_particle dp ppi (j, m))
  /\ forall c, In c (step_2_particle dp ppi (j, m)) -> exists K, c = Propagate K j.
Proof.
  unfold step_2_particle.
  repeat match goal with
         | |- context [if ?b then _ else _] => destruct b
         end; cbn [app];
    (split;
     [repeat (constructor; [cbn [In]; intuition discriminate|]); constructor
     | intros c Hc; cbn [In] in Hc;
       repeat destruct Hc as [<-|Hc]; try contradiction; eexists; reflexivity]).
Qed.

Lemma NoDup_step_1_calls (s : State) : NoDup (step_1_calls s).
Proof.
  unfold step_1_calls, local_particles.
  apply NoDup_app; [|apply NoDup_app|].
  - apply NoDup_flat_map_particles.
    + intros [j m]. apply step_1_particle_tagged.
    + intros j m. apply step_1_particle_tagged.
  - destruct (NPT && _); repeat constructor. intros [].
  - destruct (STOKESIAN_DYNAMICS && _); repeat constructor. intros [].
  - intros c Hc Hin. apply in_opt in Hc. destruct Hc as [_ <-].
    apply in_opt in Hin. destruct Hin as [_ [=]].
  - intros c Hc Hin. apply in_flat_map in Hc.
    destruct Hc as ([j m] & _ & Hc).
    destruct (proj2 (step_1_particle_tagged _ _ j m) c Hc) as [K ->].
    apply in_app_or in Hin.
    destruct Hin as [Hin|Hin]; apply in_opt in Hin;
      destruct Hin as [_ [=]].
Qed.

Lemma NoDup_step_2_calls (s : State) : NoDup (step_2_calls s).
Proof.
  unfold step_2_calls, local_particles.
  apply NoDup_app.
  - apply NoDup_flat_map_particles.
    + intros [j m]. apply step_2_particle_tagged.
    + intros j m. apply step_2_particle_tagged.
  - destruct (NPT && _); repeat constructor. intros [].
  - intros c Hc Hin. apply in_flat_map in Hc.
    destruct Hc as ([j m] & _ & Hc).
    destruct (proj2 (step_2_particle_tagged _ _ j m) c Hc) as [K ->].
    apply in_opt in Hin. destruct Hin as [_ [=]].
Qed.

(** X23. Within one phase of a step no kernel is run twice on the same
    particle, and no range kernel is run twice: the calls that
    [integrator_step_1] and [integrator_step_2] make are pairwise
    different. *)
Theorem integrator_steps_propagate_once (env : Env) (step : nat) (s : State) :
  (exists cs,
      calls (snd (integrator_step_1 env step s)) = calls s ++ cs /\ NoDup cs)
  /\ (exists cs, calls (integrator_step_2 s) = calls s ++ cs /\ NoDup cs).
Proof.
  pose proof (integrator_step_1_dyn env step (dyn_of s) s) as E1.
  pose proof (integrator_step_2_dyn (dyn_of s) s) as E2.
  rewrite with_dyn_of in E1, E2. rewrite E1, E2.
  cbn [snd calls with_dyn].
  destruct (steepest_descent s); cbn [d_calls dyn_log dyn_time dyn_of]; split.
  - eexists. split; [reflexivity|]. repeat constructor. intros [].
  - exists []. split; [|constructor]. reflexivity.
  - eexists. split; [reflexivity|]. apply NoDup_step_1_calls.
  - eexists. split; [reflexivity|]. apply NoDup_step_2_calls.
Qed.

(** *** Virtual sites in the dispatch *)

Lemma propagation_vs_relate_to
  (calculate_vs_relate_to_params :
     VirtualSites.Particle -> VirtualSites.Particle
     -> VirtualSites.Quaternion * float)
  (p_vs p_relate_to : VirtualSites.Particle) :
  VirtualSites.propagation
    (VirtualSites.vs_relate_to calculate_vs_relate_to_params p_vs p_relate_to)
  = Z.lor (VirtualSites.propagation p_vs) TRANS_VS_RELATIVE.
Proof.
  unfold VirtualSites.vs_relate_to.
  destruct (calculate_vs_relate_to_params _ _). reflexivity.
Qed.

Lemma land_lor_vs_relative (m c : Z) :
  Z.land c TRANS_VS_RELATIVE = 0 ->
  Z.land (Z.lor m TRANS_VS_RELATIVE) c = Z.land m c.
Proof.
  intros H. rewrite Z.land_lor_distr_l, (Z.land_comm TRANS_VS_RELATIVE), H.
  apply Z.lor_0_r.
Qed.

Lemma should_propagate_with_vs_relative (dp m F : Z) :
  Z.land F TRANS_VS_RELATIVE = 0 ->
  should_propagate_with dp (Z.lor m TRANS_VS_RELATIVE) F
  = should_propagate_with dp m F.
Proof.
  intros H. unfold should_propagate_with.
  now rewrite !land_lor_vs_relative by (exact H || reflexivity).
Qed.

Lemma splittable_vs_relative (dp : Z) :
  Z.land (splittable
            (TRANS_LANGEVIN + ROT_LANGEVIN + TRANS_BROWNIAN + ROT_BROWNIAN) dp)
    TRANS_VS_RELATIVE = 0
  /\ Z.land (splittable (TRANS_LANGEVIN + ROT_LANGEVIN) dp) TRANS_VS_RELATIVE
     = 0.
Proof. unfold splittable. split; destruct (nonzero _); reflexivity. Qed.

Lemma step_particle_vs_relative (dp : Z) (j : nat) (m : Z) :
  step_1_particle dp
    (splittable (TRANS_LANGEVIN + ROT_LANGEVIN + TRANS_BROWNIAN + ROT_BROWNIAN)
       dp) (j, Z.lor m TRANS_VS_RELATIVE)
  = step_1_particle dp
      (splittable
         (TRANS_LANGEVIN + ROT_LANGEVIN + TRANS_BROWNIAN + ROT_BROWNIAN) dp)
      (j, m)
  /\ step_2_particle dp (splittable (TRANS_LANGEVIN + ROT_LANGEVIN) dp)
       (j, Z.lor m TRANS_VS_RELATIVE)
     = step_2_particle dp (splittable (TRANS_LANGEVIN + ROT_LANGEVIN) dp)
         (j, m).
Proof.
  destruct (splittable_vs_relative dp) as [H1 H2].
  unfold step_1_particle, step_2_particle.
  rewrite !land_lor_vs_relative by assumption.
  rewrite !should_propagate_with_vs_relative by reflexivity.
  split; reflexivity.
Qed.

(** A particle keeps its mask or has [TRANS_VS_RELATIVE] added to it. *)
Lemma flat_map_related {B} (R : Z -> Z -> Prop) (f : nat * Z -> list B)
  (l l' : list Z) :
  Forall2 R l l' ->
  (forall j m m', R m m' -> f (j, m') = f (j, m)) ->
  forall a,
    flat_map f (combine (seq a (List.length l')) l')
    = flat_map f (combine (seq a (List.length l)) l).
Proof.
  intros HR Hf. induction HR as [|m m' l l' Hm _ IH]; intros a;
    cbn [List.length seq combine flat_map]; [reflexivity|].
  now rewrite IH, (Hf a m m' Hm).
Qed.

Lemma filter_related (R : Z -> Z -> Prop) (g : Z -> bool) (l l' : list Z) :
  Forall2 R l l' ->
  (forall m m', R m m' -> g m' = g m) ->
  forall a,
    map fst (filter (fun p => g (snd p)) (combine (seq a (List.length l')) l'))
    = map fst (filter (fun p => g (snd p)) (combine (seq a (List.length l)) l)).
Proof.
  intros HR Hg. induction HR as [|m m' l l' Hm _ IH]; intros a;
    cbn [List.length seq combine filter snd]; [reflexivity|].
  rewrite (Hg m m' Hm). destruct (g m); cbn [map fst]; now rewrite IH.
Qed.

(** X24. [vs_relate_to] does not take a particle out of the dispatch of the
    integrator: when some local particles are made virtual sites, each of
    them keeps being propagated by every kernel that propagated it before,
    and by no other. (The flag [TRANS_LANGEVIN_NPT], whose value is not in
    these sources, is taken not to be [TRANS_VS_RELATIVE].) *)
Theorem vs_relate_to_keeps_dispatch (env : Env) (step : nat) (s : State)
  (masks : list Z) :
  Z.land (TRANS_SYSTEM_DEFAULT + TRANS_LANGEVIN_NPT) TRANS_VS_RELATIVE = 0 ->
  Forall2
    (fun m m' =>
       m' = m
       \/ exists calculate_vs_relate_to_params p_vs p_relate_to,
           VirtualSites.propagation p_vs = m
           /\ m' = VirtualSites.propagation
                     (VirtualSites.vs_relate_to calculate_vs_relate_to_params
                        p_vs p_relate_to))
    (particles s) masks ->
  integrator_step_1 env step (set_particles masks s)
  = (fst (integrator_step_1 env step s),
     set_particles masks (snd (integrator_step_1 env step s)))
  /\ integrator_step_2 (set_particles masks s)
     = set_particles masks (integrator_step_2 s).
Proof.
  intros Hnpt HR.
  assert (HR' : Forall2 (fun m m' => m' = m \/ m' = Z.lor m TRANS_VS_RELATIVE)
                  (particles s) masks).
  { eapply Forall2_impl; [|exact HR]. intros m m' [H|(c & p & q & <- & ->)];
      [now left | right; apply propagation_vs_relate_to]. }
  clear HR.
  set (s' := set_particles masks s).
  assert (Hflat1 : flat_map
                     (step_1_particle (default_propagation s)
                        (splittable
                           (TRANS_LANGEVIN + ROT_LANGEVIN + TRANS_BROWNIAN
                            + ROT_BROWNIAN) (default_propagation s)))
                     (local_particles s')
                   = flat_map
                       (step_1_particle (default_propagation s)
                          (splittable
                             (TRANS_LANGEVIN + ROT_LANGEVIN + TRANS_BROWNIAN
                              + ROT_BROWNIAN) (default_propagation s)))
                       (local_particles s)).
  { apply (flat_map_related _ _ _ _ HR').
    intros j m m' [->| ->]; [reflexivity|].
    apply step_particle_vs_relative. }
  assert (Hflat2 : flat_map
                     (step_2_particle (default_propagation s)
                        (splittable (TRANS_LANGEVIN + ROT_LANGEVIN)
                           (default_propagation s)))
                     (local_particles s')
                   = flat_map
                       (step_2_particle (default_propagation s)
                          (splittable (TRANS_LANGEVIN + ROT_LANGEVIN)
                             (default_propagation s)))
                       (local_particles s)).
  { apply (flat_map_related _ _ _ _ HR').
    intros j m m' [->| ->]; [reflexivity|].
    apply step_particle_vs_relative. }
  assert (Hfilter : forall c,
             Z.land c TRANS_VS_RELATIVE = 0 ->
             filter_range c s' = filter_range c s).
  { intros c Hc. unfold filter_range.
    apply (filter_related _ (fun m => nonzero (Z.land m c)) _ _ HR').
    intros m m' [->| ->]; [reflexivity|].
    now rewrite land_lor_vs_relative. }
  assert (H1 : step_1_calls s' = step_1_calls s).
  { unfold step_1_calls, npt_range.
    change (default_propagation s') with (default_propagation s).
    rewrite Hflat1, !Hfilter by (exact Hnpt || reflexivity). reflexivity. }
  assert (H2 : step_2_calls s' = step_2_calls s).
  { unfold step_2_calls, npt_range.
    change (default_propagation s') with (default_propagation s).
    rewrite Hflat2, !Hfilter by (exact Hnpt || reflexivity). reflexivity. }
  pose proof (integrator_step_1_dyn env step (dyn_of s) s) as E1.
  pose proof (integrator_step_2_dyn (dyn_of s) s) as E2.
  pose proof (integrator_step_1_dyn env step (dyn_of s) s') as E1'.
  pose proof (integrator_step_2_dyn (dyn_of s) s') as E2'.
  rewrite with_dyn_of in E1, E2.
  change (with_dyn (dyn_of s) s') with s' in E1', E2'.
  rewrite E1, E2, E1', E2', H1, H2. split; reflexivity.
Qed.

(** *** Counters of the coupled solvers *)

Lemma run_dyn_counter (env : Env) (s : State) (c : Dyn -> Z) (f : string)
  (n : Z) :
  1 <= n ->
  (forall step d,
      c (body_dyn env step s d) = counter_next (c d) n
      /\ count_calls f (d_calls (body_dyn env step s d))
         = (count_calls f (d_calls d)
            + if counter_fires (c d) n then 1 else 0)%nat) ->
  forall r step d,
    0 <= c d < n ->
    c (run_dyn env s step r d) = (c d + Z.of_nat r) mod n
    /\ count_calls f (d_calls (run_dyn env s step r d))
       = (count_calls f (d_calls d) + Z.to_nat ((c d + Z.of_nat r) / n))%nat.
Proof.
  intros Hn Hbody.
  induction r as [|r IH]; intros step d Hc; cbn [run_dyn].
  - rewrite Z.add_0_r, Z.mod_small, Z.div_small by lia. split; [reflexivity|].
    cbn. lia.
  - destruct (Hbody step d) as [Hf Hcount].
    assert (Hc' : 0 <= c (body_dyn env step s d) < n).
    { rewrite Hf, counter_next_mod by lia. apply Z.mod_pos_bound. lia. }
    destruct (IH (S step) (body_dyn env step s d) Hc') as [IH1 IH2].
    rewrite IH1, IH2, Hcount, Hf, counter_next_mod by lia.
    set (c0 := c d) in *.
    assert (Hdiv : (c0 + Z.of_nat (S r)) / n
                   = (c0 + 1) / n + ((c0 + 1) mod n + Z.of_nat r) / n).
    { pose proof (Z.div_mod (c0 + 1) n) as E.
      replace (c0 + Z.of_nat (S r))
        with ((c0 + 1) / n * n + ((c0 + 1) mod n + Z.of_nat r)) by lia.
      apply Z.div_add_l. lia. }
    split.
    + rewrite Z.add_mod_idemp_l by lia. f_equal. lia.
    + rewrite Hdiv, <- (counter_fires_div c0 n) by lia.
      assert (0 <= ((c0 + 1) mod n + Z.of_nat r) / n).
      { apply Z.div_pos; [|lia].
        pose proof (Z.mod_pos_bound (c0 + 1) n). lia. }
      destruct (counter_fires c0 n); lia.
Qed.

Lemma run_dyn_unchanged (env : Env) (s : State) (c : Dyn -> Z) :
  (forall step d, c (body_dyn env step s d) = c d) ->
  forall r step d, c (run_dyn env s step r d) = c d.
Proof.
  intros H. induction r as [|r IH]; intros step d; cbn [run_dyn];
    [reflexivity|].
  now rewrite IH, H.
Qed.

Lemma body_dyn_coupled (env : Env) (step : nat) (s : State) (d : Dyn)
  (f : string) :
  steepest_descent s = false ->
  LB_active env = true ->
  WALBERLA && negb (EK_container_empty env) = true ->
  In f ["LB::propagate"; "EK::propagate"]%string ->
  d_fluid_step (body_dyn env step s d)
  = counter_next (d_fluid_step d) (LB_get_steps_per_md_step env (time_step s))
  /\ count_calls f (d_calls (body_dyn env step s d))
     = (count_calls f (d_calls d)
        + if counter_fires (d_fluid_step d)
               (LB_get_steps_per_md_step env (time_step s))
          then 1 else 0)%nat.
Proof.
  intros Hsd Hlb Hek Hf. unfold body_dyn, body_dyn_1, one_step_dyn. cbv zeta.
  rewrite Hsd, Hlb, Hek. cbn [andb]. split; [reflexivity|].
  cbn [In] in Hf.
  destruct Hf as [<-|[<-|[]]]; destruct (box_geo_type s); dyn_compute;
    count_calls.
Qed.

Lemma body_dyn_coupled_rest (env : Env) (step : nat) (s : State) (d : Dyn) :
  steepest_descent s = false ->
  LB_active env = true ->
  WALBERLA && negb (EK_container_empty env) = true ->
  d_ek_step (body_dyn env step s d) = d_ek_step d
  /\ count_calls "lb_lbcoupling_propagate" (d_calls (body_dyn env step s d))
     = (count_calls "lb_lbcoupling_propagate" (d_calls d) + 1)%nat.
Proof.
  intros Hsd Hlb Hek. unfold body_dyn, body_dyn_1, one_step_dyn. cbv zeta.
  rewrite Hsd, Hlb, Hek. cbn [andb]. split; [reflexivity|].
  destruct (box_geo_type s); dyn_compute; count_calls.
Qed.

Lemma count_calls_solvers_prologue (env : Env) (reuse_forces : Z) (s : State)
  (f : string) :
  In f ["LB::propagate"; "EK::propagate"; "lb_lbcoupling_propagate"]%string ->
  count_calls f
    (d_calls (pre_loop_dyn env reuse_forces s (start_dyn env s (dyn_of s))))
  = count_calls f (calls s).
Proof.
  rewrite pre_loop_dyn_calls. unfold initial_force_calls. cbn [In].
  intros [<-|[<-|[<-|[]]]];
    destruct (initial_force_calculation_due reuse_forces s); count_calls.
Qed.

Lemma count_calls_solvers_epilogue (n_steps : Z) (l : LoopVars) (s : State)
  (d : Dyn) (f : string) :
  In f ["LB::propagate"; "EK::propagate"; "lb_lbcoupling_propagate"]%string ->
  count_calls f (d_calls (finish_dyn n_steps l s d)) = count_calls f (d_calls d).
Proof.
  destruct (finish_dyn_fields n_steps l s d) as (_ & _ & _ & _ & _ & _ & ->).
  cbn [In].
  intros [<-|[<-|[<-|[]]]]; destruct (box_geo_type s); count_calls.
Qed.

Lemma run_dyn_coupled_assert (env : Env) (s : State) (r : nat) :
  steepest_descent s = false ->
  LB_active env = true ->
  WALBERLA && negb (EK_container_empty env) = true ->
  LB_get_steps_per_md_step env (time_step s) = 1 ->
  forall step d,
    d_fluid_step d = 0 -> d_ek_step d = 0 ->
    count_calls "__assert_fail" (d_calls (run_dyn env s step r d))
    = count_calls "__assert_fail" (d_calls d).
Proof.
  intros Hsd Hlb Hek HN.
  induction r as [|r IH]; intros step d Hf He; cbn [run_dyn]; [reflexivity|].
  destruct (body_dyn_coupled env step s d "LB::propagate" Hsd Hlb Hek)
    as [Hf' _]; [now left|].
  destruct (body_dyn_coupled_rest env step s d Hsd Hlb Hek) as [He' _].
  rewrite IH.
  - apply body_dyn_coupled_assert; congruence.
  - rewrite Hf', HN, Hf. reflexivity.
  - congruence.
Qed.

(** X25. With the lattice fluid and the electrokinetics solver both active,
    each taking one step per MD step, and both step counters at 0, their
    value at process start, an error-free run stays synchronised: the
    assertion that the counters are equal holds in every iteration, every
    MD step propagates the lattice fluid and then the electrokinetics
    solver and couples the particles to the fluid, and both counters are 0
    again at the end, so that the next run starts as this one did. *)
Theorem coupled_solvers_propagation (env : Env) (n_steps reuse_forces : Z)
  (s : State) :
  integ_switch s <> INTEG_METHOD_STEEPEST_DESCENT ->
  LB_active env = true ->
  WALBERLA = true ->
  EK_container_empty env = false ->
  LB_get_steps_per_md_step env (time_step s) = 1 ->
  EK_get_steps_per_md_step env (time_step s) = 1 ->
  fluid_step s = 0 ->
  ek_step s = 0 ->
  0 <= n_steps ->
  check_runtime_errors
    (propagation_sanity_checks
       (get_used_propagations (on_integration_start env s))) = false ->
  initial_force_errors env = [] ->
  (forall i, step_errors env i = []) ->
  comm_cart_size env <> 1
  \/ (ctrl_C s <> 1 /\ forall i, sigint_during env i = false) ->
  exists s',
    integrate env n_steps reuse_forces s = (n_steps, s')
    /\ fluid_step s' = 0
    /\ ek_step s' = 0
    /\ count_calls "__assert_fail" (calls s')
       = count_calls "__assert_fail" (calls s)
    /\ count_calls "LB::propagate" (calls s')
       = (count_calls "LB::propagate" (calls s) + Z.to_nat n_steps)%nat
    /\ count_calls "EK::propagate" (calls s')
       = (count_calls "EK::propagate" (calls s) + Z.to_nat n_steps)%nat
    /\ count_calls "lb_lbcoupling_propagate" (calls s')
       = (count_calls "lb_lbcoupling_propagate" (calls s)
          + Z.to_nat n_steps)%nat.
Proof.
  intros Hsd Hlb Hw Hek HN HN' Hf0 He0 Hsteps Hpoll Hforce Herr Hsig.
  apply Z.eqb_neq in Hsd. fold (steepest_descent s) in Hsd.
  assert (Hek' : WALBERLA && negb (EK_container_empty env) = true)
    by (rewrite Hw, Hek; reflexivity).
  assert (Hcoupling : coupling_errors env s = []).
  { unfold coupling_errors. rewrite HN, HN', Z.eqb_refl, !andb_false_r.
    reflexivity. }
  destruct (integrate_prefix env n_steps reuse_forces s (Z.to_nat n_steps) 0)
    as [E _]; try assumption; auto using early_exit_not_steepest_descent.
  { destruct Hsig as [H | [H1 H2]]; [left; now apply Z.eqb_neq | right; auto]. }
  rewrite E. cbn [integration_loop]. rewrite finish_dyn_eq.
  destruct (steps_done_spec env (Z.to_nat n_steps) 0%nat
              (Build_LoopVars 0 0 false false)) as (Hi & Hs & He).
  rewrite Hs, He, Hi. cbn [caught_sigint caught_error integrated_steps].
  rewrite Z2Nat.id by assumption. eexists. split; [reflexivity|].
  cbn [fluid_step ek_step calls with_dyn].
  destruct (pre_loop_dyn_fields env reuse_forces s)
    as (_ & _ & Hf1 & He1 & _).
  pose proof (count_calls_solvers_prologue env reuse_forces s) as Hp.
  pose proof (count_calls_assert_prologue env reuse_forces s) as Ha.
  set (d1 := pre_loop_dyn env reuse_forces s (start_dyn env s (dyn_of s)))
    in *.
  clearbody d1.
  set (l := steps_done env 0 (Z.to_nat n_steps)
              (Build_LoopVars 0 0 false false)) in *.
  rewrite count_calls_assert_epilogue.
  rewrite !count_calls_solvers_epilogue by (cbn [In]; tauto).
  destruct (finish_dyn_fields n_steps l s
              (run_dyn env s 0 (Z.to_nat n_steps) d1))
    as (_ & _ & -> & -> & _).
  assert (Hrun : forall f,
             In f ["LB::propagate"; "EK::propagate"]%string ->
             d_fluid_step (run_dyn env s 0 (Z.to_nat n_steps) d1) = 0
             /\ count_calls f (d_calls (run_dyn env s 0 (Z.to_nat n_steps) d1))
                = (count_calls f (calls s) + Z.to_nat n_steps)%nat).
  { intros f Hf.
    destruct (run_dyn_counter env s d_fluid_step f 1 ltac:(lia))
      with (r := Z.to_nat n_steps) (step := 0%nat) (d := d1) as [R1 R2].
    - intros step d. rewrite <- HN. now apply body_dyn_coupled.
    - rewrite Hf1. lia.
    - rewrite R1, R2, Hf1, Hf0, Z2Nat.id by assumption.
      rewrite Hp by (cbn [In] in *; tauto).
      rewrite Z.mod_1_r, Z.div_1_r, Z.add_0_l. split; reflexivity. }
  destruct (Hrun "LB::propagate"%string) as [R1 R2]; [cbn [In]; tauto|].
  destruct (Hrun "EK::propagate"%string) as [_ R3]; [cbn [In]; tauto|].
  rewrite R1, R2, R3.
  rewrite (run_dyn_unchanged env s d_ek_step), He1
    by (intros; now apply body_dyn_coupled_rest).
  rewrite (run_dyn_count env s "lb_lbcoupling_propagate" 1), Hp
    by (intros; (now apply body_dyn_coupled_rest) || (cbn [In]; tauto)).
  rewrite run_dyn_coupled_assert, Ha by (assumption || congruence).
  repeat split; try lia.
Qed.

Lemma body_dyn_ek_only (env : Env) (step : nat) (s : State) (d : Dyn) :
  steepest_descent s = false ->
  LB_active env = false ->
  WALBERLA && negb (EK_container_empty env) = true ->
  (d_ek_step (body_dyn env step s d)
   = counter_next (d_ek_step d) (EK_get_steps_per_md_step env (time_step s))
   /\ count_calls "EK::propagate" (d_calls (body_dyn env step s d))
      = (count_calls "EK::propagate" (d_calls d)
         + if counter_fires (d_ek_step d)
                (EK_get_steps_per_md_step env (time_step s))
           then 1 else 0)%nat)
  /\ d_fluid_step (body_dyn env step s d) = d_fluid_step d
  /\ count_calls "lb_lbcoupling_propagate" (d_calls (body_dyn env step s d))
     = (count_calls "lb_lbcoupling_propagate" (d_calls d) + 0)%nat.
Proof.
  intros Hsd Hlb Hek. unfold body_dyn, body_dyn_1, one_step_dyn. cbv zeta.
  rewrite Hsd, Hlb, Hek. cbn [andb].
  split; [split; [reflexivity|] | split; [reflexivity|]];
    destruct (box_geo_type s); dyn_compute; count_calls.
Qed.

(** X26. With the electrokinetics solver alone active and [n] steps per MD
    step, the loop counts in [ek_step]: every [n] MD steps it resets the
    counter and propagates the solver. It leaves [fluid_step] alone and
    couples no particle to a fluid. *)
Theorem electrokinetics_propagation (env : Env) (n_steps reuse_forces : Z)
  (s : State) (n : Z) :
  integ_switch s <> INTEG_METHOD_STEEPEST_DESCENT ->
  LB_active env = false ->
  WALBERLA = true ->
  EK_container_empty env = false ->
  EK_get_steps_per_md_step env (time_step s) = n ->
  1 <= n ->
  0 <= ek_step s < n ->
  0 <= n_steps ->
  check_runtime_errors
    (propagation_sanity_checks
       (get_used_propagations (on_integration_start env s))) = false ->
  initial_force_errors env = [] ->
  (forall i, step_errors env i = []) ->
  comm_cart_size env <> 1
  \/ (ctrl_C s <> 1 /\ forall i, sigint_during env i = false) ->
  exists s',
    integrate env n_steps reuse_forces s = (n_steps, s')
    /\ ek_step s' = (ek_step s + n_steps) mod n
    /\ fluid_step s' = fluid_step s
    /\ count_calls "EK::propagate" (calls s')
       = (count_calls "EK::propagate" (calls s)
          + Z.to_nat ((ek_step s + n_steps) / n))%nat
    /\ count_calls "lb_lbcoupling_propagate" (calls s')
       = count_calls "lb_lbcoupling_propagate" (calls s).
Proof.
  intros Hsd Hlb Hw Hek HN Hn Hc Hsteps Hpoll Hforce Herr Hsig.
  apply Z.eqb_neq in Hsd. fold (steepest_descent s) in Hsd.
  assert (Hek' : WALBERLA && negb (EK_container_empty env) = true)
    by (rewrite Hw, Hek; reflexivity).
  assert (Hcoupling : coupling_errors env s = []).
  { unfold coupling_errors. rewrite Hlb, !andb_false_r. reflexivity. }
  destruct (integrate_prefix env n_steps reuse_forces s (Z.to_nat n_steps) 0)
    as [E _]; try assumption; auto using early_exit_not_steepest_descent.
  { destruct Hsig as [H | [H1 H2]]; [left; now apply Z.eqb_neq | right; auto]. }
  rewrite E. cbn [integration_loop]. rewrite finish_dyn_eq.
  destruct (steps_done_spec env (Z.to_nat n_steps) 0%nat
              (Build_LoopVars 0 0 false false)) as (Hi & Hs & He).
  rewrite Hs, He, Hi. cbn [caught_sigint caught_error integrated_steps].
  rewrite Z2Nat.id by assumption. eexists. split; [reflexivity|].
  cbn [fluid_step ek_step calls with_dyn].
  destruct (pre_loop_dyn_fields env reuse_forces s)
    as (_ & _ & Hf1 & He1 & _).
  pose proof (count_calls_solvers_prologue env reuse_forces s) as Hp.
  set (d1 := pre_loop_dyn env reuse_forces s (start_dyn env s (dyn_of s)))
    in *.
  clearbody d1.
  set (l := steps_done env 0 (Z.to_nat n_steps)
              (Build_LoopVars 0 0 false false)) in *.
  rewrite !count_calls_solvers_epilogue by (cbn [In]; tauto).
  destruct (finish_dyn_fields n_steps l s
              (run_dyn env s 0 (Z.to_nat n_steps) d1))
    as (_ & _ & -> & -> & _).
  destruct (run_dyn_counter env s d_ek_step "EK::propagate" n Hn) 
    with (r := Z.to_nat n_steps) (step := 0%nat) (d := d1) as [R1 R2].
  { intros step d. rewrite <- HN. now apply body_dyn_ek_only. }
  { rewrite He1. exact Hc. }
  rewrite R1, R2, He1, Z2Nat.id, Hp by (assumption || (cbn [In]; tauto)).
  rewrite (run_dyn_unchanged env s d_fluid_step), Hf1
    by (intros; now apply body_dyn_ek_only).
  rewrite (run_dyn_count env s "lb_lbcoupling_propagate" 0), Hp
    by (intros; (now apply body_dyn_ek_only) || (cbn [In]; tauto)).
  repeat split; lia.
Qed.

(** *** Brownian dynamics *)

Lemma flat_map_default_particles {B} (f : nat * Z -> list B)
  (g : nat -> list B) (l : list Z) :
  Forall (fun m => m = TRANS_SYSTEM_DEFAULT) l ->
  (forall j, f (j, TRANS_SYSTEM_DEFAULT) = g j) ->
  forall a,
    flat_map f (combine (seq a (List.length l)) l)
    = flat_map g (seq a (List.length l)).
Proof.
  intros Hl Hf. induction Hl as [|m l -> _ IH]; intros a;
    cbn [List.length seq combine flat_map]; [reflexivity|].
  now rewrite IH, Hf.
Qed.

Lemma filter_range_nil (c : Z) (s : State) :
  Forall (fun m => Z.land m c = 0) (particles s) -> filter_range c s = [].
Proof.
  unfold filter_range, local_particles. generalize 0%nat.
  induction (particles s) as [|m l IH]; intros a H;
    cbn [List.length seq combine filter map]; [reflexivity|].
  inversion H as [|? ? Hm Hl]; subst. cbn [snd]. rewrite Hm. cbn [nonzero].
  now apply IH.
Qed.

(** X27. Brownian dynamics has no second phase. After
    [set_integ_switch(INTEG_METHOD_BD)], with every local particle tagged
    [TRANS_SYSTEM_DEFAULT] only, phase 1 of a step runs on each particle,
    in the order of the range, the Brownian propagator and, with
    [ROTATION], the Brownian rotator, and nothing else;
    [integrator_step_2] does nothing at all. (The flag
    [TRANS_LANGEVIN_NPT], whose value is not in these sources, is taken
    to be none of the two Brownian flags.) *)
Theorem brownian_dynamics_steps (env : Env) (step : nat) (s : State) :
  NoDup [INTEG_METHOD_STEEPEST_DESCENT; INTEG_METHOD_NVT;
         INTEG_METHOD_NPT_ISO; INTEG_METHOD_BD; INTEG_METHOD_SD] ->
  Z.land TRANS_BROWNIAN TRANS_LANGEVIN_NPT = 0 ->
  Z.land ROT_BROWNIAN TRANS_LANGEVIN_NPT = 0 ->
  Forall (fun m => m = TRANS_SYSTEM_DEFAULT) (particles s) ->
  exists s1,
    set_integ_switch INTEG_METHOD_BD s = Return tt s1
    /\ calls (snd (integrator_step_1 env step s1))
       = calls s1
         ++ flat_map
              (fun i =>
                 Propagate brownian_dynamics_propagator i
                 :: opt ROTATION (Propagate brownian_dynamics_rotator i))
              (seq 0 (List.length (particles s)))
    /\ integrator_step_2 s1 = s1.
Proof.
  intros Hnd Hb Hr Hall.
  destruct (set_integ_switch_table INTEG_METHOD_BD s Hnd)
    as (_ & _ & Hbd & _).
  destruct (Hbd eq_refl) as (s1 & E & Hdp).
  assert (Hi : integ_switch s1 = INTEG_METHOD_BD
               /\ particles s1 = particles s).
  { unfold set_integ_switch, default_propagation_from_integ,
      default_propagation_case_NVT in E.
    cbv zeta in E.
    repeat match type of E with
           | context [if ?b then _ else _] => destruct b
           end;
      first [discriminate E | injection E as <-; split; reflexivity]. }
  destruct Hi as [Hi Hp].
  assert (Hsd : integ_switch s1 <> INTEG_METHOD_STEEPEST_DESCENT).
  { rewrite Hi. intros Habs.
    repeat match goal with
           | H : NoDup (_ :: _) |- _ => inversion H; subst; clear H
           end.
    cbn [In] in *. rewrite Habs in *. tauto. }
  exists s1. split; [exact E|].
  assert (Hnpt : Z.land (default_propagation s1) TRANS_LANGEVIN_NPT = 0).
  { rewrite Hdp. destruct ROTATION; [|exact Hb].
    change (TRANS_BROWNIAN + ROT_BROWNIAN)
      with (Z.lor TRANS_BROWNIAN ROT_BROWNIAN).
    now rewrite Z.land_lor_distr_l, Hb, Hr. }
  split.
  - rewrite calls_integrator_step_1 by exact Hsd. f_equal.
    unfold step_1_calls, local_particles. rewrite Hnpt, Hp.
    assert (Hst : nonzero (Z.land (default_propagation s1) TRANS_STOKESIAN)
                  = false)
      by (rewrite Hdp; destruct ROTATION; reflexivity).
    rewrite Hst, !andb_false_r. cbn [nonzero Z.eqb negb opt].
    rewrite !app_nil_r.
    apply flat_map_default_particles; [exact Hall|].
    intros j. rewrite Hdp. destruct ROTATION; reflexivity.
  - pose proof (integrator_step_2_dyn (dyn_of s1) s1) as E2.
    rewrite with_dyn_of in E2. rewrite E2.
    apply Z.eqb_neq in Hsd. fold (steepest_descent s1) in Hsd. rewrite Hsd.
    assert (H2 : step_2_calls s1 = []).
    { unfold step_2_calls, local_particles. rewrite Hnpt, Hp.
      rewrite !andb_false_r. cbn [nonzero Z.eqb negb opt]. rewrite app_nil_r.
      rewrite (flat_map_default_particles _ (fun _ => []) _ Hall).
      - induction (seq 0 (List.length (particles s))); [reflexivity|assumption].
      - intros j. rewrite Hdp. destruct ROTATION; reflexivity. }
    rewrite H2, dyn_log_nil. apply with_dyn_of.
Qed.

(** *** Setters *)

Lemma is_nan_comparisons (v : float) :
  PrimFloat.is_nan v = true ->
  (v <=? 0)%float = false /\ (v <? 0)%float = false.
Proof.
  unfold PrimFloat.is_nan. rewrite eqb_spec, leb_spec, ltb_spec.
  destruct (Prim2SF v) as [sg | sg | | sg m e]; cbn.
  - destruct sg; discriminate.
  - destruct sg; discriminate.
  - intros _. split; reflexivity.
  - unfold SFeqb, SFcompare. rewrite Z.compare_refl, Pos.compare_refl.
    destruct sg; discriminate.
Qed.

(** X28. The guard of [set_time_step] is [value <= 0.], which is false for a
    NaN: a NaN is not refused but stored as the time step (when the lattice
    fluid is inactive or accepts it), the notification fires, and
    [integrator_sanity_checks], which tests [time_step < 0.0], does not
    report it as not set. *)
Theorem set_time_step_nan (env : Env) (v : float) (s : State) :
  PrimFloat.is_nan v = true ->
  (LB_active env = true ->
   LB_check_tau_time_step_consistency env (LB_get_tau env) v = None) ->
  exists s',
    set_time_step env v s = Return tt s'
    /\ time_step s' = v
    /\ calls s' = calls s ++ [Extern "on_timestep_change"]
    /\ (~ In "time_step not set"%string (runtime_errors s) ->
        ~ In "time_step not set"%string
            (runtime_errors (integrator_sanity_checks s'))).
Proof.
  intros Hnan Hlb. destruct (is_nan_comparisons v Hnan) as [Hle Hlt].
  unfold set_time_step. rewrite Hle.
  assert (E : (if LB_active env
               then LB_check_tau_time_step_consistency env (LB_get_tau env) v
               else None) = None).
  { destruct (LB_active env); [now apply Hlb | reflexivity]. }
  rewrite E. eexists. split; [reflexivity|].
  split; [reflexivity|]. split; [reflexivity|].
  intros Hno. unfold integrator_sanity_checks. cbv zeta.
  cbn [time_step call log set_calls set_time_step_var]. rewrite Hlt.
  repeat (match goal with
          | |- context [if ?b then _ else _] => destruct b
          end; cbv iota);
    unfold runtimeErrorMsg; cbn [runtime_errors set_runtime_errors];
    rewrite ?in_app_iff; cbn [In]; intuition discriminate.
Qed.

(** X29. What a successful [set_integ_switch] leaves does not depend on the
    integrator selected before: selecting [v2] after any [v1], accepted or
    not, gives the state that selecting [v2] at once gives. In particular
    the function is idempotent. *)
Theorem set_integ_switch_last_wins (v1 v2 : Z) (s s2 : State) :
  set_integ_switch v2 s = Return tt s2 ->
  set_integ_switch v2 (state_of (set_integ_switch v1 s)) = Return tt s2.
Proof.
  unfold set_integ_switch, default_propagation_from_integ,
    default_propagation_case_NVT.
  cbv zeta.
  change (integ_switch (set_recalc_forces true (set_integ_switch_var ?v ?x)))
    with v.
  intros H.
  destruct (v2 =? INTEG_METHOD_STEEPEST_DESCENT);
    [|destruct (v2 =? INTEG_METHOD_NVT);
      [|destruct (NPT && (v2 =? INTEG_METHOD_NPT_ISO));
        [|destruct (v2 =? INTEG_METHOD_BD);
          [|destruct (STOKESIAN_DYNAMICS && (v2 =? INTEG_METHOD_SD));
            [|discriminate H]]]]];
    injection H as <-;
    destruct (v1 =? INTEG_METHOD_STEEPEST_DESCENT),
      (v1 =? INTEG_METHOD_NVT), (NPT && (v1 =? INTEG_METHOD_NPT_ISO)),
      (v1 =? INTEG_METHOD_BD), (STOKESIAN_DYNAMICS && (v1 =? INTEG_METHOD_SD)),
      ROTATION; reflexivity.
Qed.

(** X30. The default propagation that [set_integ_switch] installs for the
    velocity-Verlet, Brownian and Stokesian integrators, and for steepest
    descent, is a combination that [is_valid_propagation_combination]
    accepts. *)
Theorem default_propagation_is_valid (value : Z) (s s' : State) :
  NoDup [INTEG_METHOD_STEEPEST_DESCENT; INTEG_METHOD_NVT;
         INTEG_METHOD_NPT_ISO; INTEG_METHOD_BD; INTEG_METHOD_SD] ->
  In value [INTEG_METHOD_STEEPEST_DESCENT; INTEG_METHOD_NVT; INTEG_METHOD_BD;
            INTEG_METHOD_SD] ->
  set_integ_switch value s = Return tt s' ->
  is_valid_propagation_combination (default_propagation s') = true.
Proof.
  intros Hnd Hin E.
  destruct (set_integ_switch_table value s Hnd)
    as (Hnvt & _ & Hbd & Hsd & _).
  cbn [In] in Hin. destruct Hin as [<-|[<-|[<-|[<-|[]]]]].
  - unfold set_integ_switch, default_propagation_from_integ,
      default_propagation_case_NVT in E.
    cbv zeta in E.
    change (integ_switch
              (set_recalc_forces true (set_integ_switch_var ?v ?x)))
      with v in E.
    rewrite Z.eqb_refl in E. injection E as <-.
    destruct ROTATION; reflexivity.
  - destruct (Hnvt eq_refl) as (s1 & E1 & Hd). rewrite E1 in E.
    injection E as <-. rewrite Hd. destruct ROTATION; reflexivity.
  - destruct (Hbd eq_refl) as (s1 & E1 & Hd). rewrite E1 in E.
    injection E as <-. rewrite Hd. destruct ROTATION; reflexivity.
  - destruct STOKESIAN_DYNAMICS eqn:Hs.
    + destruct (Hsd eq_refl eq_refl) as (s1 & E1 & Hd). rewrite E1 in E.
      injection E as <-. rewrite Hd. reflexivity.
    + exfalso.
      assert (Hd : INTEG_METHOD_SD <> INTEG_METHOD_STEEPEST_DESCENT
                   /\ INTEG_METHOD_SD <> INTEG_METHOD_NVT
                   /\ INTEG_METHOD_SD <> INTEG_METHOD_NPT_ISO
                   /\ INTEG_METHOD_SD <> INTEG_METHOD_BD).
      { repeat match goal with
               | H : NoDup (_ :: _) |- _ => inversion H; subst; clear H
               end.
        cbn [In] in *. repeat split; intros Habs; rewrite Habs in *; tauto. }
      destruct Hd as (H1 & H2 & H3 & H4).
      unfold set_integ_switch, default_propagation_from_integ in E.
      cbv zeta in E.
      change (integ_switch
                (set_recalc_forces true (set_integ_switch_var ?v ?x)))
        with v in E.
      apply Z.eqb_neq in H1, H2, H3, H4.
      rewrite H1, H2, H3, H4, Hs, andb_false_r in E. discriminate E.
Qed.


End Properties.

(** ** Instances *)






(** C4 at Langevin translation with Langevin rotation. *)
Lemma is_valid_propagation_combination_witness :
  is_valid_propagation_combination (TRANS_LANGEVIN + ROT_LANGEVIN) = true
  <-> TRANS_LANGEVIN + ROT_LANGEVIN = 0
      \/ single_bit (TRANS_LANGEVIN + ROT_LANGEVIN)
      \/ In (TRANS_LANGEVIN + ROT_LANGEVIN) listed_combinations.
Proof.
  apply (is_valid_propagation_combination_spec (TRANS_LANGEVIN + ROT_LANGEVIN)).
  vm_compute. split; discriminate.
Defined.

(** Langevin translation with Brownian rotation is not a valid combination;
    Langevin translation with Langevin rotation is. *)
Lemma is_valid_propagation_combination_examples :
  is_valid_propagation_combination (TRANS_LANGEVIN + ROT_BROWNIAN) = false
  /\ is_valid_propagation_combination (TRANS_LANGEVIN + ROT_LANGEVIN) = true
  /\ is_valid_propagation_combination ROT_VS_RELATIVE = true
  /\ is_valid_propagation_combination NONE = true.
Proof. repeat split. Qed.

(** C5 as stated fails for the Stokesian family: the mask of the particle
    carries [TRANS_STOKESIAN], so the rule applies, and phase 1 calls no
    kernel at all, the default being Langevin dynamics. *)
Lemma stokesian_particle_not_propagated :
  nth_error (particles stokesian_particle_state) 0 = Some TRANS_STOKESIAN
  /\ applies (default_propagation stokesian_particle_state) TRANS_STOKESIAN
       TRANS_STOKESIAN
  /\ calls (snd (@integrator_step_1 example_features example_codes quiet_env 0
                   stokesian_particle_state))
     = calls stokesian_particle_state.
Proof.
  split; [reflexivity|]. split; [left; vm_compute; discriminate | reflexivity].
Qed.

(** C5 for a particle tagged default-only under the NVT default. *)
Lemma propagation_dispatch_witness :
  In (Propagate velocity_verlet_propagate_vel_pos_par 0)
    (@step_1_calls example_features example_codes nvt_state)
  <-> applies (default_propagation nvt_state) TRANS_SYSTEM_DEFAULT
        TRANS_LANGEVIN.
Proof.
  destruct (@propagation_dispatch example_features example_codes quiet_env 0
              nvt_state 0 TRANS_SYSTEM_DEFAULT) as (_ & _ & _ & H & _).
  - discriminate.
  - reflexivity.
  - apply (H TRANS_LANGEVIN velocity_verlet_propagate_vel_pos_par).
    left. reflexivity.
Defined.

(** C6 at [npt_lees_edwards_state]. *)
Lemma integrate_NPT_LeesEdwards_witness :
  exists s',
    @integrate example_features example_codes quiet_env 10 0
      npt_lees_edwards_state
    = (@INTEG_ERROR_RUNTIME example_codes, s')
    /\ sim_time s' = sim_time npt_lees_edwards_state.
Proof.
  destruct (@integrate_NPT_LeesEdwards example_features example_codes quiet_env
              10 0 npt_lees_edwards_state)
    as (_ & s' & E & _ & _ & Ht & _).
  - reflexivity.
  - discriminate.
  - discriminate.
  - reflexivity.
  - reflexivity.
  - exists s'. split; assumption.
Defined.

(** C7 at the values -1 and 0.5. *)
Lemma set_time_step_witness :
  set_time_step quiet_env (-1) nvt_state
  = Throw (domain_error "time_step must be > 0.") nvt_state
  /\ exists s',
      set_time_step quiet_env 0.5 nvt_state = Return tt s'
      /\ time_step s' = 0.5%float.
Proof.
  split.
  - apply (proj1 (set_time_step_spec quiet_env (-1) nvt_state)). reflexivity.
  - destruct (proj2 (set_time_step_spec quiet_env 0.5 nvt_state))
      as (s' & E & Ht & _).
    + reflexivity.
    + discriminate.
    + exists s'. split; assumption.
Defined.

(** C8 at 3 steps per MD step: nine MD steps propagate the fluid three
    times. *)
Lemma lattice_fluid_propagation_witness :
  exists s',
    @integrate example_features example_codes (fluid_env 3) 9 0 nvt_state
    = (9, s')
    /\ fluid_step s' = 0
    /\ count_calls "LB::propagate" (calls s') = 3%nat.
Proof.
  destruct (@lattice_fluid_propagation example_features example_codes
              (fluid_env 3) 9 0 nvt_state 3) as (_ & s' & E & Hf & Hc).
  - discriminate.
  - reflexivity.
  - reflexivity.
  - reflexivity.
  - lia.
  - vm_compute. split; [discriminate | reflexivity].
  - lia.
  - reflexivity.
  - reflexivity.
  - intros i. reflexivity.
  - right. split; [discriminate | intros i; reflexivity].
  - exists s'. split; [exact E|]. split; [exact Hf | exact Hc].
Defined.

(** C9 at a switch to NVT, followed by one step. *)
Lemma set_integ_switch_forces_recalculation_witness :
  recalc_forces
    (state_of (@set_integ_switch example_features example_codes
                 (@INTEG_METHOD_NVT example_codes) nvt_state)) = true
  /\ exists rest,
      calls (snd (@integrate example_features example_codes quiet_env 1 0
                    (state_of (@set_integ_switch example_features example_codes
                                 (@INTEG_METHOD_NVT example_codes) nvt_state))))
      = calls (state_of (@set_integ_switch example_features example_codes
                           (@INTEG_METHOD_NVT example_codes) nvt_state))
        ++ [Extern "on_integration_start"]
        ++ @initial_force_calls example_features example_codes
             (state_of (@set_integ_switch example_features example_codes
                          (@INTEG_METHOD_NVT example_codes) nvt_state))
        ++ [Extern "lb_lbcoupling_activate"] ++ rest.
Proof.
  destruct (@set_integ_switch_forces_recalculation example_features
              example_codes (@INTEG_METHOD_NVT example_codes) nvt_state
              quiet_env 1 0) as [Hr H].
  destruct H as [_ Hrest].
  - discriminate.
  - reflexivity.
  - split; [exact Hr | exact Hrest].
Defined.


(** ** Instances of the further properties *)

(** X1 at Langevin translation with Langevin rotation. *)
Lemma valid_combination_modes_witness :
  In (Z.land (TRANS_LANGEVIN + ROT_LANGEVIN) rotation_modes)
    [0; ROT_LANGEVIN; ROT_VS_RELATIVE; ROT_BROWNIAN].
Proof.
  apply (valid_combination_modes (TRANS_LANGEVIN + ROT_LANGEVIN)).
  - vm_compute. split; discriminate.
  - reflexivity.
Defined.

(** X2 at a site tagged for lattice-fluid momentum exchange, which stays
    valid, and not at a site tagged default-only. *)
Lemma vs_relate_to_valid_combination_witness :
  is_valid_propagation_combination
    (VirtualSites.propagation
       (VirtualSites.vs_relate_to example_vs_relate_to_params
          (example_particle 1 TRANS_LB_MOMENTUM_EXCHANGE)
          (example_particle 0 TRANS_SYSTEM_DEFAULT))) = true
  /\ is_valid_propagation_combination
       (VirtualSites.propagation
          (VirtualSites.vs_relate_to example_vs_relate_to_params
             (example_particle 1 TRANS_SYSTEM_DEFAULT)
             (example_particle 0 TRANS_SYSTEM_DEFAULT))) <> true.
Proof.
  split.
  - apply (vs_relate_to_valid_combination example_vs_relate_to_params
             (example_particle 1 TRANS_LB_MOMENTUM_EXCHANGE)
             (example_particle 0 TRANS_SYSTEM_DEFAULT)).
    + vm_compute. split; discriminate.
    + exists TRANS_LB_MOMENTUM_EXCHANGE, 0. vm_compute. tauto.
  - intros H.
    apply (vs_relate_to_valid_combination example_vs_relate_to_params
             (example_particle 1 TRANS_SYSTEM_DEFAULT)
             (example_particle 0 TRANS_SYSTEM_DEFAULT)) in H.
    + destruct H as (t & r & Ht & Hr & E). vm_compute in Ht, Hr, E.
      intuition (subst; discriminate).
    + vm_compute. split; discriminate.
Defined.

(** X6 at process start, where [time_step] is -1. *)
Lemma integrate_refuses_to_start_witness :
  exists s',
    @integrate example_features example_codes quiet_env 10 0
      (@initial_state example_codes)
    = (@INTEG_ERROR_RUNTIME example_codes, s')
    /\ calls s' = [Extern "on_integration_start"].
Proof.
  destruct (@integrate_refuses_to_start example_features example_codes
              quiet_env 10 0 (@initial_state example_codes))
    as (s' & E & Hc & _).
  - right. left. reflexivity.
  - exists s'. split; [exact E | exact Hc].
Defined.

(** X7 at the value 99. *)
Lemma set_integ_switch_unknown_value_witness :
  exists s',
    @set_integ_switch example_features example_codes 99 nvt_state
    = Throw (runtime_error "Unknown value for integ_switch") s'
    /\ integ_switch s' = 99
    /\ fst (@integrate example_features example_codes quiet_env 10 0 s')
       = @INTEG_ERROR_RUNTIME example_codes.
Proof.
  destruct (@set_integ_switch_unknown_value example_features example_codes 99
              nvt_state) as (s' & E & Hi & _ & _ & H);
    try discriminate.
  exists s'. split; [exact E|]. split; [exact Hi|].
  apply (H quiet_env 10 0).
Defined.

(** X9 at a call for zero steps after a switch of the integrator. *)
Lemma integrate_no_steps_witness :
  exists s',
    @integrate example_features example_codes quiet_env 0 0 nvt_state = (0, s')
    /\ sim_time s' = sim_time nvt_state
    /\ count_calls "force_calc" (calls s') = 1%nat.
Proof.
  destruct (@integrate_no_steps example_features example_codes quiet_env 0 0
              nvt_state) as (s' & E & Ht & _ & _ & Hf & _).
  - lia.
  - reflexivity.
  - reflexivity.
  - exists s'. split; [exact E|]. split; [exact Ht | exact Hf].
Defined.

(** X10 at a minimization that converges in its third iteration. *)
Lemma integrate_steepest_descent_converges_witness :
  exists s',
    @integrate example_features example_codes
      (solver_env 1 None None no_errors never (Nat.eqb 2) never) 10 0
      steepest_descent_state
    = (2, s')
    /\ sim_time s' = sim_time steepest_descent_state.
Proof.
  destruct (@integrate_steepest_descent_converges example_features
              example_codes
              (solver_env 1 None None no_errors never (Nat.eqb 2) never) 10 0
              steepest_descent_state 2) as (s' & E & Ht & _).
  - reflexivity.
  - vm_compute. lia.
  - reflexivity.
  - reflexivity.
  - intros i Hi. destruct i as [|[|i]]; [reflexivity | reflexivity | lia].
  - reflexivity.
  - intros i _. reflexivity.
  - right. split; [discriminate | intros i _; reflexivity].
  - exists s'. split; [exact E | exact Ht].
Defined.


(** X12 at a fluid of 2 and an electrokinetics solver of 3 steps per MD
    step. *)
Lemma integrate_LB_EK_mismatch_witness :
  exists s',
    @integrate walberla_features example_codes
      (solver_env 1 (Some 2) (Some 3) no_errors never never never) 10 0
      nvt_state
    = (@INTEG_ERROR_RUNTIME example_codes, s')
    /\ fluid_step s' = 1
    /\ count_calls "__assert_fail" (calls s') = 0%nat.
Proof.
  destruct (@integrate_LB_EK_mismatch walberla_features example_codes
              (solver_env 1 (Some 2) (Some 3) no_errors never never never)
              10 0 nvt_state) as (s' & E & _ & _ & _ & Hf & Ha).
  - lia.
  - discriminate.
  - reflexivity.
  - reflexivity.
  - reflexivity.
  - discriminate.
  - reflexivity.
  - reflexivity.
  - reflexivity.
  - exists s'. split; [exact E|]. split; [exact Hf | exact Ha].
Defined.





(** X17 at [set_time]. *)
Lemma forces_recalculated_after_witness :
  recalc_forces (set_time 1 nvt_state) = true.
Proof.
  apply (@forces_recalculated_after example_features example_codes 1
           nvt_state (set_time 1 nvt_state) quiet_env 1 0).
  left. reflexivity.
Defined.



(** X20 on the head node. *)
Lemma integrate_with_signal_handler_no_skin_witness :
  @integrate_with_signal_handler example_features example_codes
    no_cutoff_world 10 10 0 true nvt_state
  = Some
      (Throw
         (runtime_error
            "cannot automatically determine skin, please set it manually")
         nvt_state).
Proof.
  apply (@integrate_with_signal_handler_no_skin example_features example_codes
           no_cutoff_world 10 10 0 nvt_state).
  - discriminate.
  - reflexivity.
  - reflexivity.
Defined.

(** X22 at the criterion of the Stokesian range kernel. *)
Lemma particle_range_filter_sum_witness :
  In 0%nat (filter_range (TRANS_STOKESIAN + TRANS_SYSTEM_DEFAULT) nvt_state)
  <-> In 0%nat (filter_range TRANS_STOKESIAN nvt_state)
      \/ In 0%nat (filter_range TRANS_SYSTEM_DEFAULT nvt_state).
Proof.
  apply (particle_range_filter_sum TRANS_STOKESIAN TRANS_SYSTEM_DEFAULT
           nvt_state 0).
  reflexivity.
Defined.

(** X24 at the particle of [nvt_state] made a virtual site. *)
Lemma vs_relate_to_keeps_dispatch_witness :
  @integrator_step_2 example_features example_codes
    (set_particles [Z.lor TRANS_SYSTEM_DEFAULT TRANS_VS_RELATIVE] nvt_state)
  = set_particles [Z.lor TRANS_SYSTEM_DEFAULT TRANS_VS_RELATIVE]
      (@integrator_step_2 example_features example_codes nvt_state).
Proof.
  apply (@vs_relate_to_keeps_dispatch example_features example_codes quiet_env
           0 nvt_state [Z.lor TRANS_SYSTEM_DEFAULT TRANS_VS_RELATIVE]).
  - reflexivity.
  - constructor; [|constructor]. right.
    exists example_vs_relate_to_params,
      (example_particle 1 TRANS_SYSTEM_DEFAULT),
      (example_particle 0 TRANS_SYSTEM_DEFAULT).
    split; reflexivity.
Defined.

(** X25 at seven MD steps of a build with assertions. *)
Lemma coupled_solvers_propagation_witness :
  exists s',
    @integrate walberla_features example_codes
      (solver_env 1 (Some 1) (Some 1) no_errors never never never) 7 0
      nvt_state
    = (7, s')
    /\ fluid_step s' = 0
    /\ ek_step s' = 0
    /\ count_calls "__assert_fail" (calls s') = 0%nat
    /\ count_calls "EK::propagate" (calls s') = 7%nat.
Proof.
  destruct (@coupled_solvers_propagation walberla_features example_codes
              (solver_env 1 (Some 1) (Some 1) no_errors never never never) 7 0
              nvt_state) as (s' & E & Hf & He & Ha & _ & Hc & _).
  - discriminate.
  - reflexivity.
  - reflexivity.
  - reflexivity.
  - reflexivity.
  - reflexivity.
  - reflexivity.
  - reflexivity.
  - lia.
  - reflexivity.
  - reflexivity.
  - intros i. reflexivity.
  - right. split; [discriminate | intros i; reflexivity].
  - exists s'. split; [exact E|]. split; [exact Hf|].
    split; [exact He|]. split; [exact Ha | exact Hc].
Defined.

(** X26 at 2 steps per MD step: five MD steps propagate the solver twice. *)
Lemma electrokinetics_propagation_witness :
  exists s',
    @integrate walberla_features example_codes
      (solver_env 1 None (Some 2) no_errors never never never) 5 0 nvt_state
    = (5, s')
    /\ ek_step s' = 1
    /\ count_calls "EK::propagate" (calls s') = 2%nat.
Proof.
  destruct (@electrokinetics_propagation walberla_features example_codes
              (solver_env 1 None (Some 2) no_errors never never never) 5 0
              nvt_state 2) as (s' & E & He & _ & Hc & _).
  - discriminate.
  - reflexivity.
  - reflexivity.
  - reflexivity.
  - reflexivity.
  - lia.
  - vm_compute. split; [discriminate | reflexivity].
  - lia.
  - reflexivity.
  - reflexivity.
  - intros i. reflexivity.
  - right. split; [discriminate | intros i; reflexivity].
  - exists s'. split; [exact E|]. split; [exact He | exact Hc].
Defined.

(** X27 at the particle of [nvt_state]. *)
Lemma brownian_dynamics_steps_witness :
  exists s1,
    @set_integ_switch example_features example_codes
      (@INTEG_METHOD_BD example_codes) nvt_state = Return tt s1
    /\ @integrator_step_2 example_features example_codes s1 = s1.
Proof.
  destruct (@brownian_dynamics_steps example_features example_codes quiet_env
              0 nvt_state) as (s1 & E & _ & H2).
  - vm_compute.
    repeat (constructor; [cbn [In]; intuition discriminate|]). constructor.
  - reflexivity.
  - reflexivity.
  - constructor; [reflexivity | constructor].
  - exists s1. split; [exact E | exact H2].
Defined.

(** X28 at the canonical NaN. *)
Lemma set_time_step_nan_witness :
  exists s',
    @set_time_step quiet_env nan nvt_state = Return tt s'
    /\ PrimFloat.is_nan (time_step s') = true.
Proof.
  destruct (@set_time_step_nan example_features example_codes quiet_env nan
              nvt_state) as (s' & E & Ht & _).
  - reflexivity.
  - discriminate.
  - exists s'. split; [exact E|]. rewrite Ht. reflexivity.
Defined.

(** X29 at Brownian dynamics selected before NVT. *)
Lemma set_integ_switch_last_wins_witness :
  @set_integ_switch example_features example_codes
    (@INTEG_METHOD_NVT example_codes)
    (state_of (@set_integ_switch example_features example_codes
                 (@INTEG_METHOD_BD example_codes) nvt_state))
  = Return tt nvt_state.
Proof.
  apply (@set_integ_switch_last_wins example_features example_codes
           (@INTEG_METHOD_BD example_codes) (@INTEG_METHOD_NVT example_codes)
           nvt_state nvt_state).
  reflexivity.
Defined.

(** X30 at the velocity-Verlet integrator. *)
Lemma default_propagation_is_valid_witness :
  is_valid_propagation_combination (default_propagation nvt_state) = true.
Proof.
  apply (@default_propagation_is_valid example_features example_codes
           (@INTEG_METHOD_NVT example_codes) nvt_state nvt_state).
  - vm_compute.
    repeat (constructor; [cbn [In]; intuition discriminate|]). constructor.
  - right. left. reflexivity.
  - reflexivity.
Defined.
